(** * Angular animation timeline compiler: a shallow embedding

    This development embeds
    [packages/animations/browser/src/util.ts],
    [packages/animations/browser/src/dsl/animation_timeline_builder.ts] and
    [packages/animations/browser/src/dsl/animation_transition_factory.ts]
    and states the properties of the timeline compiler over it.

    Modelling conventions.
    - A JavaScript [number] is an exact rational extended with [NaN] and the
      two infinities ([JsNumber.number]).  Division by zero and the
      propagation of [NaN] are modelled, the sign of zero is not.  Sums,
      products and quotients are exact, except where the code rounds a
      number to hundredths ([roundOffset] and the stretch of
      [SubTimelineBuilder]): there each operation gives the binary64 nearest
      to the exact result ([JsNumber.rnd64]), as IEEE-754 has it, since the
      hundredth that comes out depends on it.  Every finite result is
      reduced ([Qred]), so that equal numbers computed from reduced inputs
      are equal terms.
    - A JavaScript string is a [string] of one-byte characters.
    - A JavaScript object used as a property bag is an association list in
      insertion order (the order of [Object.keys] and of [for .. in]); a
      prototype is a second association list consulted after the own
      properties.  Property names that look like array indices (which
      JavaScript enumerates first) do not occur among style properties.
      Where the code reads [o[k]] for a name [k] that [o], created by [{}],
      need not own (the local styles in [setStyles], the style summary in
      [mergeTimelineCollectedStyles], the state styles in
      [AnimationTransitionFactory.build]), the members of
      [Object.prototype] are found as well ([JsObject.inherited]).
    - Mutable objects that are shared (the timeline builders, the traversal
      contexts, the per-element style objects, the error list) live in an
      explicit store; references are indices into it, and the methods of the
      source become functions of a state-and-failure monad over the store.
      A JavaScript [TypeError] is the failure of that monad. *)

From Stdlib Require Import String Ascii List ZArith QArith Qround Qabs Qpower Bool
  Lia Lqa.
Import ListNotations.

Local Open Scope string_scope.
Local Open Scope list_scope.

(* ================================================================== *)
(** * JavaScript numbers *)

Module JsNumber.

Inductive number : Type :=
| Fin (q : Q)
| NaN
| PosInf
| NegInf.

Definition fin (q : Q) : number := Fin (Qred q).
Definition ofZ (z : Z) : number := Fin (inject_Z z).
Definition zero : number := ofZ 0.

Definition Qlt_bool (a b : Q) : bool := negb (Qle_bool b a).

Definition neg (a : number) : number :=
  match a with
  | Fin q => fin (- q)
  | NaN => NaN
  | PosInf => NegInf
  | NegInf => PosInf
  end.

Definition add (a b : number) : number :=
  match a, b with
  | NaN, _ | _, NaN => NaN
  | Fin x, Fin y => fin (x + y)
  | PosInf, NegInf | NegInf, PosInf => NaN
  | PosInf, _ | _, PosInf => PosInf
  | NegInf, _ | _, NegInf => NegInf
  end.

Definition sub (a b : number) : number := add a (neg b).

(** The infinity with the sign of [c], or [NaN] when [c] is zero. *)
Definition signedInf (c : comparison) : number :=
  match c with Eq => NaN | Gt => PosInf | Lt => NegInf end.

Definition flip (c : comparison) : comparison := CompOpp c.

Definition mul (a b : number) : number :=
  match a, b with
  | NaN, _ | _, NaN => NaN
  | Fin x, Fin y => fin (x * y)
  | PosInf, Fin y | Fin y, PosInf => signedInf (y ?= 0)%Q
  | NegInf, Fin y | Fin y, NegInf => signedInf (flip (y ?= 0)%Q)
  | PosInf, PosInf | NegInf, NegInf => PosInf
  | PosInf, NegInf | NegInf, PosInf => NegInf
  end.

(** [a / b].  A finite numerator over zero gives [NaN] for [0 / 0] and the
    infinity of the numerator's sign otherwise. *)
Definition div (a b : number) : number :=
  match a, b with
  | NaN, _ | _, NaN => NaN
  | Fin x, Fin y =>
      match (y ?= 0)%Q with
      | Eq => signedInf (x ?= 0)%Q
      | _ => fin (x / y)
      end
  | Fin _, _ => zero
  | PosInf, Fin y =>
      match (y ?= 0)%Q with Lt => NegInf | _ => PosInf end
  | NegInf, Fin y =>
      match (y ?= 0)%Q with Lt => PosInf | _ => NegInf end
  | _, _ => NaN
  end.

(** [a < b]; any comparison with [NaN] is false. *)
Definition lt (a b : number) : bool :=
  match a, b with
  | NaN, _ | _, NaN => false
  | Fin x, Fin y => Qlt_bool x y
  | NegInf, NegInf | PosInf, _ | _, NegInf => false
  | NegInf, _ | _, PosInf => true
  end.

Definition gt (a b : number) : bool := lt b a.

(** [a <= b]. *)
Definition le (a b : number) : bool :=
  match a, b with
  | NaN, _ | _, NaN => false
  | Fin x, Fin y => Qle_bool x y
  | NegInf, _ | _, PosInf => true
  | PosInf, _ | _, NegInf => false
  end.

(** [a == b] and [a === b] on numbers. *)
Definition eqb (a b : number) : bool :=
  match a, b with
  | Fin x, Fin y => Qeq_bool x y
  | PosInf, PosInf | NegInf, NegInf => true
  | _, _ => false
  end.

(** The key equality of [Map]: as [eqb], but [NaN] is the same as [NaN]. *)
Definition sameValueZero (a b : number) : bool :=
  match a, b with
  | NaN, NaN => true
  | _, _ => eqb a b
  end.

(** Truthiness: [0] and [NaN] are falsy. *)
Definition truthy (a : number) : bool :=
  match a with
  | Fin x => negb (Qeq_bool x 0)
  | NaN => false
  | _ => true
  end.

Definition abs (a : number) : number :=
  match a with
  | Fin x => fin (Qabs x)
  | NaN => NaN
  | _ => PosInf
  end.

Definition floor (a : number) : number :=
  match a with
  | Fin x => ofZ (Qfloor x)
  | _ => a
  end.

(** [Math.round]: the nearest integer, ties towards positive infinity. *)
Definition round (a : number) : number :=
  match a with
  | Fin x => ofZ (Qfloor (x + (1 # 2)))
  | _ => a
  end.

Definition max (a b : number) : number :=
  match a, b with
  | NaN, _ | _, NaN => NaN
  | _, _ => if lt a b then b else a
  end.

(** [Math.pow(10, e)] for an integral exponent. *)
Definition pow10 (e : Z) : number := fin (Qpower 10 e).

(** ** binary64 arithmetic

    A binary64 is [m * 2^e] with [|m| < 2^53] and [-1074 <= e <= 971].  The
    result of an operation is the binary64 nearest to the exact result, ties
    to the even [m]; an exact result that rounds to [2^1024] or more gives
    an infinity. *)

(** The integer nearest to [q], ties to even. *)
Definition roundHalfEven (q : Q) : Z :=
  let f := Qfloor q in
  match (q - inject_Z f ?= 1 # 2)%Q with
  | Lt => f
  | Gt => (f + 1)%Z
  | Eq => if Z.even f then f else (f + 1)%Z
  end.

Definition pow2 (z : Z) : Q := (2 # 1) ^ z.

(** [floor (log2 a)] for [a > 0]. *)
Definition ilog2 (a : Q) : Z :=
  let l := (Z.log2 (Qnum a) - Z.log2 (Zpos (Qden a)))%Z in
  if Qle_bool (pow2 l) a then l else (l - 1)%Z.

(** The exponent [e] of the binary64 numbers around [a > 0]: 53 bits below
    the leading one, and -1074 for the subnormal numbers. *)
Definition binade (a : Q) : Z := Z.max (ilog2 a - 52) (-1074).

(** The multiple of [2^e] nearest to [a > 0]. *)
Definition nearest64 (a : Q) : Q :=
  inject_Z (roundHalfEven (a / pow2 (binade a))) * pow2 (binade a).

(** The binary64 nearest to [q]. *)
Definition rnd64 (q : Q) : number :=
  match (q ?= 0)%Q with
  | Eq => Fin 0
  | Gt => let r := nearest64 q in
          if Qle_bool (pow2 1024) r then PosInf else fin r
  | Lt => let r := nearest64 (- q) in
          if Qle_bool (pow2 1024) r then NegInf else fin (- r)
  end.

Definition r64 (a : number) : number :=
  match a with
  | Fin q => rnd64 q
  | _ => a
  end.

(** [a + b], [a * b] and [a / b] on binary64 numbers. *)
Definition add64 (a b : number) : number := r64 (add a b).
Definition mul64 (a b : number) : number := r64 (mul a b).
Definition div64 (a b : number) : number := r64 (div a b).

End JsNumber.

Import JsNumber.

Declare Scope num_scope.
Delimit Scope num_scope with num.
Bind Scope num_scope with number.
Infix "+" := add : num_scope.
Infix "-" := sub : num_scope.
Infix "*" := mul : num_scope.
Infix "/" := div : num_scope.

(* ================================================================== *)
(** * JavaScript strings: character classes, number syntax *)

Module JsString.

Definition code (c : ascii) : nat := nat_of_ascii c.

Definition between (lo hi : nat) (c : ascii) : bool :=
  (lo <=? code c)%nat && (code c <=? hi)%nat.

Definition is_char (n : nat) (c : ascii) : bool := (code c =? n)%nat.

(** [\d] *)
Definition is_digit : ascii -> bool := between 48 57.
(** [[a-z]] *)
Definition is_lower : ascii -> bool := between 97 122.
(** [[A-Z]] *)
Definition is_upper : ascii -> bool := between 65 90.
(** [\w] *)
Definition is_word (c : ascii) : bool :=
  is_digit c || is_lower c || is_upper c || is_char 95 c.
(** [\s], on one-byte characters. *)
Definition is_space (c : ascii) : bool :=
  between 9 13 c || is_char 32 c || is_char 160 c.
(** [[\.\d]] *)
Definition is_numchar (c : ascii) : bool := is_digit c || is_char 46 c.
(** [[-a-z]] under the [i] flag. *)
Definition is_easing_char (c : ascii) : bool :=
  is_char 45 c || is_lower c || is_upper c.
(** [[-\w\s]] *)
Definition is_varname_char (c : ascii) : bool :=
  is_char 45 c || is_word c || is_space c.
(** The characters [.] does not match. *)
Definition is_line_terminator (c : ascii) : bool :=
  is_char 10 c || is_char 13 c.

Definition chr (n : nat) : ascii := ascii_of_nat n.
Definition str1 (c : ascii) : string := String c EmptyString.
Definition dquote : string := str1 (chr 34).
Definition backtick : string := str1 (chr 96).

Definition is_empty (s : string) : bool :=
  match s with EmptyString => true | _ => false end.

(** The longest prefix whose characters satisfy [p], and the rest. *)
Fixpoint span (p : ascii -> bool) (s : string) : string * string :=
  match s with
  | EmptyString => (EmptyString, EmptyString)
  | String c r =>
      if p c then let '(a, b) := span p r in (String c a, b)
      else (EmptyString, s)
  end.

Fixpoint forallb_str (p : ascii -> bool) (s : string) : bool :=
  match s with
  | EmptyString => true
  | String c r => p c && forallb_str p r
  end.

Fixpoint last_char (s : string) : option ascii :=
  match s with
  | EmptyString => None
  | String c EmptyString => Some c
  | String _ r => last_char r
  end.

(** The value of a string of decimal digits. *)
Fixpoint digits_value (acc : Z) (s : string) : Z :=
  match s with
  | EmptyString => acc
  | String c r => digits_value (10 * acc + Z.of_nat (code c - 48)) r
  end.

(** [parseFloat]: leading white space, a sign, then the longest prefix that
    is a decimal literal ([Infinity], or digits with an optional fraction and
    exponent); [NaN] when there is none. *)
Definition parseFloat (s : string) : number :=
  let '(_, s1) := span is_space s in
  let '(negative, s2) :=
    match s1 with
    | String c r =>
        if is_char 45 c then (true, r)
        else if is_char 43 c then (false, r) else (false, s1)
    | EmptyString => (false, s1)
    end in
  let sign (n : number) := if negative then neg n else n in
  if prefix "Infinity" s2 then sign PosInf
  else
    let '(ip, s3) := span is_digit s2 in
    let '(fp, s4) :=
      match s3 with
      | String c r => if is_char 46 c then span is_digit r else (EmptyString, s3)
      | EmptyString => (EmptyString, s3)
      end in
    if is_empty ip && is_empty fp then NaN
    else
      let ex : Z :=
        match s4 with
        | String e r =>
            if is_char 101 e || is_char 69 e then
              let '(eneg, r1) :=
                match r with
                | String c r' =>
                    if is_char 45 c then (true, r')
                    else if is_char 43 c then (false, r') else (false, r)
                | EmptyString => (false, r)
                end in
              let '(ed, _) := span is_digit r1 in
              if is_empty ed then 0%Z
              else if eneg then (- digits_value 0 ed)%Z else digits_value 0 ed
            else 0%Z
        | EmptyString => 0%Z
        end in
      let mant := digits_value 0 (ip ++ fp)%string in
      sign (fin (inject_Z mant * Qpower 10 (ex - Z.of_nat (String.length fp)))).

(** Decimal digits of a natural number, most significant first. *)
Fixpoint nat_digits (fuel : nat) (n : N) (acc : string) : string :=
  match fuel with
  | O => acc
  | S f =>
      let acc' := String (chr (48 + N.to_nat (n mod 10))) acc in
      if (n / 10 =? 0)%N then acc' else nat_digits f (n / 10)%N acc'
  end.

Definition N_to_string (n : N) : string :=
  nat_digits (S (N.to_nat (N.log2 n))) n EmptyString.

(** Digits of the fraction [r / d] (with [r < d]), until it terminates or the
    fuel is spent. *)
Fixpoint frac_digits (fuel : nat) (r d : N) : string :=
  match fuel with
  | O => EmptyString
  | S f =>
      if (r =? 0)%N then EmptyString
      else String (chr (48 + N.to_nat ((10 * r) / d)))
                  (frac_digits f ((10 * r) mod d)%N d)
  end.

(** [Number.prototype.toString]: exact for integers and for fractions with
    a terminating expansion of at most 17 digits, which a binary64 prints
    back as written; longer expansions are cut there. *)
Definition number_to_string (n : number) : string :=
  match n with
  | NaN => "NaN"
  | PosInf => "Infinity"
  | NegInf => "-Infinity"
  | Fin q =>
      let q' := Qred q in
      let a := Z.to_N (Z.abs (Qnum q')) in
      let d := Npos (Qden q') in
      let ip := N_to_string (a / d) in
      let fp := frac_digits 17 (a mod d) d in
      ((if (Qnum q' <? 0)%Z then "-" else EmptyString)
         ++ ip ++ (if is_empty fp then EmptyString else "." ++ fp))%string
  end.

End JsString.

Import JsString.

(* ================================================================== *)
(** * JavaScript objects as ordered property lists *)

Module JsObject.

Section Obj.
Context {A : Type}.

Definition obj : Type := list (string * A).

(** [o[k]] on own properties. *)
Fixpoint get (k : string) (o : obj) : option A :=
  match o with
  | [] => None
  | (k', v) :: r => if String.eqb k k' then Some v else get k r
  end.

(** [o.hasOwnProperty(k)] *)
Definition has (k : string) (o : obj) : bool :=
  match get k o with Some _ => true | None => false end.

(** [o[k] = v]: an existing property keeps its place, a new one goes last. *)
Fixpoint set (k : string) (v : A) (o : obj) : obj :=
  match o with
  | [] => [(k, v)]
  | (k', v') :: r =>
      if String.eqb k k' then (k', v) :: r else (k', v') :: set k v r
  end.

(** [Object.keys(o)] *)
Definition keys (o : obj) : list string := map fst o.

(** [o[k]] for an object [own] whose prototype is [proto]. *)
Definition getP (k : string) (own proto : obj) : option A :=
  match get k own with
  | Some v => Some v
  | None => get k proto
  end.

(** The properties a [for (k in o)] loop visits: the own ones, then those
    of the prototype that are not shadowed. *)
Definition forInKeys (own proto : obj) : list string :=
  keys own ++ filter (fun k => negb (has k own)) (keys proto).
End Obj.

Arguments obj A : clear implicits.

(** The names an object created by [{}] inherits from [Object.prototype].
    Each of these members is a function, or [Object.prototype] itself for
    [__proto__]: a truthy value that has no enumerable property and none of
    the properties the program reads. *)
Definition objectPrototype : list string :=
  ["constructor"; "__defineGetter__"; "__defineSetter__"; "hasOwnProperty";
   "__lookupGetter__"; "__lookupSetter__"; "isPrototypeOf";
   "propertyIsEnumerable"; "toString"; "valueOf"; "__proto__";
   "toLocaleString"]%string.

(** [k] names a member of [Object.prototype]. *)
Definition inherited (k : string) : bool :=
  existsb (String.eqb k) objectPrototype.

End JsObject.

Import JsObject.

(** A style value: [string | number]. *)
Inductive value : Type :=
| VNum (n : number)
| VStr (s : string).

(** [ɵStyleData] *)
Definition StyleData : Type := obj value.

(** Variable bindings, [{[name: string]: any}]; the values met are strings
    and numbers, and a flag such as [optional] is only tested for
    truthiness. *)
Definition Locals : Type := obj value.

Definition value_truthy (v : value) : bool :=
  match v with
  | VNum n => truthy n
  | VStr s => negb (is_empty s)
  end.

(** Truthiness of a possibly [undefined] value. *)
Definition opt_truthy (v : option value) : bool :=
  match v with Some x => value_truthy x | None => false end.

(** Truthiness of [o[k]] for an object with the own properties [own] whose
    prototype [proto] was created by [{}]: past [proto], the lookup reaches
    [Object.prototype]. *)
Definition chain_truthy (k : string) (own proto : obj value) : bool :=
  match getP k own proto with
  | Some v => value_truthy v
  | None => inherited k
  end.

Definition value_toString (v : value) : string :=
  match v with
  | VNum n => number_to_string n
  | VStr s => s
  end.

(** Truthiness of a [string | null]. *)
Definition str_truthy (s : option string) : bool :=
  match s with Some x => negb (is_empty x) | None => false end.

(** [a || b] on [string | null]. *)
Definition str_or (a b : option string) : option string :=
  if str_truthy a then a else b.

(** Modelled from the spec: the sentinels [AUTO] and [PRE] of the Style Map,
    exported by [@angular/animations] as [AUTO_STYLE = "*"] (declared in
    [tools/public_api_guard/animations/animations.d.ts]) and [ɵPRE_STYLE],
    whose declaration is not among the sources and is the string ["!"]. *)
Definition AUTO_STYLE : value := VStr "*".
Definition PRE_STYLE : value := VStr "!".

(** [v == s] for a sentinel [s], a string that is not a numeral: a number is
    never loosely equal to it. *)
Definition loose_eq (v s : value) : bool :=
  match v, s with
  | VStr a, VStr b => String.eqb a b
  | VNum a, VNum b => eqb a b
  | _, _ => false
  end.

(** [AnimateTimings] *)
Record AnimateTimings : Type := mkTimings {
  duration : number;
  delay : number;
  easing : option string
}.

(* ================================================================== *)
(** * util.ts *)

Module Util.

Definition ONE_SECOND : number := ofZ 1000.

Definition _convertTimeValueToMS (value : number) (unit : string) : number :=
  if String.eqb unit "s" then (value * ONE_SECOND)%num else value.

(** ** The regular expressions, as matchers *)

(** [(-?[\.\d]+)] at the head of [s]: the text matched and the rest. *)
Definition match_number (s : string) : option (string * string) :=
  let '(sign, r) :=
    match s with
    | String c r' => if is_char 45 c then ("-", r') else (EmptyString, s)
    | EmptyString => (EmptyString, s)
    end in
  let '(ds, r') := span is_numchar r in
  if is_empty ds then None else Some ((sign ++ ds)%string, r').

(** [(m?s)] at the head of [s]; [ci] is the [i] flag. *)
Definition match_unit (ci : bool) (s : string) : option (string * string) :=
  let is_m c := is_char 109 c || (ci && is_char 77 c) in
  let is_s c := is_char 115 c || (ci && is_char 83 c) in
  match s with
  | String a (String b r) =>
      if is_m a && is_s b then Some (String a (str1 b), r)
      else if is_s a then Some (str1 a, String b r)
      else None
  | String a EmptyString => if is_s a then Some (str1 a, EmptyString) else None
  | EmptyString => None
  end.

(** [\s+] at the head of [s]: the rest. *)
Definition match_spaces (s : string) : option string :=
  let '(sp, r) := span is_space s in
  if is_empty sp then None else Some r.

(** [([-a-z]+(?:\(.+?\))?)$] on the whole of [s]. *)
Definition match_easing (s : string) : option string :=
  let '(w, r) := span is_easing_char s in
  if is_empty w then None
  else
    match r with
    | EmptyString => Some s
    | String c inner =>
        if is_char 40 c
           && (2 <=? String.length inner)%nat
           && match last_char inner with
              | Some z => is_char 41 z
              | None => false
              end
           && forallb_str (fun x => negb (is_line_terminator x)) inner
        then Some s else None
    end.

(** [(?:\s+([-a-z]+(?:\(.+?\))?))?$]: the easing group if it took part. *)
Definition match_tail (s : string) : option (option string) :=
  if is_empty s then Some None
  else
    match match_spaces s with
    | Some r =>
        match match_easing r with
        | Some e => Some (Some e)
        | None => None
        end
    | None => None
    end.

(** The groups of a match of the timing expression. *)
Record TimingMatch : Type := mkMatch {
  m_duration : string;                     (* matches[1] *)
  m_durationUnit : string;                 (* matches[2] *)
  m_delay : option (string * string);      (* matches[3], matches[4] *)
  m_easing : option string                 (* matches[5] *)
}.

(** [/^(-?[\.\d]+)(m?s)(?:\s+(-?[\.\d]+)(m?s))?(?:\s+([-a-z]+(?:\(.+?\))?))?$/i]:
    the delay group is tried first and given up if the rest then fails. *)
Definition timing_regex (s : string) : option TimingMatch :=
  match match_number s with
  | None => None
  | Some (n1, r1) =>
      match match_unit true r1 with
      | None => None
      | Some (u1, r2) =>
          let with_delay :=
            match match_spaces r2 with
            | None => None
            | Some r3 =>
                match match_number r3 with
                | None => None
                | Some (n3, r4) =>
                    match match_unit true r4 with
                    | None => None
                    | Some (u4, r5) =>
                        match match_tail r5 with
                        | None => None
                        | Some e => Some (mkMatch n1 u1 (Some (n3, u4)) e)
                        end
                    end
                end
            end in
          match with_delay with
          | Some m => Some m
          | None =>
              match match_tail r2 with
              | None => None
              | Some e => Some (mkMatch n1 u1 None e)
              end
          end
      end
  end.

(** [/^(-?[\.\d]+)(m?s)/] *)
Definition timing_value_regex (s : string) : option (string * string) :=
  match match_number s with
  | None => None
  | Some (n1, r1) =>
      match match_unit false r1 with
      | None => None
      | Some (u1, _) => Some (n1, u1)
      end
  end.

Definition resolveTimingValue (v : value) : number :=
  match v with
  | VNum n => n
  | VStr s =>
      match timing_value_regex s with
      | None => zero
      | Some (n, u) => _convertTimeValueToMS (parseFloat n) u
      end
  end.

Definition invalid_timing_message (exp : value) : string :=
  ("The provided timing value " ++ dquote ++ value_toString exp ++ dquote
     ++ " is invalid.")%string.

Definition negative_duration_message : string :=
  "Duration values below 0 are not allowed for this animation step.".

Definition negative_delay_message : string :=
  "Delay values below 0 are not allowed for this animation step.".

(** [errors.splice(index, 0, item)] *)
Definition splice_in {A : Type} (index : nat) (item : A) (l : list A) : list A :=
  firstn index l ++ item :: skipn index l.

(** The checks after the parse: the errors pushed for negative components,
    with the aggregate message spliced in before them. *)
Definition check_negative (exp : value) (dur del : number)
    (errors : list string) : list string :=
  let startIndex := length errors in
  let errors1 :=
    if lt dur zero then errors ++ [negative_duration_message] else errors in
  let errors2 :=
    if lt del zero then errors1 ++ [negative_delay_message] else errors1 in
  let containsErrors := lt dur zero || lt del zero in
  if containsErrors
  then splice_in startIndex (invalid_timing_message exp) errors2
  else errors2.

(** The triple read off the groups of a match. *)
Definition timingsOfMatch (m : TimingMatch) : AnimateTimings :=
  let dur :=
    _convertTimeValueToMS (parseFloat (m_duration m)) (m_durationUnit m) in
  let del :=
    match m_delay m with
    | Some (delayMatch, unit) =>
        _convertTimeValueToMS (floor (parseFloat delayMatch)) unit
    | None => zero
    end in
  let eas :=
    match m_easing m with
    | Some easingVal =>
        if negb (is_empty easingVal) then easingVal else EmptyString
    | None => EmptyString
    end in
  mkTimings dur del (Some eas).

Definition parseTimeExpression (exp : value) (errors : list string)
    (allowNegativeValues : bool) : AnimateTimings * list string :=
  let finish (dur del : number) (eas : option string) :=
    (mkTimings dur del eas,
     if negb allowNegativeValues then check_negative exp dur del errors
     else errors) in
  match exp with
  | VStr s =>
      match timing_regex s with
      | None =>
          (mkTimings zero zero (Some EmptyString),
           errors ++ [invalid_timing_message exp])
      | Some m =>
          let t := timingsOfMatch m in
          finish (duration t) (delay t) (easing t)
      end
  | VNum n => finish n zero (Some EmptyString)
  end.

(** The argument of [resolveTiming]: [string | number | AnimateTimings]. *)
Inductive TimingInput : Type :=
| TimingExp (exp : value)
| TimingObj (t : AnimateTimings).

Definition resolveTiming (timings : TimingInput) (errors : list string)
    (allowNegativeValues : bool) : AnimateTimings * list string :=
  match timings with
  | TimingObj t => (t, errors)      (* timings.hasOwnProperty('duration') *)
  | TimingExp exp => parseTimeExpression exp errors allowNegativeValues
  end.

(** [copyObj(obj, destination)] *)
Definition copyObj (o destination : StyleData) : StyleData :=
  fold_left (fun dest prop =>
               match get prop o with
               | Some v => set prop v dest
               | None => dest
               end) (keys o) destination.

(** [copyStyles(styles, readPrototype, destination)] for the object [own]
    with prototype [proto]. *)
Definition copyStyles (own proto : StyleData) (readPrototype : bool)
    (destination : StyleData) : StyleData :=
  if readPrototype then
    fold_left (fun dest prop =>
                 match getP prop own proto with
                 | Some v => set prop v dest
                 | None => dest
                 end) (forInKeys own proto) destination
  else copyObj own destination.

(** ** Variable interpolation *)

(** The callback of [matchAndReplace]: the replacement text for the match
    [exp] and the error list after it. *)
Definition replace_match (prefixLength suffixLength : nat) (exp : string)
    (locals : Locals) (errors : list string) : string * list string :=
  let varName :=
    ("$" ++ substring prefixLength
              (String.length exp - suffixLength - prefixLength) exp)%string in
  match get varName locals with
  | Some localVal => (value_toString localVal, errors)
  | None =>
      (EmptyString,
       errors ++ [("Please provide a value for the animation variable " ++ exp)%string])
  end.

(** [str.replace(/\$\w+/g, ..)].  [pending] holds the word characters read
    after a [$] that may start a match. *)
Fixpoint replace_simple (locals : Locals) (s : string) (pending : option string)
    (out : string) (errors : list string) : string * list string :=
  let flush (p : option string) : string * list string :=
    match p with
    | None => (out, errors)
    | Some name =>
        if is_empty name then ((out ++ "$")%string, errors)
        else
          let '(r, errors') :=
            replace_match 1 0 ("$" ++ name)%string locals errors in
          ((out ++ r)%string, errors')
    end in
  match s with
  | EmptyString => flush pending
  | String c rest =>
      match pending with
      | Some name =>
          if is_word c
          then replace_simple locals rest (Some (name ++ str1 c)%string) out errors
          else
            let '(out', errors') := flush pending in
            if is_char 36 c
            then replace_simple locals rest (Some EmptyString) out' errors'
            else replace_simple locals rest None (out' ++ str1 c)%string errors'
      | None =>
          if is_char 36 c
          then replace_simple locals rest (Some EmptyString) out errors
          else replace_simple locals rest None (out ++ str1 c)%string errors
      end
  end.

(** Where the scan of [/\$\{([-\w\s]+)\}/g] stands. *)
Inductive BraceState : Type :=
| Outside
| AfterDollar
| InBraces (name : string).

(** The text read so far in a state, put back when the match fails. *)
Definition unread (st : BraceState) : string :=
  match st with
  | Outside => EmptyString
  | AfterDollar => "$"
  | InBraces name => ("${" ++ name)%string
  end.

Fixpoint replace_advanced (locals : Locals) (s : string) (st : BraceState)
    (out : string) (errors : list string) : string * list string :=
  match s with
  | EmptyString => ((out ++ unread st)%string, errors)
  | String c rest =>
      let restart (out' : string) :=
        if is_char 36 c
        then replace_advanced locals rest AfterDollar out' errors
        else replace_advanced locals rest Outside (out' ++ str1 c)%string errors in
      match st with
      | Outside => restart out
      | AfterDollar =>
          if is_char 123 c
          then replace_advanced locals rest (InBraces EmptyString) out errors
          else restart (out ++ unread st)%string
      | InBraces name =>
          if is_varname_char c
          then replace_advanced locals rest (InBraces (name ++ str1 c)%string) out errors
          else if is_char 125 c && negb (is_empty name)
          then
            let '(r, errors') :=
              replace_match 2 1 ("${" ++ name ++ "}")%string locals errors in
            replace_advanced locals rest Outside (out ++ r)%string errors'
          else restart (out ++ unread st)%string
      end
  end.

Definition interpolateLocals (v : value) (locals : Locals)
    (errors : list string) : value * list string :=
  let original := value_toString v in
  let '(str1, errors1) := replace_simple locals original None EmptyString errors in
  let '(str2, errors2) := replace_advanced locals str1 Outside EmptyString errors1 in
  (if String.eqb str2 original then v else VStr str2, errors2).

End Util.

Import Util.

(* ================================================================== *)
(** * The animation AST and the compiled instruction *)

(** A DOM element: an opaque handle compared by identity. *)
Definition element : Type := nat.

(** One entry of [StyleAst.styles]: a style map, or the wild card ['*'] (the
    only string the type [(ɵStyleData|string)[]] is used for). *)
Inductive StyleToken : Type :=
| TokAll
| TokStyles (s : StyleData).

(** The fields of a [StyleAst]. *)
Record StyleStep : Type := mkStyleStep {
  styles : list StyleToken;
  st_easing : option string;
  offset : option number;
  isEmptyStep : bool
}.

(** [TimingAst] and its subclass [DynamicTimingAst]. *)
Inductive TimingAst : Type :=
| StaticTiming (t : AnimateTimings)
| DynamicTimingAst (value : string).

(** Modelled from the spec: the node kinds of [./animation_ast], which is not
    among the sources; the fields are those the visitor reads.  [AnimateAst]
    holds a [StyleAst] or a [KeyframesAst], [AnimateRefAst] a
    [ReferenceAst]. *)
#[local] Set Warnings "-register-all".
Inductive Ast : Type :=
| StyleAst (s : StyleStep)
| AnimateAst (timings : TimingAst) (style : Ast)
| KeyframesAst (steps : list StyleStep)
| SequenceAst (steps : list Ast) (locals : option Locals)
| GroupAst (steps : list Ast) (locals : option Locals)
| QueryAst (selector originalSelector : string) (multi includeSelf : bool)
    (animation : Ast) (locals : option Locals)
| StaggerAst (timings : AnimateTimings) (animation : Ast)
| ReferenceAst (animation : Ast) (locals : option Locals)
| AnimateChildAst (locals : option Locals)
| AnimateRefAst (animation : Ast) (locals : option Locals)
| TriggerAst
| StateAst
| TransitionAst.

Definition is_StyleAst (n : option Ast) : bool :=
  match n with Some (StyleAst _) => true | _ => false end.

Definition is_AnimateAst (n : option Ast) : bool :=
  match n with Some (AnimateAst _ _) => true | _ => false end.

(** Modelled from the spec: the Compiled Instruction built by
    [createTimelineInstruction] of [./animation_timeline_instruction], which
    is not among the sources: element, keyframes, pre- and post-style
    properties, duration, start delay, easing and the stretch flag. *)
Record AnimationTimelineInstruction : Type := createTimelineInstruction {
  i_element : element;
  keyframes : list StyleData;
  preStyleProps : list string;
  postStyleProps : list string;
  i_duration : number;
  i_delay : number;
  i_easing : option string;
  stretchStartingKeyframe : bool
}.

(** Modelled from the spec: the Sub-instruction Lookup of
    [./element_instruction_map], which is not among the sources: keyed by
    element, consumed once per element. *)
Definition ElementInstructionMap : Type :=
  list (element * list AnimationTimelineInstruction).

Fixpoint consume (el : element) (m : ElementInstructionMap)
  : list AnimationTimelineInstruction * ElementInstructionMap :=
  match m with
  | [] => ([], [])
  | (e, ins) :: r =>
      if Nat.eqb e el then (ins, r)
      else let '(found, r') := consume el r in (found, (e, ins) :: r')
  end.

(* ================================================================== *)
(** * The store *)

(** [StyleAtTime] *)
Record StyleAtTime : Type := mkStyleAtTime {
  time : number;
  sat_value : value
}.

(** A reference to a keyframe object: one held by [_keyframes] under a time,
    or the object of a field initialiser, which nothing else refers to. *)
Inductive KeyframeRef : Type :=
| Detached
| AtTime (t : number).

(** The fields a [SubTimelineBuilder] adds. *)
Record SubTimeline : Type := mkSub {
  sub_keyframes : list StyleData;
  sub_preStyleProps : list string;
  sub_postStyleProps : list string;
  sub_timings : AnimateTimings;
  _stretchStartingKeyframe : bool
}.

(** The state of a [TimelineBuilder].  Every keyframe object and
    [_localTimelineStyles] have [_backFill] as prototype.
    [_globalTimelineStyles] refers to the [_localTimelineStyles] object of
    the builder with that index. *)
Record TimelineBuilder : Type := mkBuilder {
  tl_element : element;
  startTime : number;
  tl_duration : number;
  tl_easing : option string;
  _previousKeyframe : KeyframeRef;
  _currentKeyframe : KeyframeRef;
  _keyframes : list (number * StyleData);
  _styleSummary : obj StyleAtTime;
  _localTimelineStyles : StyleData;
  _globalTimelineStyles : nat;
  _backFill : StyleData;
  _currentEmptyStepKeyframe : option KeyframeRef;
  tl_sub : option SubTimeline
}.

(** The state of an [AnimationTimelineContext]; [parentContext] and
    [currentTimeline] are references into the store. *)
Record AnimationTimelineContext : Type := mkContext {
  ctx_element : element;
  parentContext : option nat;
  currentTimeline : nat;
  currentAnimateTimings : option AnimateTimings;
  previousNode : option Ast;
  subContextCount : nat;
  ctx_locals : Locals;
  currentQueryIndex : number;
  currentQueryTotal : number;
  currentStaggerTime : number
}.

(** What one compilation shares: the builders (the array [timelines], in
    which every builder is pushed as soon as it is constructed, so that its
    index is its identity), the contexts, the map from an element to the
    builder that owns its global style object, the error list and the
    sub-instructions. *)
Record Store : Type := mkStore {
  timelines : list TimelineBuilder;
  contexts : list AnimationTimelineContext;
  _elementTimelineStylesLookup : list (element * nat);
  errors : list string;
  subInstructions : ElementInstructionMap
}.

(** ** Field updates *)

Definition with_startTime (v : number) (b : TimelineBuilder) :=
  mkBuilder (tl_element b) v (tl_duration b) (tl_easing b)
    (_previousKeyframe b) (_currentKeyframe b) (_keyframes b) (_styleSummary b)
    (_localTimelineStyles b) (_globalTimelineStyles b) (_backFill b)
    (_currentEmptyStepKeyframe b) (tl_sub b).
Definition with_duration (v : number) (b : TimelineBuilder) :=
  mkBuilder (tl_element b) (startTime b) v (tl_easing b)
    (_previousKeyframe b) (_currentKeyframe b) (_keyframes b) (_styleSummary b)
    (_localTimelineStyles b) (_globalTimelineStyles b) (_backFill b)
    (_currentEmptyStepKeyframe b) (tl_sub b).
Definition with_easing (v : option string) (b : TimelineBuilder) :=
  mkBuilder (tl_element b) (startTime b) (tl_duration b) v
    (_previousKeyframe b) (_currentKeyframe b) (_keyframes b) (_styleSummary b)
    (_localTimelineStyles b) (_globalTimelineStyles b) (_backFill b)
    (_currentEmptyStepKeyframe b) (tl_sub b).
Definition with_cursor (prev cur : KeyframeRef) (b : TimelineBuilder) :=
  mkBuilder (tl_element b) (startTime b) (tl_duration b) (tl_easing b)
    prev cur (_keyframes b) (_styleSummary b)
    (_localTimelineStyles b) (_globalTimelineStyles b) (_backFill b)
    (_currentEmptyStepKeyframe b) (tl_sub b).
Definition with_keyframes (v : list (number * StyleData)) (b : TimelineBuilder) :=
  mkBuilder (tl_element b) (startTime b) (tl_duration b) (tl_easing b)
    (_previousKeyframe b) (_currentKeyframe b) v (_styleSummary b)
    (_localTimelineStyles b) (_globalTimelineStyles b) (_backFill b)
    (_currentEmptyStepKeyframe b) (tl_sub b).
Definition with_styleSummary (v : obj StyleAtTime) (b : TimelineBuilder) :=
  mkBuilder (tl_element b) (startTime b) (tl_duration b) (tl_easing b)
    (_previousKeyframe b) (_currentKeyframe b) (_keyframes b) v
    (_localTimelineStyles b) (_globalTimelineStyles b) (_backFill b)
    (_currentEmptyStepKeyframe b) (tl_sub b).
Definition with_localTimelineStyles (v : StyleData) (b : TimelineBuilder) :=
  mkBuilder (tl_element b) (startTime b) (tl_duration b) (tl_easing b)
    (_previousKeyframe b) (_currentKeyframe b) (_keyframes b) (_styleSummary b)
    v (_globalTimelineStyles b) (_backFill b)
    (_currentEmptyStepKeyframe b) (tl_sub b).
Definition with_backFill (v : StyleData) (b : TimelineBuilder) :=
  mkBuilder (tl_element b) (startTime b) (tl_duration b) (tl_easing b)
    (_previousKeyframe b) (_currentKeyframe b) (_keyframes b) (_styleSummary b)
    (_localTimelineStyles b) (_globalTimelineStyles b) v
    (_currentEmptyStepKeyframe b) (tl_sub b).
Definition with_currentEmptyStepKeyframe (v : option KeyframeRef)
    (b : TimelineBuilder) :=
  mkBuilder (tl_element b) (startTime b) (tl_duration b) (tl_easing b)
    (_previousKeyframe b) (_currentKeyframe b) (_keyframes b) (_styleSummary b)
    (_localTimelineStyles b) (_globalTimelineStyles b) (_backFill b)
    v (tl_sub b).

Definition with_currentTimeline (v : nat) (c : AnimationTimelineContext) :=
  mkContext (ctx_element c) (parentContext c) v (currentAnimateTimings c)
    (previousNode c) (subContextCount c) (ctx_locals c) (currentQueryIndex c)
    (currentQueryTotal c) (currentStaggerTime c).
Definition with_currentAnimateTimings (v : option AnimateTimings)
    (c : AnimationTimelineContext) :=
  mkContext (ctx_element c) (parentContext c) (currentTimeline c) v
    (previousNode c) (subContextCount c) (ctx_locals c) (currentQueryIndex c)
    (currentQueryTotal c) (currentStaggerTime c).
Definition with_previousNode (v : option Ast) (c : AnimationTimelineContext) :=
  mkContext (ctx_element c) (parentContext c) (currentTimeline c)
    (currentAnimateTimings c) v (subContextCount c) (ctx_locals c)
    (currentQueryIndex c) (currentQueryTotal c) (currentStaggerTime c).
Definition with_subContextCount (v : nat) (c : AnimationTimelineContext) :=
  mkContext (ctx_element c) (parentContext c) (currentTimeline c)
    (currentAnimateTimings c) (previousNode c) v (ctx_locals c)
    (currentQueryIndex c) (currentQueryTotal c) (currentStaggerTime c).
Definition with_locals (v : Locals) (c : AnimationTimelineContext) :=
  mkContext (ctx_element c) (parentContext c) (currentTimeline c)
    (currentAnimateTimings c) (previousNode c) (subContextCount c) v
    (currentQueryIndex c) (currentQueryTotal c) (currentStaggerTime c).
Definition with_query (index total : number) (c : AnimationTimelineContext) :=
  mkContext (ctx_element c) (parentContext c) (currentTimeline c)
    (currentAnimateTimings c) (previousNode c) (subContextCount c)
    (ctx_locals c) index total (currentStaggerTime c).
Definition with_currentStaggerTime (v : number) (c : AnimationTimelineContext) :=
  mkContext (ctx_element c) (parentContext c) (currentTimeline c)
    (currentAnimateTimings c) (previousNode c) (subContextCount c)
    (ctx_locals c) (currentQueryIndex c) (currentQueryTotal c) v.

Definition with_timelines (v : list TimelineBuilder) (s : Store) :=
  mkStore v (contexts s) (_elementTimelineStylesLookup s) (errors s)
    (subInstructions s).
Definition with_contexts (v : list AnimationTimelineContext) (s : Store) :=
  mkStore (timelines s) v (_elementTimelineStylesLookup s) (errors s)
    (subInstructions s).
Definition with_lookup (v : list (element * nat)) (s : Store) :=
  mkStore (timelines s) (contexts s) v (errors s) (subInstructions s).
Definition with_errors (v : list string) (s : Store) :=
  mkStore (timelines s) (contexts s) (_elementTimelineStylesLookup s) v
    (subInstructions s).
Definition with_subInstructions (v : ElementInstructionMap) (s : Store) :=
  mkStore (timelines s) (contexts s) (_elementTimelineStylesLookup s)
    (errors s) v.

(** [l[i] = f(l[i])] *)
Fixpoint update_nth {A : Type} (i : nat) (f : A -> A) (l : list A) : list A :=
  match l, i with
  | [], _ => []
  | x :: r, O => f x :: r
  | x :: r, S j => x :: update_nth j f r
  end.

(** ** The monad of the compiler: state over the store, with failure *)

Definition M (A : Type) : Type := Store -> option (A * Store).

Definition ret {A : Type} (a : A) : M A := fun s => Some (a, s).

Definition bind {A B : Type} (m : M A) (k : A -> M B) : M B :=
  fun s =>
    match m s with
    | Some (a, s') => k a s'
    | None => None
    end.

(** A [TypeError]. *)
Definition throw {A : Type} : M A := fun _ => None.

Declare Scope monad_scope.
Delimit Scope monad_scope with monad.
Notation "x <- c1 ;; c2" := (bind c1 (fun x => c2))
  (at level 61, c1 at next level, right associativity) : monad_scope.
Notation "c1 ;; c2" := (bind c1 (fun _ => c2))
  (at level 61, right associativity) : monad_scope.
Local Open Scope monad_scope.

Definition gets {A : Type} (f : Store -> A) : M A := fun s => Some (f s, s).
Definition modify (f : Store -> Store) : M unit := fun s => Some (tt, f s).

Definition when (c : bool) (m : M unit) : M unit := if c then m else ret tt.

(** [l.forEach(f)] *)
Definition forEach {A : Type} (f : A -> M unit) : list A -> M unit :=
  fix go (l : list A) : M unit :=
    match l with
    | [] => ret tt
    | x :: r => f x ;; go r
    end.

(** Dereference a builder. *)
Definition getTL (t : nat) : M TimelineBuilder :=
  fun s =>
    match nth_error (timelines s) t with
    | Some b => Some (b, s)
    | None => None
    end.

(** Mutate a builder in place. *)
Definition modTL (t : nat) (f : TimelineBuilder -> TimelineBuilder) : M unit :=
  modify (fun s => with_timelines (update_nth t f (timelines s)) s).

Definition getCtx (c : nat) : M AnimationTimelineContext :=
  fun s =>
    match nth_error (contexts s) c with
    | Some x => Some (x, s)
    | None => None
    end.

Definition modCtx (c : nat)
    (f : AnimationTimelineContext -> AnimationTimelineContext) : M unit :=
  modify (fun s => with_contexts (update_nth c f (contexts s)) s).

(** [errors.push(msg)] *)
Definition pushError (msg : string) : M unit :=
  modify (fun s => with_errors (errors s ++ [msg]) s).

(** Run a function of [util.ts] that takes the error list. *)
Definition withErrors {A : Type} (f : list string -> A * list string) : M A :=
  fun s => let '(a, e) := f (errors s) in Some (a, with_errors e s).

(* ================================================================== *)
(** * TimelineBuilder *)

(** ** The keyframe map *)

(** [_keyframes.get(t)] *)
Fixpoint kf_get (t : number) (kfs : list (number * StyleData))
  : option StyleData :=
  match kfs with
  | [] => None
  | (t', kf) :: r => if sameValueZero t t' then Some kf else kf_get t r
  end.

(** Apply [f] to the keyframe object held under [t]. *)
Fixpoint kf_update (t : number) (f : StyleData -> StyleData)
    (kfs : list (number * StyleData)) : list (number * StyleData) :=
  match kfs with
  | [] => []
  | (t', kf) :: r =>
      if sameValueZero t t' then (t', f kf) :: r
      else (t', kf) :: kf_update t f r
  end.

(** The own properties of the object behind a reference. *)
Definition kf_own (r : KeyframeRef) (b : TimelineBuilder) : StyleData :=
  match r with
  | Detached => []
  | AtTime t =>
      match kf_get t (_keyframes b) with
      | Some kf => kf
      | None => []
      end
  end.

(** [ref[prop] = v].  A write to a detached object is never observed. *)
Definition kf_write (r : KeyframeRef) (prop : string) (v : value)
    (b : TimelineBuilder) : TimelineBuilder :=
  match r with
  | Detached => b
  | AtTime t => with_keyframes (kf_update t (set prop v) (_keyframes b)) b
  end.

(** Identity of keyframe objects ([===]). *)
Definition ref_eqb (a b : KeyframeRef) : bool :=
  match a, b with
  | Detached, Detached => true
  | AtTime x, AtTime y => sameValueZero x y
  | _, _ => false
  end.

(** ** Methods that touch only the builder itself *)

(** [get currentTime()] *)
Definition currentTime (b : TimelineBuilder) : number :=
  (startTime b + tl_duration b)%num.

(** [containsAnimation()] of [TimelineBuilder], overridden by
    [SubTimelineBuilder]. *)
Definition containsAnimation (b : TimelineBuilder) : bool :=
  match tl_sub b with
  | None => (1 <? length (_keyframes b))%nat
  | Some sb => (1 <? length (sub_keyframes sb))%nat
  end.

(** [getCurrentStyleProperties()] *)
Definition getCurrentStyleProperties (b : TimelineBuilder) : list string :=
  keys (kf_own (_currentKeyframe b) b).

Definition _loadKeyframe (b : TimelineBuilder) : TimelineBuilder :=
  let b1 := with_cursor (_currentKeyframe b) (AtTime (tl_duration b)) b in
  match kf_get (tl_duration b) (_keyframes b) with
  | Some _ => b1
  | None => with_keyframes (_keyframes b ++ [(tl_duration b, [])]) b1
  end.

Definition forwardFrame (b : TimelineBuilder) : TimelineBuilder :=
  _loadKeyframe (with_duration (tl_duration b + ofZ 1)%num b).

Definition forwardTime (t : number) (b : TimelineBuilder) : TimelineBuilder :=
  _loadKeyframe (with_duration t b).

Definition delayNextStep (d : number) (b : TimelineBuilder) : TimelineBuilder :=
  if eqb (tl_duration b) zero
  then with_startTime (startTime b + d)%num b
  else forwardTime (currentTime b + d)%num b.

(** [allowOnlyTimelineStyles()] *)
Definition allowOnlyTimelineStyles (b : TimelineBuilder) : bool :=
  match _currentEmptyStepKeyframe b with
  | None => true
  | Some r => negb (ref_eqb r (_currentKeyframe b))
  end.

(** [snapshotCurrentStyles()] *)
Definition snapshotCurrentStyles (b : TimelineBuilder) : TimelineBuilder :=
  match _currentKeyframe b with
  | Detached => b
  | AtTime t =>
      with_keyframes
        (kf_update t (copyStyles (_localTimelineStyles b) (_backFill b) false)
           (_keyframes b)) b
  end.

(** [getFinalKeyframe()] *)
Definition getFinalKeyframe (b : TimelineBuilder) : option StyleData :=
  kf_get (tl_duration b) (_keyframes b).

(** [Set.add] *)
Definition set_add (x : string) (l : list string) : list string :=
  if existsb (String.eqb x) l then l else l ++ [x].

(** The body of the loop of [buildKeyframes] for one keyframe. *)
Definition finalizeKeyframe (b : TimelineBuilder)
    (acc : list string * list string * list StyleData)
    (entry : number * StyleData)
  : list string * list string * list StyleData :=
  let '(pre, post, finalKeyframes) := acc in
  let '(t, keyframe) := entry in
  let finalKeyframe := copyStyles keyframe (_backFill b) true [] in
  let '(pre', post') :=
    fold_left
      (fun (pp : list string * list string) prop =>
         let '(p, q) := pp in
         match get prop finalKeyframe with
         | Some v =>
             if loose_eq v PRE_STYLE then (set_add prop p, q)
             else if loose_eq v AUTO_STYLE then (p, set_add prop q)
             else (p, q)
         | None => (p, q)
         end)
      (keys finalKeyframe) (pre, post) in
  (pre', post',
   finalKeyframes ++ [set "offset" (VNum (t / tl_duration b)%num) finalKeyframe]).

(** [TimelineBuilder.prototype.buildKeyframes] *)
Definition buildKeyframes (b : TimelineBuilder) : AnimationTimelineInstruction :=
  let '(preProps, postProps, finalKeyframes) :=
    fold_left (finalizeKeyframe b) (_keyframes b) ([], [], []) in
  createTimelineInstruction (tl_element b) finalKeyframes preProps postProps
    (tl_duration b) (startTime b) (tl_easing b) false.

(** The keyframe [buildKeyframes] emits for an entry of [_keyframes]. *)
Definition withOffset (b : TimelineBuilder) (entry : number * StyleData)
  : StyleData :=
  set "offset" (VNum (fst entry / tl_duration b)%num)
    (copyStyles (snd entry) (_backFill b) true []).

(** The builder as its constructor leaves it: the field initialisers, then
    [_loadKeyframe()]; [owner] is the builder behind
    [_globalTimelineStyles]. *)
Definition initialBuilder (el : element) (start : number) (owner : nat)
    (sub : option SubTimeline) : TimelineBuilder :=
  _loadKeyframe
    (mkBuilder el start zero None Detached Detached [] [] [] owner [] None sub).

(** [flattenStyles(input, allStyles)] *)
Definition flattenStyles (input : list StyleToken) (allStyles : StyleData)
  : StyleData :=
  fold_left
    (fun acc token =>
       match token with
       | TokAll => fold_left (fun a prop => set prop AUTO_STYLE a) (keys allStyles) acc
       | TokStyles s => copyStyles s [] false acc
       end)
    input [].

(** ** Methods that reach other objects of the store *)

Module TimelineBuilderMethods.

(** [new TimelineBuilder(element, startTime, lookup)]: [shared] tells whether
    a lookup map was passed; without one the builder gets a map of its own,
    in which it is the owner of its element's global styles.  The result is
    the index of the new builder. *)
Definition construct (el : element) (start : number) (shared : bool)
    (sub : option SubTimeline) : M nat :=
  fun s =>
    let id := length (timelines s) in
    let known :=
      if shared
      then option_map snd
             (find (fun p => Nat.eqb (fst p) el) (_elementTimelineStylesLookup s))
      else None in
    let owner := match known with Some o => o | None => id end in
    let lookup' :=
      match known with
      | Some _ => _elementTimelineStylesLookup s
      | None =>
          if shared then _elementTimelineStylesLookup s ++ [(el, id)]
          else _elementTimelineStylesLookup s
      end in
    let b := initialBuilder el start owner sub in
    Some (id, with_lookup lookup' (with_timelines (timelines s ++ [b]) s)).

(** [fork(element, currentTime = 0)] *)
Definition fork (t : nat) (el : element) (time : number) : M nat :=
  b <- getTL t ;;
  construct el (if truthy time then time else currentTime b) true None.

Definition _updateStyle (t : nat) (prop : string) (v : value) : M unit :=
  when (negb (String.eqb prop "easing"))
    (modTL t (fun b => with_localTimelineStyles (set prop v (_localTimelineStyles b)) b) ;;
     b <- getTL t ;;
     modTL (_globalTimelineStyles b)
       (fun g => with_localTimelineStyles (set prop v (_localTimelineStyles g)) g) ;;
     modTL t (fun b =>
       with_styleSummary
         (set prop (mkStyleAtTime (currentTime b) v) (_styleSummary b)) b)).

(** One turn of the loop of the empty step. *)
Definition emptyStepProp (t : nat) (prop : string) : M unit :=
  b <- getTL t ;;
  g <- getTL (_globalTimelineStyles b) ;;
  let gv := getP prop (_localTimelineStyles g) (_backFill g) in
  let fill :=
    match gv with
    | Some v => if value_truthy v then v else AUTO_STYLE
    | None => AUTO_STYLE
    end in
  modTL t (fun b => with_backFill (set prop fill (_backFill b)) b) ;;
  modTL t (fun b => kf_write (_currentKeyframe b) prop AUTO_STYLE b).

(** One turn of the loop over the flattened styles. *)
Definition setStyleProp (t : nat) (styles : StyleData) (locals : option Locals)
    (prop : string) : M unit :=
  match get prop styles with
  | None => ret tt
  | Some v0 =>
      val <- match locals with
             | Some l => withErrors (interpolateLocals v0 l)
             | None => ret v0
             end ;;
      modTL t (fun b => kf_write (_currentKeyframe b) prop val b) ;;
      b <- getTL t ;;
      g <- getTL (_globalTimelineStyles b) ;;
      when (negb (chain_truthy prop (_localTimelineStyles b) (_backFill b)))
        (let fill :=
           match get prop (_localTimelineStyles g) with
           | Some gv => gv
           | None => AUTO_STYLE
           end in
         modTL t (fun b => with_backFill (set prop fill (_backFill b)) b)) ;;
      _updateStyle t prop val
  end.

(** One turn of the closing loop over the local styles. *)
Definition fillFromLocal (t : nat) (prop : string) : M unit :=
  b <- getTL t ;;
  when (negb (has prop (kf_own (_currentKeyframe b) b)))
    (match getP prop (_localTimelineStyles b) (_backFill b) with
     | Some v => modTL t (fun b => kf_write (_currentKeyframe b) prop v b)
     | None => ret tt
     end).

Definition setStyles (t : nat) (input : list StyleToken) (easing : option string)
    (treatAsEmptyStep : bool) (locals : option Locals) : M unit :=
  when (str_truthy easing)
    (match easing with
     | Some e => modTL t (fun b => kf_write (_previousKeyframe b) "easing" (VStr e) b)
     | None => ret tt
     end) ;;
  b <- getTL t ;;
  g <- getTL (_globalTimelineStyles b) ;;
  if treatAsEmptyStep then
    forEach (emptyStepProp t) (keys (_localTimelineStyles g)) ;;
    modTL t (fun b => with_currentEmptyStepKeyframe (Some (_currentKeyframe b)) b)
  else
    let styles := flattenStyles input (_localTimelineStyles g) in
    forEach (setStyleProp t styles locals) (keys styles) ;;
    b <- getTL t ;;
    forEach (fillFromLocal t) (keys (_localTimelineStyles b)).

(** One turn of the loop of [mergeTimelineCollectedStyles].  The summary is
    created by [{}], so that [this._styleSummary[prop]] finds a member of
    [Object.prototype] when the builder has no entry of its own under such a
    name: that member is truthy and its [time] is [undefined], which no
    number is greater than. *)
Definition mergeProp (t other : nat) (prop : string) : M unit :=
  b <- getTL t ;;
  o <- getTL other ;;
  match get prop (_styleSummary o) with
  | None => throw
  | Some details1 =>
      let adopt :=
        match get prop (_styleSummary b) with
        | None => negb (inherited prop)
        | Some details0 => gt (time details1) (time details0)
        end in
      when adopt (_updateStyle t prop (sat_value details1))
  end.

Definition mergeTimelineCollectedStyles (t other : nat) : M unit :=
  o <- getTL other ;;
  forEach (mergeProp t other) (keys (_styleSummary o)).

End TimelineBuilderMethods.

(* ================================================================== *)
(** * SubTimelineBuilder *)

Module SubTimelineBuilder.

(** [roundOffset(offset, decimalPoints = 3)], in binary64 arithmetic. *)
Definition roundOffset (offset : number) (decimalPoints : Z) : number :=
  let mult := pow10 (decimalPoints - 1) in
  div64 (round (mul64 offset mult)) mult.

(** [kf['offset'] as number]: a missing offset is [undefined], which the
    arithmetic turns into [NaN]; a string is outside the type of an
    instruction's offsets. *)
Definition offsetOf (kf : StyleData) : option number :=
  match get "offset" kf with
  | None => Some NaN
  | Some (VNum n) => Some n
  | Some (VStr _) => None
  end.

(** The body of the loop over the keyframes after the first. *)
Definition warp (del dur totalTime : number) (keyframe : StyleData)
  : option StyleData :=
  let kf := copyStyles keyframe [] false [] in
  match offsetOf kf with
  | None => None
  | Some oldOffset =>
      let timeAtKeyframe := add64 del (mul64 oldOffset dur) in
      Some (set "offset" (VNum (roundOffset (div64 timeAtKeyframe totalTime) 3)) kf)
  end.

Fixpoint warpAll (del dur totalTime : number) (kfs : list StyleData)
  : option (list StyleData) :=
  match kfs with
  | [] => Some []
  | kf :: r =>
      match warp del dur totalTime kf, warpAll del dur totalTime r with
      | Some k, Some ks => Some (k :: ks)
      | _, _ => None
      end
  end.

(** [SubTimelineBuilder.prototype.buildKeyframes], the stretch in binary64
    arithmetic; reading [keyframes[0]] of an empty list is a [TypeError]. *)
Definition buildKeyframes (el : element) (sb : SubTimeline)
  : option AnimationTimelineInstruction :=
  let del := delay (sub_timings sb) in
  let dur := duration (sub_timings sb) in
  if _stretchStartingKeyframe sb && truthy del then
    let totalTime := add64 dur del in
    let startingGap := div64 del totalTime in
    match sub_keyframes sb with
    | [] => None
    | first :: rest =>
        let newFirstKeyframe :=
          set "offset" (VNum zero) (copyStyles first [] false []) in
        let oldFirstKeyframe :=
          set "offset" (VNum (roundOffset startingGap 3))
            (copyStyles first [] false []) in
        match warpAll del dur totalTime rest with
        | None => None
        | Some warped =>
            Some (createTimelineInstruction el
                    (newFirstKeyframe :: oldFirstKeyframe :: warped)
                    (sub_preStyleProps sb) (sub_postStyleProps sb)
                    totalTime zero (Some EmptyString) true)
        end
    end
  else
    Some (createTimelineInstruction el (sub_keyframes sb)
            (sub_preStyleProps sb) (sub_postStyleProps sb)
            dur del (easing (sub_timings sb)) true).

End SubTimelineBuilder.

(** [timeline.buildKeyframes()], dispatched on the class of the builder. *)
Definition buildKeyframesOf (b : TimelineBuilder)
  : option AnimationTimelineInstruction :=
  match tl_sub b with
  | None => Some (buildKeyframes b)
  | Some sb => SubTimelineBuilder.buildKeyframes (tl_element b) sb
  end.

(* ================================================================== *)
(** * AnimationTimelineContext *)

Module Context.

Import TimelineBuilderMethods.

(** [n || 0] for an optional argument. *)
Definition orZero (n : option number) : number :=
  match n with
  | Some x => if truthy x then x else zero
  | None => zero
  end.

(** [updateLocals(newLocals, skipIfExists)], on the [locals] of the context.
    [newLocals.hasOwnProperty(name)] holds for each of its keys. *)
Definition updateLocals (current : Locals) (newLocals : option Locals)
    (skipIfExists : bool) : Locals :=
  match newLocals with
  | None => current
  | Some nl =>
      let l1 :=
        fold_left
          (fun acc name =>
             match get name nl with
             | Some v =>
                 if negb skipIfExists || negb (has name nl)
                 then set name v acc else acc
             | None => acc
             end)
          (keys nl) current in
      let l2 :=
        match get "duration" nl with
        | Some v => set "duration" (VNum (resolveTimingValue v)) l1
        | None => l1
        end in
      match get "delay" nl with
      | Some v => set "delay" (VNum (resolveTimingValue v)) l2
      | None => l2
      end
  end.

(** [_copyLocals()]: the bindings whose name starts with [$]. *)
Definition _copyLocals (current : Locals) : Locals :=
  filter (fun p => match fst p with
                   | String c _ => is_char 36 c
                   | EmptyString => false
                   end) current.

(** [new AnimationTimelineContext(element, .., initialTimeline)] for a given
    initial timeline; the result is the index of the new context. *)
Definition construct (el : element) (initialTimeline : nat) : M nat :=
  fun s =>
    let id := length (contexts s) in
    let c := mkContext el None initialTimeline None None 0 [] zero zero zero in
    Some (id, with_contexts (contexts s ++ [c]) s).

Definition createSubContext (this : nat) (locals : option Locals)
    (el : option element) (newTime : option number) : M nat :=
  c <- getCtx this ;;
  let target := match el with Some e => e | None => ctx_element c end in
  t <- fork (currentTimeline c) target (orZero newTime) ;;
  context <- construct target t ;;
  modCtx context (fun x =>
    mkContext target (Some this) t (currentAnimateTimings c) (previousNode c) 0
      (updateLocals (_copyLocals (ctx_locals c)) locals false)
      (currentQueryIndex c) (currentQueryTotal c) zero) ;;
  modCtx this (fun x => with_subContextCount (S (subContextCount x)) x) ;;
  ret context.

Definition transformIntoNewTimeline (this : nat) (newTime : option number)
  : M nat :=
  modCtx this (with_previousNode None) ;;
  c <- getCtx this ;;
  t <- fork (currentTimeline c) (ctx_element c) (orZero newTime) ;;
  modCtx this (with_currentTimeline t) ;;
  ret t.

(** A field of the requested timings read as a number: a binding that is
    not a number is outside the type [AnimateTimings]. *)
Definition asNumber (v : value) : M number :=
  match v with
  | VNum n => ret n
  | VStr _ => throw
  end.

Definition asString (v : value) : M string :=
  match v with
  | VStr s => ret s
  | VNum _ => throw
  end.

(** [appendInstructionToTimeline(instruction, timings)], where the fields of
    [timings] may be [undefined]. *)
Definition appendInstructionToTimeline (this : nat)
    (instruction : AnimationTimelineInstruction)
    (t_duration t_delay t_easing : option value) : M AnimateTimings :=
  c <- getCtx this ;;
  b <- getTL (currentTimeline c) ;;
  dur <- match t_duration with
         | Some v => asNumber v
         | None => ret (i_duration instruction)
         end ;;
  del0 <- match t_delay with
          | Some v => asNumber v
          | None => ret zero
          end ;;
  eas <- match t_easing with
         | Some v => (s <- asString v ;; ret (Some s))
         | None => ret (i_easing instruction)
         end ;;
  let updatedTimings :=
    mkTimings dur (currentTime b + del0 + i_delay instruction)%num eas in
  TimelineBuilderMethods.construct (i_element instruction)
    (delay updatedTimings) false
    (Some (mkSub (keyframes instruction) (preStyleProps instruction)
             (postStyleProps instruction) updatedTimings
             (stretchStartingKeyframe instruction))) ;;
  ret updatedTimings.

Definition incrementTime (this : nat) (t : number) : M unit :=
  c <- getCtx this ;;
  modTL (currentTimeline c) (fun b => forwardTime (tl_duration b + t)%num b).

Definition delayNextStep (this : nat) (d : number) : M unit :=
  (* negative delays are not yet supported *)
  if gt d zero then
    c <- getCtx this ;;
    modTL (currentTimeline c) (delayNextStep d)
  else ret tt.

End Context.

(* ================================================================== *)
(** * AnimationTimelineBuilderVisitor *)

Module Visitor.

Import TimelineBuilderMethods.

(** [l.forEach(..)] around local variables of the enclosing function. *)
Definition foldM {A St : Type} (f : St -> A -> M St) : list A -> St -> M St :=
  fix go (l : list A) (acc : St) : M St :=
    match l with
    | [] => ret acc
    | x :: r => acc' <- f acc x ;; go r acc'
    end.

Definition foldIndexedM {A St : Type} (f : St -> A -> nat -> M St)
  : list A -> nat -> St -> M St :=
  fix go (l : list A) (i : nat) (acc : St) : M St :=
    match l with
    | [] => ret acc
    | x :: r => acc' <- f acc x i ;; go r (S i) acc'
    end.

(** The time of the current timeline of a context. *)
Definition timelineTime (context : nat) : M number :=
  c <- getCtx context ;;
  b <- getTL (currentTimeline c) ;;
  ret (currentTime b).

Definition has_delay (locals : option Locals) : bool :=
  match locals with Some l => has "delay" l | None => false end.

(** [context.delayNextStep(context.locals['delay'] as number)] *)
Definition delayByLocals (context : nat) : M unit :=
  c <- getCtx context ;;
  match get "delay" (ctx_locals c) with
  | Some (VNum d) => Context.delayNextStep context d
  | _ => ret tt
  end.

Definition zero_elements_message (fn originalSelector : string) : string :=
  (backtick ++ fn ++ "(" ++ dquote ++ originalSelector ++ dquote ++ ")" ++ backtick
     ++ " returned zero elements. (Use " ++ backtick ++ fn ++ "(" ++ dquote
     ++ originalSelector ++ dquote ++ ", { optional: true })" ++ backtick
     ++ " if you wish to allow this.)")%string.

Definition _applyStyles (styles : list StyleToken) (easing : option string)
    (treatAsEmptyStep : bool) (context : nat) : M unit :=
  c <- getCtx context ;;
  setStyles (currentTimeline c) styles easing treatAsEmptyStep
    (Some (ctx_locals c)).

Definition visitTiming (ast : TimingAst) (context : nat) : M AnimateTimings :=
  match ast with
  | DynamicTimingAst v =>
      c <- getCtx context ;;
      strValue <- withErrors (interpolateLocals (VStr v) (ctx_locals c)) ;;
      withErrors (fun e => resolveTiming (TimingExp strValue) e false)
  | StaticTiming t => ret (mkTimings (duration t) (delay t) (easing t))
  end.

Definition visitStyle (ast : Ast) (s : StyleStep) (context : nat) : M unit :=
  c <- getCtx context ;;
  when (match currentAnimateTimings c with None => true | Some _ => false end
        && is_AnimateAst (previousNode c))
    (modTL (currentTimeline c) forwardFrame) ;;
  let easing :=
    str_or (match currentAnimateTimings c with
            | Some t => easing t
            | None => None
            end) (st_easing s) in
  _applyStyles (styles s) easing (isEmptyStep s) context ;;
  modCtx context (with_previousNode (Some ast)).

Definition visitKeyframes (ast : Ast) (steps : list StyleStep) (context : nat)
  : M unit :=
  c <- getCtx context ;;
  match currentAnimateTimings c with
  | None => throw
  | Some currentAnimateTimings =>
      b <- getTL (currentTimeline c) ;;
      let startTime := tl_duration b in
      let duration := duration currentAnimateTimings in
      innerContext <- Context.createSubContext context None None None ;;
      ic <- getCtx innerContext ;;
      let innerTimeline := currentTimeline ic in
      modTL innerTimeline (with_easing (easing currentAnimateTimings)) ;;
      forEach (fun step =>
                 let off := match offset step with Some o => o | None => zero end in
                 modTL innerTimeline (forwardTime (off * duration)%num) ;;
                 _applyStyles (styles step) (st_easing step) false innerContext)
        steps ;;
      c <- getCtx context ;;
      mergeTimelineCollectedStyles (currentTimeline c) innerTimeline ;;
      Context.transformIntoNewTimeline context (Some (startTime + duration)%num) ;;
      modCtx context (with_previousNode (Some ast))
  end.

Definition visitAnimate (ast : Ast) (timingAst : TimingAst) (style : Ast)
    (context : nat) : M unit :=
  timings <- visitTiming timingAst context ;;
  modCtx context (with_currentAnimateTimings (Some timings)) ;;
  when (truthy (delay timings))
    (Context.incrementTime context (delay timings) ;;
     c <- getCtx context ;;
     modTL (currentTimeline c) snapshotCurrentStyles) ;;
  match style with
  | KeyframesAst steps => visitKeyframes style steps context
  | StyleAst s =>
      Context.incrementTime context (duration timings) ;;
      visitStyle style s context
  | _ => throw
  end ;;
  modCtx context (with_currentAnimateTimings None) ;;
  modCtx context (with_previousNode (Some ast)).

Definition _visitSubInstructions
    (instructions : list AnimationTimelineInstruction) (context : nat)
  : M number :=
  c <- getCtx context ;;
  let locals := ctx_locals c in
  startTime <- timelineTime context ;;
  let requested := get "duration" locals in
  let skip :=
    match requested with Some (VNum d) => eqb d zero | _ => false end in
  if negb skip then
    foldM (fun furthestTime instruction =>
             t <- Context.appendInstructionToTimeline context instruction
                    requested (get "delay" locals) (get "easing" locals) ;;
             ret (max furthestTime (duration t + delay t)%num))
      instructions startTime
  else ret startTime.

(** The delay a [stagger] gives to the branch of the match with the given
    index: the computation at the head of [visitStagger]. *)
Definition staggerDelay (timings : AnimateTimings)
    (queryIndex queryTotal parentStaggerTime : number) : number :=
  let dur := abs (duration timings) in
  let maxTime := (dur * (queryTotal - ofZ 1))%num in
  let del := (dur * queryIndex)%num in
  let staggerTransformer :=
    if lt (duration timings) zero then Some "reverse" else easing timings in
  match staggerTransformer with
  | Some tr =>
      if String.eqb tr "reverse" then (maxTime - del)%num
      else if String.eqb tr "full" then parentStaggerTime
      else del
  | None => del
  end.

(** [visitStagger] up to the visit of the staggered animation: the delay is
    computed and applied to the current timeline. *)
Definition beginStagger (timings : AnimateTimings) (context : nat) : M unit :=
  c <- getCtx context ;;
  match parentContext c with
  | None => throw
  | Some parent =>
      pc <- getCtx parent ;;
      let delay :=
        staggerDelay timings (currentQueryIndex c) (currentQueryTotal c)
          (currentStaggerTime pc) in
      when (truthy delay) (modTL (currentTimeline c) (delayNextStep delay))
  end.

(** [visitStagger] after the visit: the stagger time reported to the parent;
    [tl] is the timeline that was current on entry. *)
Definition endStagger (ast : Ast) (tl : nat) (startingTime : number)
    (context : nat) : M unit :=
  modCtx context (with_previousNode (Some ast)) ;;
  c <- getCtx context ;;
  match parentContext c with
  | None => throw
  | Some parent =>
      pc <- getCtx parent ;;
      b <- getTL tl ;;
      pb <- getTL (currentTimeline pc) ;;
      modCtx parent
        (with_currentStaggerTime
           ((currentTime b - startingTime) + (startTime b - startTime pb))%num)
  end.

Section Visit.

(** The Element Query Service: [el.querySelectorAll(selector)], in document
    order; [querySelector] returns its first element. *)
Variable querySelectorAll : element -> string -> list element.

Definition invokeQuery (rootElement : element)
    (selector originalSelector : string) (multi includeSelf optional : bool)
  : M (list element) :=
  let results0 := if includeSelf then [rootElement] else [] in
  let results :=
    if multi then results0 ++ querySelectorAll rootElement selector
    else if (length results0 =? 0)%nat then
      match querySelectorAll rootElement selector with
      | elm :: _ => results0 ++ [elm]
      | [] => results0
      end
    else results0 in
  when (negb optional && (length results =? 0)%nat)
    (pushError
       (zero_elements_message (if multi then "queryAll" else "query")
          originalSelector)) ;;
  ret results.

Fixpoint visit (ast : Ast) (context : nat) {struct ast} : M unit :=
  match ast with
  | TriggerAst | StateAst | TransitionAst =>
      (* these values are not visited in this AST *)
      ret tt

  | AnimateChildAst locals =>
      c <- getCtx context ;;
      found <- (fun s =>
                  let '(ins, m) := consume (ctx_element c) (subInstructions s) in
                  Some (ins, with_subInstructions m s)) ;;
      innerContext <- Context.createSubContext context locals None None ;;
      startTime <- timelineTime context ;;
      endTime <- _visitSubInstructions found innerContext ;;
      when (negb (eqb startTime endTime))
        (Context.transformIntoNewTimeline context (Some endTime) ;; ret tt) ;;
      modCtx context (with_previousNode (Some ast))

  | AnimateRefAst animation locals =>
      innerContext <- Context.createSubContext context locals None None ;;
      Context.transformIntoNewTimeline innerContext None ;;
      match animation with
      | ReferenceAst a rlocals =>
          modCtx innerContext
            (fun x => with_locals (Context.updateLocals (ctx_locals x) rlocals true) x) ;;
          visit a innerContext ;;
          modCtx innerContext (with_previousNode (Some animation))
      | _ => throw
      end ;;
      t <- timelineTime innerContext ;;
      Context.transformIntoNewTimeline context (Some t) ;;
      modCtx context (with_previousNode (Some ast))

  | ReferenceAst animation locals =>
      modCtx context
        (fun x => with_locals (Context.updateLocals (ctx_locals x) locals true) x) ;;
      visit animation context ;;
      modCtx context (with_previousNode (Some ast))

  | SequenceAst steps locals =>
      c <- getCtx context ;;
      let subContextCount0 := subContextCount c in
      when (is_StyleAst (previousNode c))
        (modTL (currentTimeline c) forwardFrame ;;
         modTL (currentTimeline c) snapshotCurrentStyles ;;
         modCtx context (with_previousNode None)) ;;
      match locals with
      | Some l =>
          Context.createSubContext context locals None None ;;
          Context.transformIntoNewTimeline context None ;;
          when (has "delay" l)
            (* ast.locals['delay'] as number *)
            (match get "delay" l with
             | Some (VNum d) => Context.delayNextStep context d
             | _ => ret tt
             end)
      | None => ret tt
      end ;;
      forEach (fun s => visit s context) steps ;;
      (* some animation function within the sequence created a sub timeline *)
      c <- getCtx context ;;
      when (subContextCount0 <? subContextCount c)%nat
        (Context.transformIntoNewTimeline context None ;; ret tt) ;;
      modCtx context (with_previousNode (Some ast))

  | GroupAst steps locals =>
      start <- timelineTime context ;;
      let hasDelay := has_delay locals in
      r <- foldM
             (fun (acc : number * list nat) s =>
                let '(furthestTime, innerTimelines) := acc in
                innerContext <- Context.createSubContext context locals None None ;;
                when hasDelay (delayByLocals innerContext) ;;
                visit s innerContext ;;
                t <- timelineTime innerContext ;;
                ic <- getCtx innerContext ;;
                ret (max furthestTime t, innerTimelines ++ [currentTimeline ic]))
             steps (start, []) ;;
      let '(furthestTime, innerTimelines) := r in
      (* run after the loop, so that the forks do not see the merged styles *)
      forEach (fun timeline =>
                 c <- getCtx context ;;
                 mergeTimelineCollectedStyles (currentTimeline c) timeline)
        innerTimelines ;;
      Context.transformIntoNewTimeline context (Some furthestTime) ;;
      modCtx context (with_previousNode (Some ast))

  | AnimateAst timings style => visitAnimate ast timings style context

  | StyleAst s => visitStyle ast s context

  | KeyframesAst steps => visitKeyframes ast steps context

  | QueryAst selector originalSelector multi includeSelf animation astLocals =>
      startTime <- timelineTime context ;;
      let locals := match astLocals with Some l => l | None => [] end in
      let hasDelay := has "delay" locals in
      c <- getCtx context ;;
      b <- getTL (currentTimeline c) ;;
      when (is_StyleAst (previousNode c)
            || (eqb startTime zero
                && negb (length (getCurrentStyleProperties b) =? 0)%nat))
        (modTL (currentTimeline c) forwardFrame ;;
         modTL (currentTimeline c) snapshotCurrentStyles ;;
         modCtx context (with_previousNode None)) ;;
      elms <- invokeQuery (ctx_element c) selector originalSelector multi
                includeSelf (opt_truthy (get "optional" locals)) ;;
      modCtx context
        (fun x => with_query (currentQueryIndex x) (ofZ (Z.of_nat (length elms))) x) ;;
      r <- foldIndexedM
             (fun (acc : number * option nat) el i =>
                let '(furthestTime, sameElementTimeline) := acc in
                modCtx context
                  (fun x => with_query (ofZ (Z.of_nat i)) (currentQueryTotal x) x) ;;
                innerContext <-
                  Context.createSubContext context astLocals (Some el) None ;;
                when hasDelay (delayByLocals innerContext) ;;
                ic <- getCtx innerContext ;;
                let sameElementTimeline' :=
                  if Nat.eqb el (ctx_element c) then Some (currentTimeline ic)
                  else sameElementTimeline in
                startTime' <- timelineTime innerContext ;;
                visit animation innerContext ;;
                ic <- getCtx innerContext ;;
                let tl := currentTimeline ic in
                endTime <- timelineTime innerContext ;;
                (* the query only took on styling calls *)
                endTime' <-
                  (if is_StyleAst (previousNode ic) && eqb startTime' endTime then
                     modTL tl forwardFrame ;;
                     modTL tl snapshotCurrentStyles ;;
                     modCtx innerContext (with_previousNode None) ;;
                     timelineTime innerContext
                   else ret endTime) ;;
                ret (max furthestTime endTime', sameElementTimeline'))
             elms 0%nat (startTime, None) ;;
      let '(furthestTime, sameElementTimeline) := r in
      modCtx context (with_query zero zero) ;;
      Context.transformIntoNewTimeline context (Some furthestTime) ;;
      match sameElementTimeline with
      | Some tl =>
          c <- getCtx context ;;
          mergeTimelineCollectedStyles (currentTimeline c) tl ;;
          modTL (currentTimeline c) snapshotCurrentStyles
      | None => ret tt
      end ;;
      modCtx context (with_previousNode (Some ast))

  | StaggerAst timings animation =>
      c <- getCtx context ;;
      let tl := currentTimeline c in
      beginStagger timings context ;;
      startingTime <- timelineTime context ;;
      visit animation context ;;
      endStagger ast tl startingTime context
  end.

(** [AnimationTimelineBuilderVisitor.prototype.buildKeyframes]; [locals] may
    be [undefined]. *)
Definition visitorBuildKeyframes (rootElement : element) (ast : Ast)
    (startingStyles finalStyles : StyleData) (locals : option Locals)
  : M (list AnimationTimelineInstruction) :=
  t0 <- TimelineBuilderMethods.construct rootElement zero true None ;;
  context <- Context.construct rootElement t0 ;;
  modCtx context
    (with_locals (match locals with Some l => l | None => [] end)) ;;
  setStyles t0 [TokStyles startingStyles] None false locals ;;
  visit ast context ;;
  (* this checks to see if an actual animation happened *)
  all <- gets timelines ;;
  let animated :=
    map fst (filter (fun p => containsAnimation (snd p))
               (combine (seq 0 (length all)) all)) in
  when (negb (length animated =? 0)%nat
        && negb (length (keys finalStyles) =? 0)%nat)
    (match last (map Some animated) None with
     | Some tl =>
         b <- getTL tl ;;
         when (negb (allowOnlyTimelineStyles b))
           (setStyles tl [TokStyles finalStyles] None false locals)
     | None => ret tt
     end) ;;
  if negb (length animated =? 0)%nat then
    foldM (fun acc tl =>
             b <- getTL tl ;;
             match buildKeyframesOf b with
             | Some i => ret (acc ++ [i])
             | None => throw
             end) animated []
  else
    ret [createTimelineInstruction rootElement [] [] [] zero zero
           (Some EmptyString) false].

(** The store of a compilation that has not started: the root builder
    creates the lookup map, which all its forks share. *)
Definition emptyStore (subInstructions : ElementInstructionMap) : Store :=
  mkStore [] [] [] [] subInstructions.

(** [buildAnimationTimelines]: the instructions and the errors collected, or
    [None] when the compilation throws. *)
Definition buildAnimationTimelines (rootElement : element) (ast : Ast)
    (startingStyles finalStyles : StyleData) (locals : option Locals)
    (subInstructions : ElementInstructionMap)
  : option (list AnimationTimelineInstruction * list string) :=
  match visitorBuildKeyframes rootElement ast startingStyles finalStyles locals
          (emptyStore subInstructions) with
  | Some (instructions, s) => Some (instructions, errors s)
  | None => None
  end.

End Visit.

End Visitor.

Import Visitor.

(* ================================================================== *)
(** * Scenarios *)

Module Scenario.

Import TimelineBuilderMethods.

(** A document in which no selector matches. *)
Definition noDom : element -> string -> list element := fun _ _ => [].


Definition root : element := 0%nat.

Definition num (z : Z) : value := VNum (ofZ z).

(** [style({prop: v})] *)
Definition style (prop : string) (v : value) : Ast :=
  StyleAst (mkStyleStep [TokStyles [(prop, v)]] None None false).

(** The static timing of [animate(ms)]. *)
Definition ms (d : Z) : TimingAst :=
  StaticTiming (mkTimings (ofZ d) zero (Some EmptyString)).

(** [animate(ms, style)] *)
Definition animate (d : Z) (a : Ast) : Ast := AnimateAst (ms d) a.

(** [animate(ms)]: the style is an empty step. *)
Definition animateOnly (d : Z) : Ast :=
  AnimateAst (ms d) (StyleAst (mkStyleStep [TokStyles []] None None true)).

(** [sequence([style({opacity: 0}), animate(1000, style({opacity: 1}))])] *)
Definition fadeIn : Ast :=
  SequenceAst [style "opacity" (num 0); animate 1000 (style "opacity" (num 1))] None.

(** Child A writes [opacity = 0] at time 5, child B [opacity = 1] at time 10. *)
Definition childA : Ast := animate 5 (style "opacity" (num 0)).
Definition childB : Ast := animate 10 (style "opacity" (num 1)).

(** The store after the root context has visited [ast]; the root timeline is
    builder [0] and the root context is context [0]. *)
Definition afterVisit (dom : element -> string -> list element) (ast : Ast)
  : option Store :=
  match (t0 <- construct root zero true None ;;
         context <- Context.construct root t0 ;;
         visit dom ast context) (emptyStore []) with
  | Some (_, s) => Some s
  | None => None
  end.

(** The entry of the style summary of builder [t] for [prop]. *)
Definition collected (s : option Store) (t : nat) (prop : string)
  : option StyleAtTime :=
  match s with
  | Some st =>
      match nth_error (timelines st) t with
      | Some b => get prop (_styleSummary b)
      | None => None
      end
  | None => None
  end.

(** The value of [prop] in the local styles of builder [t]. *)
Definition localStyle (s : option Store) (t : nat) (prop : string)
  : option value :=
  match s with
  | Some st =>
      match nth_error (timelines st) t with
      | Some b => get prop (_localTimelineStyles b)
      | None => None
      end
  | None => None
  end.

(** [sequence([animate(1000), group([animate(0, style({b: 5}))])])] *)
Definition holdThenGroup : Ast :=
  SequenceAst [animateOnly 1000; GroupAst [animate 0 (style "b" (num 5))] None] None.



(** A compiled two-keyframe instruction. *)
Definition twoKeyframes : list StyleData :=
  [[("opacity", num 0); ("offset", num 0)];
   [("opacity", num 1); ("offset", num 1)]].

(** The sub-timeline that wraps it with [duration = 1000], [delay = 1000]
    and the stretch flag. *)
Definition stretched : SubTimeline :=
  mkSub twoKeyframes [] [] (mkTimings (ofZ 1000) (ofZ 1000) None) true.

(** The same instruction with [duration = 143] and [delay = 57]: the delay
    ends at 57 / 200 of the total time. *)
Definition stretchedTie : SubTimeline :=
  mkSub twoKeyframes [] [] (mkTimings (ofZ 143) (ofZ 57) None) true.

(** A compiled three-keyframe instruction. *)
Definition threeKeyframes : list StyleData :=
  [[("opacity", num 0); ("offset", num 0)];
   [("opacity", VNum (fin (1 # 2))); ("offset", VNum (fin (1 # 2)))];
   [("opacity", num 1); ("offset", num 1)]].

(** The sub-timeline that wraps it with [duration = 2000], [delay = 1000]
    and the stretch flag: the delay ends at a third of the total time. *)
Definition stretchedThird : SubTimeline :=
  mkSub threeKeyframes [] [] (mkTimings (ofZ 2000) (ofZ 1000) None) true.


End Scenario.

Import Scenario.

(* ================================================================== *)
(** * Specifications of computations on the store *)



(** The cursor of the builder is on the keyframe held under [k], and its
    global styles are the local styles of builder [g]. *)
Definition cursorAt (k : number) (g : nat) (b : TimelineBuilder) : Prop :=
  _currentKeyframe b = AtTime k
  /\ kf_get k (_keyframes b) <> None
  /\ _globalTimelineStyles b = g.




(** The value [setStyles] writes for a style value [v]. *)
Definition interpolated (v : value) (locals : option Locals)
    (errs : list string) : value * list string :=
  match locals with
  | Some l => interpolateLocals v l errs
  | None => (v, errs)
  end.

(* ================================================================== *)
(** * Further operations of util.ts, and predicates used below *)




(** The name starts with the sigil [$]. *)
Definition is_scoped (name : string) : bool :=
  match name with
  | String c _ => is_char 36 c
  | EmptyString => false
  end.

(** No character of the string is [$]. *)
Definition no_dollar (s : string) : bool :=
  forallb_str (fun c => negb (is_char 36 c)) s.

(** The test of the loop of [buildKeyframes] for a property of a finished
    keyframe: its value is the sentinel [PRE], or else the sentinel
    [AUTO]. *)
Definition isPreStyle (finalKeyframe : StyleData) (prop : string) : bool :=
  match get prop finalKeyframe with
  | Some v => loose_eq v PRE_STYLE
  | None => false
  end.

Definition isPostStyle (finalKeyframe : StyleData) (prop : string) : bool :=
  match get prop finalKeyframe with
  | Some v => negb (loose_eq v PRE_STYLE) && loose_eq v AUTO_STYLE
  | None => false
  end.


(** The builder [b] is [b0] up to the styles it holds: same element, times,
    cursor, relative times of the keyframes, easing and class. *)
Definition sameFrame (b0 b : TimelineBuilder) : Prop :=
  tl_element b = tl_element b0
  /\ startTime b = startTime b0
  /\ tl_duration b = tl_duration b0
  /\ tl_easing b = tl_easing b0
  /\ _previousKeyframe b = _previousKeyframe b0
  /\ _currentKeyframe b = _currentKeyframe b0
  /\ map fst (_keyframes b) = map fst (_keyframes b0)
  /\ _globalTimelineStyles b = _globalTimelineStyles b0
  /\ tl_sub b = tl_sub b0.

(** What [setStyles] on builder [t] may do to the builder at index [u] of
    the store [s0]: change the styles of builder [t] itself, and the local
    styles of any other. *)
Definition frameOf (s0 : Store) (t u : nat) (b : TimelineBuilder) : Prop :=
  exists b0,
    nth_error (timelines s0) u = Some b0
    /\ if Nat.eqb u t then sameFrame b0 b
       else exists x, b = with_localTimelineStyles x b0.


(** The value [mergeTimelineCollectedStyles] adopts for [prop] from the
    summary of [other] into that of [b], if any. *)
Definition adopts (b other : TimelineBuilder) (prop : string) : option value :=
  if String.eqb prop "easing" then None
  else
    match get prop (_styleSummary other) with
    | None => None
    | Some details1 =>
        match get prop (_styleSummary b) with
        | None => if inherited prop then None else Some (sat_value details1)
        | Some details0 =>
            if gt (time details1) (time details0)
            then Some (sat_value details1) else None
        end
    end.

(** A parent builder that collected [opacity] at time 0 and a child that
    collected [opacity] and [width] at time 10. *)
Definition parentBuilder : TimelineBuilder :=
  with_styleSummary [("opacity", mkStyleAtTime zero (num 0))]
    (initialBuilder root zero 0 None).

Definition childBuilder : TimelineBuilder :=
  with_styleSummary
    [("opacity", mkStyleAtTime (ofZ 10) (num 1));
     ("width", mkStyleAtTime (ofZ 10) (VStr "5px"))]
    (initialBuilder root zero 0 None).

Definition parentAndChild : Store :=
  mkStore [parentBuilder; childBuilder] [] [(root, 0%nat)] [] [].

(** A child that collected [opacity] and a style named [constructor] at
    time 10; the summary of the parent has no entry of its own under
    [constructor]. *)
Definition namedChildBuilder : TimelineBuilder :=
  with_styleSummary
    [("opacity", mkStyleAtTime (ofZ 10) (num 1));
     ("constructor", mkStyleAtTime (ofZ 10) (VStr "5px"))]
    (initialBuilder root zero 0 None).

Definition parentAndNamedChild : Store :=
  mkStore [parentBuilder; namedChildBuilder] [] [(root, 0%nat)] [] [].

(** The store of a compilation whose root context has just been created. *)
Definition rootContextStore : Store :=
  mkStore [initialBuilder root zero 0 None]
    [mkContext root None 0 None None 0 [] zero zero zero] [(root, 0%nat)] [] [].

(** ** Well-formed stores *)

(** Every reference of the store points into it: the global styles of a
    builder belong to a builder on the same element, the lookup map sends
    an element to a builder on it, and the current timeline of a context is
    a builder of the store. *)
Definition wellFormed (s : Store) : Prop :=
  (forall i b, nth_error (timelines s) i = Some b ->
     exists o, nth_error (timelines s) (_globalTimelineStyles b) = Some o
               /\ tl_element o = tl_element b)
  /\ (forall el o, In (el, o) (_elementTimelineStylesLookup s) ->
        exists ob, nth_error (timelines s) o = Some ob /\ tl_element ob = el)
  /\ (forall j c, nth_error (contexts s) j = Some c ->
        (currentTimeline c < length (timelines s))%nat).

(** The builder [b'] is the builder [b] at a later time: same element, same
    global styles, same class. *)
Definition sameBuilder (b b' : TimelineBuilder) : Prop :=
  tl_element b' = tl_element b
  /\ _globalTimelineStyles b' = _globalTimelineStyles b
  /\ tl_sub b' = tl_sub b.

(** The store [s'] is a later state of [s]: builders, contexts and errors
    were at most added, and each builder and context is still the one it
    was. *)
Definition extends (s s' : Store) : Prop :=
  (length (timelines s) <= length (timelines s'))%nat
  /\ (length (contexts s) <= length (contexts s'))%nat
  /\ (exists extra, errors s' = errors s ++ extra)
  /\ (forall i b, nth_error (timelines s) i = Some b ->
        exists b', nth_error (timelines s') i = Some b' /\ sameBuilder b b')
  /\ (forall j c, nth_error (contexts s) j = Some c ->
        exists c', nth_error (contexts s') j = Some c'
                   /\ ctx_element c' = ctx_element c
                   /\ parentContext c' = parentContext c).

(** A computation that, when it returns, leaves a well-formed store
    well-formed and only extends it. *)
Definition sound {A : Type} (m : M A) : Prop :=
  forall s a s', wellFormed s -> m s = Some (a, s') ->
                 wellFormed s' /\ extends s s'.

Definition keepsId (f : TimelineBuilder -> TimelineBuilder) : Prop :=
  forall b, sameBuilder b (f b).

Definition keepsCtx (f : AnimationTimelineContext -> AnimationTimelineContext)
  : Prop :=
  forall c, ctx_element (f c) = ctx_element c
            /\ parentContext (f c) = parentContext c
            /\ currentTimeline (f c) = currentTimeline c.

(* ================================================================== *)
(** * AnimationTransitionFactory *)

Module TransitionFactory.

(** [iteratorToArray(iterator)] of [util.ts], for the iterator over the
    items [l]: every item is pushed in turn. *)
Definition iteratorToArray {A : Type} (l : list A) : list A :=
  fold_left (fun arr item => arr ++ [item]) l [].

(** The fields of a [TransitionAst] the factory reads, and the fields of the
    factory; states are used as property names. *)
Record AnimationTransitionFactory : Type := mkFactory {
  _triggerName : string;
  ast_matchers : list (string -> string -> bool);
  ast_locals : option Locals;
  ast_animation : Ast;
  _stateStyles : obj StyleData
}.

(** [oneOrMoreTransitionsMatch(matchFns, currentState, nextState)] *)
Definition oneOrMoreTransitionsMatch (matchFns : list (string -> string -> bool))
    (currentState nextState : string) : bool :=
  existsb (fun fn => fn currentState nextState) matchFns.

(** [match(currentState, nextState)] *)
Definition matches (f : AnimationTransitionFactory)
    (currentState nextState : string) : bool :=
  oneOrMoreTransitionsMatch (ast_matchers f) currentState nextState.

(** The bindings [build] compiles with: the head of [build].  The object
    passed by the caller is the one that is filled in. *)
Definition animationLocals (transitionLocals locals : option Locals) : Locals :=
  match transitionLocals with
  | Some tl =>
      fold_left
        (fun animationLocals prop =>
           if has prop animationLocals then animationLocals
           else
             match get prop tl with
             | Some v => set prop v animationLocals
             | None => animationLocals
             end)
        (keys tl) (match locals with Some l => l | None => [] end)
  | None => []
  end.

(** What [this._stateStyles[state]] evaluates to: the styles registered for
    a state, or the member that [_stateStyles], created by [{}], inherits
    from [Object.prototype] under the name of the state. *)
Inductive StateStyles : Type :=
| Styles (s : StyleData)
| Inherited (name : string).

(** [this._stateStyles[state] || backupStateStyles]: an inherited member is
    truthy, so that the styles of [*] do not replace it. *)
Definition stylesOfState (stateStyles : obj StyleData) (state : string)
  : StateStyles :=
  let backupStateStyles :=
    match get "*" stateStyles with Some s => s | None => [] end in
  match get state stateStyles with
  | Some s => Styles s
  | None =>
      if inherited state then Inherited state else Styles backupStateStyles
  end.

(** The styles the compiler copies from it with [Object.keys]: an inherited
    member has no enumerable property. *)
Definition ownStyles (s : StateStyles) : StyleData :=
  match s with
  | Styles st => st
  | Inherited _ => []
  end.

(** [errors.join("\n")] *)
Fixpoint join_lines (errors : list string) : string :=
  match errors with
  | [] => EmptyString
  | [e] => e
  | e :: r => (e ++ String (ascii_of_nat 10) (join_lines r))%string
  end.

(** [Set.prototype.add] *)
Definition elements_add (x : element) (l : list element) : list element :=
  if existsb (Nat.eqb x) l then l else l ++ [x].

(** What [build] hands to [createTransitionInstruction], whose module is not
    among the sources, apart from the two style maps per element. *)
Record Built : Type := mkBuilt {
  b_element : element;
  b_triggerName : string;
  fromState : string;
  toState : string;
  isRemovalTransition : bool;
  fromStyles : StateStyles;
  toStyles : StateStyles;
  b_timelines : list AnimationTimelineInstruction;
  queriedElements : list element
}.

Inductive BuildResult : Type :=
| Instruction (i : Built)
| BuildError (message : string)
| TypeError.

Section Build.
Variable querySelectorAll : element -> string -> list element.

(** [build(element, currentState, nextState, locals, subInstructions)] *)
Definition build (f : AnimationTransitionFactory) (el : element)
    (currentState nextState : string) (locals : option Locals)
    (subInstructions : ElementInstructionMap) : BuildResult :=
  let animationLocals := animationLocals (ast_locals f) locals in
  let currentStateStyles := stylesOfState (_stateStyles f) currentState in
  let nextStateStyles := stylesOfState (_stateStyles f) nextState in
  match buildAnimationTimelines querySelectorAll el (ast_animation f)
          (ownStyles currentStateStyles) (ownStyles nextStateStyles)
          (Some animationLocals) subInstructions with
  | None => TypeError
  | Some (timelines, errors) =>
      if negb (length errors =? 0)%nat then
        BuildError
          ("animation building failed:" ++ String (ascii_of_nat 10)
             (join_lines errors))%string
      else
        let queried :=
          fold_left
            (fun queriedElements tl =>
               if negb (Nat.eqb (i_element tl) el)
               then elements_add (i_element tl) queriedElements
               else queriedElements)
            timelines [] in
        Instruction
          (mkBuilt el (_triggerName f) currentState nextState
             (String.eqb nextState "void") currentStateStyles nextStateStyles
             timelines (iteratorToArray queried))
  end.

End Build.

End TransitionFactory.

(** ** Programs that compile *)


(** No builder of the store wraps a compiled instruction, and the parent of
    every context is a context of the store. *)
Definition ready (s : Store) : Prop :=
  wellFormed s
  /\ (forall i b, nth_error (timelines s) i = Some b -> tl_sub b = None)
  /\ (forall j c p, nth_error (contexts s) j = Some c ->
                    parentContext c = Some p ->
                    (p < length (contexts s))%nat).






(** Total correctness over ready stores: from a ready store that satisfies
    [F] the computation returns, the store is ready again and extends the
    first, and the result satisfies [Q]. *)
Definition total {A : Type} (F : Store -> Prop) (m : M A)
    (Q : A -> Store -> Prop) : Prop :=
  forall s, ready s -> F s ->
    exists a s', m s = Some (a, s') /\ ready s' /\ extends s s' /\ Q a s'.




(** [value || AUTO_STYLE] *)
Definition orAuto (v : value) : value :=
  if value_truthy v then v else AUTO_STYLE.



(** The store [s'] has the contexts, the lookup map and the builders of [s],
    and every builder has kept its frame. *)
Definition sameFrames (s s' : Store) : Prop :=
  contexts s' = contexts s
  /\ _elementTimelineStylesLookup s' = _elementTimelineStylesLookup s
  /\ length (timelines s') = length (timelines s)
  /\ forall u x, nth_error (timelines s) u = Some x ->
       exists x', nth_error (timelines s') u = Some x' /\ sameFrame x x'.

Definition keepsFrames {A : Type} (m : M A) : Prop :=
  forall s a s', m s = Some (a, s') -> sameFrames s s'.




(** The offset the stretch gives to a keyframe with offset [o]. *)
Definition warped (del dur total o : number) : number :=
  SubTimelineBuilder.roundOffset (div64 (add64 del (mul64 o dur)) total) 3.

(** ** The timing strings of the specification

    The pattern [<number><"s"|"ms"> [<number><"s"|"ms">] [<easing-token>]]
    as the specification words it, to be compared with the regular
    expression of [parseTimeExpression].  A number is read as a decimal
    numeral: an optional minus sign, then digits with at most one decimal
    point among them; the units are the two strings given; the parts are
    separated by white space and the easing token is the one the regular
    expression accepts. *)

Fixpoint count_char (n : nat) (s : string) : nat :=
  match s with
  | EmptyString => 0
  | String c r => ((if is_char n c then 1 else 0) + count_char n r)%nat
  end.

Fixpoint has_digit (s : string) : bool :=
  match s with
  | EmptyString => false
  | String c r => is_digit c || has_digit r
  end.

(** [<number>] at the head of [s]: the numeral and the rest. *)
Definition documented_number (s : string) : option (string * string) :=
  match match_number s with
  | Some (n, r) =>
      if has_digit n && (count_char 46 n <=? 1)%nat then Some (n, r) else None
  | None => None
  end.

(** [<"s"|"ms">] at the head of [s]. *)
Definition documented_unit (s : string) : option (string * string) :=
  match s with
  | String a (String b r) =>
      if is_char 109 a && is_char 115 b then Some (String a (str1 b), r)
      else if is_char 115 a then Some (str1 a, String b r)
      else None
  | String a EmptyString =>
      if is_char 115 a then Some (str1 a, EmptyString) else None
  | EmptyString => None
  end.

(** [[<easing-token>]] up to the end of the string. *)
Definition documented_tail (s : string) : bool :=
  match match_tail s with Some _ => true | None => false end.

(** The whole of [s] has the form
    [<number><"s"|"ms"> [<number><"s"|"ms">] [<easing-token>]]. *)
Definition documented_timing (s : string) : bool :=
  match documented_number s with
  | None => false
  | Some (_, r1) =>
      match documented_unit r1 with
      | None => false
      | Some (_, r2) =>
          let with_delay :=
            match match_spaces r2 with
            | None => false
            | Some r3 =>
                match documented_number r3 with
                | None => false
                | Some (_, r4) =>
                    match documented_unit r4 with
                    | None => false
                    | Some (_, r5) => documented_tail r5
                    end
                end
            end in
          with_delay || documented_tail r2
      end
  end.

(** ** A stagger on a branch that has advanced *)




(* ================================================================== *)
(** * Properties *)

(** ** Numbers *)

Lemma sameValueZero_refl (a : number) : sameValueZero a a = true.
Proof.
  destruct a; simpl; try reflexivity.
  apply Qeq_bool_iff. reflexivity.
Qed.

Lemma fin_Qeq (a b : Q) : (a == b)%Q -> fin a = fin b.
Proof.
  intros H. unfold fin. f_equal. apply Qred_complete. exact H.
Qed.

Lemma add_comm (a b : number) : (a + b)%num = (b + a)%num.
Proof.
  destruct a, b; simpl; try reflexivity.
  apply fin_Qeq. ring.
Qed.




Lemma le_zero_not_gt (d : number) : le d zero = true -> gt d zero = false.
Proof.
  destruct d; simpl; try discriminate; try reflexivity.
  unfold Qlt_bool. intros ->. reflexivity.
Qed.

(** ** Objects *)

Section ObjFacts.
Context {A : Type}.

Lemma get_set_same (k : string) (v : A) (o : obj A) :
  get k (set k v o) = Some v.
Proof.
  induction o as [|[k' v'] r IH]; simpl.
  - rewrite String.eqb_refl. reflexivity.
  - destruct (String.eqb k k') eqn:E; simpl; rewrite E; auto.
Qed.

Lemma get_set_other (k k' : string) (v : A) (o : obj A) :
  k <> k' -> get k (set k' v o) = get k o.
Proof.
  intros N. induction o as [|[k0 v0] r IH]; simpl.
  - destruct (String.eqb k k') eqn:E; [apply String.eqb_eq in E; contradiction|reflexivity].
  - destruct (String.eqb k' k0) eqn:E; simpl.
    + apply String.eqb_eq in E. subst k0.
      destruct (String.eqb k k') eqn:E'; [apply String.eqb_eq in E'; contradiction|reflexivity].
    + destruct (String.eqb k k0); auto.
Qed.

Lemma get_not_in_keys (k : string) (o : obj A) :
  existsb (String.eqb k) (keys o) = false -> get k o = None.
Proof.
  induction o as [|[k' v'] r IH]; simpl; [reflexivity|].
  destruct (String.eqb k k'); simpl; [discriminate|exact IH].
Qed.
End ObjFacts.

Lemma copy_fold_get (o : StyleData) (ks : list string) (dest : StyleData) (k : string) :
  get k (fold_left (fun d prop => match get prop o with
                                  | Some v => set prop v d
                                  | None => d
                                  end) ks dest)
  = if existsb (String.eqb k) ks
    then match get k o with Some v => Some v | None => get k dest end
    else get k dest.
Proof.
  revert dest. induction ks as [|p ks IH]; intros dest; simpl; [reflexivity|].
  rewrite IH. destruct (String.eqb k p) eqn:E; simpl.
  - apply String.eqb_eq in E. subst p.
    destruct (get k o) as [v|] eqn:G.
    + rewrite get_set_same. destruct (existsb _ ks); reflexivity.
    + destruct (existsb _ ks); reflexivity.
  - assert (k <> p) as N by (intros ->; rewrite String.eqb_refl in E; discriminate).
    destruct (get p o) as [v|]; [rewrite (get_set_other _ _ _ _ N)|]; reflexivity.
Qed.

Lemma get_copyObj (o : StyleData) (k : string) :
  get k (copyObj o []) = get k o.
Proof.
  unfold copyObj. rewrite copy_fold_get.
  destruct (existsb (String.eqb k) (keys o)) eqn:E.
  - destruct (get k o); reflexivity.
  - simpl. symmetry. apply get_not_in_keys. exact E.
Qed.

(** ** Lists of errors *)

Lemma splice_in_app {A : Type} (l r : list A) (x : A) :
  splice_in (length l) x (l ++ r) = l ++ x :: r.
Proof.
  unfold splice_in. induction l as [|a l IH]; simpl; [reflexivity|].
  f_equal. exact IH.
Qed.

(** ** The scenario of the file header *)

(** C1.  Compiling [sequence([style({opacity: 0}), animate(1000,
    style({opacity: 1}))])] with no variable bindings (passed as [undefined]
    or as the empty object) and with empty starting and final styles gives
    exactly one instruction, with keyframes [{opacity: 0, offset: 0}] and
    [{opacity: 1, offset: 1}], duration 1000 and delay 0, and no error. *)
Theorem fadeIn_compiles_to_one_instruction :
  forall (dom : element -> string -> list element),
    let expected :=
      createTimelineInstruction root
        [[("opacity", num 0); ("offset", num 0)];
         [("opacity", num 1); ("offset", num 1)]]
        [] [] (ofZ 1000) (ofZ 0) None false in
    buildAnimationTimelines dom root fadeIn [] [] None [] = Some ([expected], [])
    /\ buildAnimationTimelines dom root fadeIn [] [] (Some []) []
       = Some ([expected], []).
Proof.
  intros dom. split; vm_compute; reflexivity.
Qed.

(** ** Merging the style summaries of a group *)

(** C2.  In [group([A, B])], where A writes [opacity = 0] at time 5 and B
    writes [opacity = 1] at time 10, the value the parent timeline has
    collected for [opacity] after the group is that of the child visited
    last: 1 when A is visited first, 0 when B is visited first.  The merge
    stamps an adopted value with the parent's own current time (0 here), so
    every later child with a later time is adopted. *)
Theorem group_merge_follows_visit_order :
  forall (dom : element -> string -> list element),
    let ab := afterVisit dom (GroupAst [childA; childB] None) in
    let ba := afterVisit dom (GroupAst [childB; childA] None) in
    (* the children's own summaries: A at time 5, B at time 10 *)
    collected ab 1 "opacity" = Some (mkStyleAtTime (ofZ 5) (num 0))
    /\ collected ab 2 "opacity" = Some (mkStyleAtTime (ofZ 10) (num 1))
    /\ collected ba 1 "opacity" = Some (mkStyleAtTime (ofZ 10) (num 1))
    /\ collected ba 2 "opacity" = Some (mkStyleAtTime (ofZ 5) (num 0))
    (* the parent after the merge *)
    /\ collected ab 0 "opacity" = Some (mkStyleAtTime (ofZ 0) (num 1))
    /\ localStyle ab 0 "opacity" = Some (num 1)
    /\ collected ba 0 "opacity" = Some (mkStyleAtTime (ofZ 0) (num 0))
    /\ localStyle ba 0 "opacity" = Some (num 0).
Proof.
  intros dom. repeat split; vm_compute; reflexivity.
Qed.

(** ** Backfill *)

(** C3.  Compiling [sequence([animate(1000), group([animate(0, style({b:
    5}))])])] with final styles [{b: 9}] gives one instruction whose last
    keyframe has a value for [b] and whose first keyframe has none: the
    final styles are written into the root timeline after the group has put
    [b] into its local styles, so [setStyles] finds a truthy
    [_localTimelineStyles[b]] and leaves the backfill without [b]. *)
Theorem backfill_incomplete_after_final_styles :
  forall (dom : element -> string -> list element),
    exists first last_,
      buildAnimationTimelines dom root holdThenGroup [] [("b", num 9)] None []
      = Some ([createTimelineInstruction root [first; last_] [] []
                 (ofZ 1000) (ofZ 0) None false], [])
      /\ get "b" last_ = Some (num 9)
      /\ get "b" first = None.
Proof.
  intros dom.
  exists [("offset", num 0)], [("b", num 9); ("offset", num 1)].
  repeat split; vm_compute; reflexivity.
Qed.

(** ** Offsets of a finished timeline *)

Lemma finalizeKeyframe_keyframes (b : TimelineBuilder)
    (acc : list string * list string * list StyleData)
    (entry : number * StyleData) :
  snd (finalizeKeyframe b acc entry) = snd acc ++ [withOffset b entry].
Proof.
  destruct acc as [[pre post] ks]. destruct entry as [t kf].
  unfold finalizeKeyframe, withOffset.
  destruct (fold_left _ _ (pre, post)) as [p q]. reflexivity.
Qed.

Lemma fold_finalizeKeyframe (b : TimelineBuilder)
    (kfs : list (number * StyleData))
    (acc : list string * list string * list StyleData) :
  snd (fold_left (finalizeKeyframe b) kfs acc) = snd acc ++ map (withOffset b) kfs.
Proof.
  revert acc. induction kfs as [|e kfs IH]; intros acc; simpl.
  - rewrite app_nil_r. reflexivity.
  - rewrite IH, finalizeKeyframe_keyframes, <- app_assoc. reflexivity.
Qed.

Lemma buildKeyframes_keyframes (b : TimelineBuilder) :
  keyframes (buildKeyframes b) = map (withOffset b) (_keyframes b).
Proof.
  unfold buildKeyframes.
  pose proof (fold_finalizeKeyframe b (_keyframes b) ([], [], [])) as H.
  destruct (fold_left _ _ _) as [[p q] ks]. simpl in *. exact H.
Qed.

(** C7, as the claim states it: the single keyframe of a builder that has
    only its initial keyframe and duration 0 does not get offset 0. *)
Lemma zero_duration_offset_is_not_zero :
  ~ (exists kf,
        keyframes (buildKeyframes (initialBuilder root zero 0 None)) = [kf]
        /\ get "offset" kf = Some (VNum (ofZ 0))).
Proof.
  intros [kf [H G]]. vm_compute in H. injection H as <-.
  vm_compute in G. discriminate.
Qed.

(** ** Negative delays *)

(** C9.  [delayNextStep(d)] of a context with [d <= 0] leaves the whole
    store as it is: the current timeline keeps its start time, duration and
    keyframes, and no error is recorded. *)
Theorem delayNextStep_nonpositive_ignored :
  forall (context : nat) (d : number) (s : Store),
    le d zero = true ->
    Context.delayNextStep context d s = Some (tt, s).
Proof.
  intros context d s H. unfold Context.delayNextStep.
  rewrite (le_zero_not_gt d H). reflexivity.
Qed.

Lemma delayNextStep_nonpositive_ignored_witness :
  le (ofZ (-100)) zero = true
  /\ Context.delayNextStep 0 (ofZ (-100)) (emptyStore []) = Some (tt, emptyStore []).
Proof.
  split; [reflexivity|].
  apply (delayNextStep_nonpositive_ignored 0 (ofZ (-100)) (emptyStore [])).
  reflexivity.
Defined.

(** ** Timing expressions *)

Lemma check_negative_spec (exp : value) (dur del : number) (errs : list string) :
  check_negative exp dur del errs
  = errs ++
    (if lt dur zero || lt del zero
     then invalid_timing_message exp
            :: (if lt dur zero then [negative_duration_message] else [])
            ++ (if lt del zero then [negative_delay_message] else [])
     else []).
Proof.
  unfold check_negative.
  destruct (lt dur zero), (lt del zero); simpl.
  - rewrite <- app_assoc. apply splice_in_app.
  - apply splice_in_app.
  - apply splice_in_app.
  - rewrite app_nil_r. reflexivity.
Qed.

Lemma is_char_excl (n m : nat) (c : ascii) :
  is_char n c = true -> n <> m -> is_char m c = false.
Proof.
  unfold is_char. intros H N. apply Nat.eqb_eq in H.
  apply Nat.eqb_neq. congruence.
Qed.

(** A unit of the specification is a unit of the regular expression. *)
Lemma documented_unit_matches (s u r : string) :
  documented_unit s = Some (u, r) -> match_unit true s = Some (u, r).
Proof.
  unfold documented_unit, match_unit.
  destruct s as [|a [|b t]]; [discriminate| |]; cbn [andb orb].
  - destruct (is_char 115 a); [|discriminate]. intros H. exact H.
  - destruct (is_char 109 a) eqn:M; cbn [andb orb].
    + destruct (is_char 115 b) eqn:S; cbn [andb orb]; [intros H; exact H|].
      rewrite (is_char_excl 109 115 a M) by discriminate. discriminate.
    + destruct (is_char 115 a) eqn:S; [|discriminate].
      rewrite (is_char_excl 115 77 a S) by discriminate. cbn [andb orb].
      intros H. exact H.
Qed.

Lemma documented_number_matches (s n r : string) :
  documented_number s = Some (n, r) -> match_number s = Some (n, r).
Proof.
  unfold documented_number. destruct (match_number s) as [[n' r']|]; [|discriminate].
  destruct (has_digit n' && (count_char 46 n' <=? 1)%nat); [|discriminate].
  intros H. exact H.
Qed.

(** Every timing string of the specification is matched by the regular
    expression. *)
Lemma documented_timing_matches (s : string) :
  documented_timing s = true -> exists m, timing_regex s = Some m.
Proof.
  unfold documented_timing, timing_regex.
  destruct (documented_number s) as [[n1 r1]|] eqn:N1; [|discriminate].
  rewrite (documented_number_matches _ _ _ N1).
  destruct (documented_unit r1) as [[u1 r2]|] eqn:U1; [|discriminate].
  rewrite (documented_unit_matches _ _ _ U1).
  unfold documented_tail.
  destruct (match_spaces r2) as [r3|].
  - destruct (documented_number r3) as [[n3 r4]|] eqn:N3.
    + rewrite (documented_number_matches _ _ _ N3).
      destruct (documented_unit r4) as [[u4 r5]|] eqn:U4.
      * rewrite (documented_unit_matches _ _ _ U4).
        destruct (match_tail r5) as [e|]; [intros _; eexists; reflexivity|].
        cbn [orb]. destruct (match_tail r2) as [e|]; [|discriminate].
        intros _. eexists. reflexivity.
      * cbn [orb]. destruct (match_tail r2) as [e|]; [|discriminate].
        intros _.
        match goal with
        | |- exists m, match ?o with Some _ => _ | None => _ end = Some m =>
            destruct o; eexists; reflexivity
        end.
    + cbn [orb]. destruct (match_tail r2) as [e|]; [|discriminate].
      intros _.
      match goal with
      | |- exists m, match ?o with Some _ => _ | None => _ end = Some m =>
          destruct o; eexists; reflexivity
      end.
  - cbn [orb]. destruct (match_tail r2) as [e|]; [|discriminate].
    intros _. eexists. reflexivity.
Qed.

(** C8, as the claim states it: a string outside the pattern
    [<number><"s"|"ms"> [<number><"s"|"ms">] [<easing-token>]] does not
    always resolve to [{duration: 0, delay: 0, easing: ''}] with one error
    appended.  The string [.s] is outside the pattern and resolves to the
    duration [NaN] without an error. *)
Lemma timing_outside_pattern_without_error :
  documented_timing ".s" = false
  /\ resolveTiming (TimingExp (VStr ".s")) [] false
     = (mkTimings NaN (ofZ 0) (Some EmptyString), [])
  /\ ~ (forall (s : string) (errs : list string) (allow : bool),
           documented_timing s = false ->
           resolveTiming (TimingExp (VStr s)) errs allow
           = (mkTimings (ofZ 0) (ofZ 0) (Some EmptyString),
              errs ++ [invalid_timing_message (VStr s)])).
Proof.
  split; [reflexivity|]. split; [reflexivity|].
  intros H. specialize (H ".s"%string [] false eq_refl).
  vm_compute in H. discriminate H.
Qed.

(** C8, amended.  A string that the regular expression of
    [parseTimeExpression] does not match resolves to
    [{duration: 0, delay: 0, easing: ''}] and one error is appended.  A
    string that it matches resolves to the parsed triple; with the
    allow-negative flag the error list is unchanged, and without it the
    errors appended are, when the duration or the delay is negative, the
    aggregate message followed by one message per negative component, and
    none otherwise.

    The regular expression matches every string of the form
    [<number><"s"|"ms"> [<number><"s"|"ms">] [<easing-token>]], and strings
    outside it as well, which resolve without an error: a number is any run
    of digits and points, so that [.s] has the duration [NaN] and [1.2.3s]
    the duration 1200; the units are matched without regard to case and
    only [s] in lower case is converted, so that [2S 3MS] has the duration
    2 and the delay 3. *)
Theorem resolveTiming_errors :
  (forall (s : string) (errs : list string),
      (timing_regex s = None ->
       forall allow,
         resolveTiming (TimingExp (VStr s)) errs allow
         = (mkTimings (ofZ 0) (ofZ 0) (Some EmptyString),
            errs ++ [invalid_timing_message (VStr s)]))
      /\ (forall m, timing_regex s = Some m ->
          let t := timingsOfMatch m in
          resolveTiming (TimingExp (VStr s)) errs true = (t, errs)
          /\ resolveTiming (TimingExp (VStr s)) errs false
             = (t, errs ++
                   (if lt (duration t) zero || lt (delay t) zero
                    then invalid_timing_message (VStr s)
                           :: (if lt (duration t) zero
                               then [negative_duration_message] else [])
                           ++ (if lt (delay t) zero
                               then [negative_delay_message] else [])
                    else []))))
  /\ (forall s : string,
         documented_timing s = true -> exists m, timing_regex s = Some m)
  /\ (forall (errs : list string) (allow : bool),
         documented_timing ".s" = false
         /\ resolveTiming (TimingExp (VStr ".s")) errs allow
            = (mkTimings NaN (ofZ 0) (Some EmptyString), errs))
  /\ (forall (errs : list string) (allow : bool),
         documented_timing "1.2.3s" = false
         /\ resolveTiming (TimingExp (VStr "1.2.3s")) errs allow
            = (mkTimings (ofZ 1200) (ofZ 0) (Some EmptyString), errs))
  /\ (forall (errs : list string) (allow : bool),
         documented_timing "2S 3MS" = false
         /\ resolveTiming (TimingExp (VStr "2S 3MS")) errs allow
            = (mkTimings (ofZ 2) (ofZ 3) (Some EmptyString), errs)).
Proof.
  assert (G : forall (s : string) (errs : list string) m,
             timing_regex s = Some m ->
             resolveTiming (TimingExp (VStr s)) errs true
             = (timingsOfMatch m, errs)
             /\ resolveTiming (TimingExp (VStr s)) errs false
                = (timingsOfMatch m,
                   errs ++
                   (if lt (duration (timingsOfMatch m)) zero
                       || lt (delay (timingsOfMatch m)) zero
                    then invalid_timing_message (VStr s)
                           :: (if lt (duration (timingsOfMatch m)) zero
                               then [negative_duration_message] else [])
                           ++ (if lt (delay (timingsOfMatch m)) zero
                               then [negative_delay_message] else [])
                    else []))).
  { intros s errs m H. simpl. rewrite H. split.
    - reflexivity.
    - simpl. rewrite check_negative_spec. reflexivity. }
  assert (E : forall (s : string) (errs : list string) (allow : bool) m,
             timing_regex s = Some m ->
             lt (duration (timingsOfMatch m)) zero = false ->
             lt (delay (timingsOfMatch m)) zero = false ->
             resolveTiming (TimingExp (VStr s)) errs allow
             = (timingsOfMatch m, errs)).
  { intros s errs allow m H L1 L2. destruct (G s errs m H) as [A B].
    destruct allow; [exact A|].
    rewrite B, L1, L2. cbn [orb]. rewrite app_nil_r. reflexivity. }
  split.
  { intros s errs. split.
    - intros H allow. simpl. rewrite H. reflexivity.
    - intros m H t. exact (G s errs m H). }
  split; [exact documented_timing_matches|].
  split; [|split]; intros errs allow; (split; [reflexivity|]).
  - apply (E ".s"%string errs allow (mkMatch "." "s" None None));
      reflexivity.
  - apply (E "1.2.3s"%string errs allow (mkMatch "1.2.3" "s" None None));
      reflexivity.
  - apply (E "2S 3MS"%string errs allow
             (mkMatch "2" "S" (Some ("3", "MS")) None)); reflexivity.
Qed.

Lemma resolveTiming_errors_witness :
  timing_regex "fast" = None
  /\ resolveTiming (TimingExp (VStr "fast")) ["earlier"] false
     = (mkTimings (ofZ 0) (ofZ 0) (Some EmptyString),
        ["earlier"; invalid_timing_message (VStr "fast")])
  /\ resolveTiming (TimingExp (VStr "-1s -500ms ease")) ["earlier"] false
     = (mkTimings (ofZ (-1000)) (ofZ (-500)) (Some "ease"),
        ["earlier"; invalid_timing_message (VStr "-1s -500ms ease");
         negative_duration_message; negative_delay_message])
  /\ resolveTiming (TimingExp (VStr "-1s -500ms ease")) ["earlier"] true
     = (mkTimings (ofZ (-1000)) (ofZ (-500)) (Some "ease"), ["earlier"])
  /\ exists m, timing_regex "1s 500ms ease-out" = Some m.
Proof.
  destruct resolveTiming_errors as [H [D _]].
  pose proof (H "fast"%string ["earlier"]) as [H1 _].
  pose proof (H "-1s -500ms ease"%string ["earlier"]) as [_ H2].
  split; [reflexivity|]. split; [apply (H1 eq_refl false)|].
  specialize (H2 (mkMatch "-1" "s" (Some ("-500", "ms")) (Some "ease")) eq_refl).
  destruct H2 as [H2 H3]. split; [exact H3|]. split; [exact H2|].
  apply (D "1s 500ms ease-out"%string). reflexivity.
Defined.





(** ** binary64 arithmetic *)

Section Binary64.
Local Open Scope Q_scope.


Lemma pow2_pos (z : Z) : 0 < pow2 z.
Proof. apply Qpower_0_lt. reflexivity. Qed.

Lemma pow2_add (x y : Z) : pow2 (x + y) == pow2 x * pow2 y.
Proof. apply Qpower_plus. discriminate. Qed.

Lemma pow2_le (x y : Z) : (x <= y)%Z -> pow2 x <= pow2 y.
Proof. intros H. apply Qpower_le_compat_l; [exact H|discriminate]. Qed.

Lemma pow2_lt_inv (x y : Z) : pow2 x < pow2 y -> (x < y)%Z.
Proof. intros H. apply (Qpower_lt_compat_l_inv (2 # 1)); [exact H|reflexivity]. Qed.

Lemma pow2_Z (z : Z) : (0 <= z)%Z -> pow2 z == inject_Z (2 ^ z).
Proof.
  intros H. unfold pow2. rewrite Zpower_Qpower by exact H. reflexivity.
Qed.

Lemma pow2_div (a : Q) (x y : Z) :
  a / pow2 y * pow2 (y - x) == a / pow2 x.
Proof.
  assert (P := pow2_pos x). assert (P' := pow2_pos y).
  assert (E : pow2 y == pow2 (y - x) * pow2 x).
  { rewrite <- pow2_add. replace (y - x + x)%Z with y by lia. reflexivity. }
  assert (Q0 := pow2_pos (y - x)).
  rewrite E. field. split; lra.
Qed.

(** ** Rounding to the nearest integer *)

Lemma rhe_cases (q : Q) :
  (roundHalfEven q = Qfloor q /\ q - inject_Z (Qfloor q) <= 1 # 2)
  \/ (roundHalfEven q = (Qfloor q + 1)%Z /\ 1 # 2 <= q - inject_Z (Qfloor q)).
Proof.
  unfold roundHalfEven.
  destruct (q - inject_Z (Qfloor q) ?= 1 # 2) eqn:C.
  - apply <- Qeq_alt in C. destruct (Z.even (Qfloor q)).
    + left. split; [reflexivity|]. rewrite C. apply Qle_refl.
    + right. split; [reflexivity|]. rewrite C. apply Qle_refl.
  - apply <- Qlt_alt in C. left. split; [reflexivity|]. apply Qlt_le_weak, C.
  - apply <- Qgt_alt in C. right. split; [reflexivity|]. apply Qlt_le_weak, C.
Qed.

Lemma rhe_near (q : Q) :
  q - (1 # 2) <= inject_Z (roundHalfEven q)
  /\ inject_Z (roundHalfEven q) <= q + (1 # 2).
Proof.
  pose proof (Qfloor_le q) as F1. pose proof (Qlt_floor q) as F2.
  rewrite inject_Z_plus in F2. change (inject_Z 1) with 1 in F2.
  destruct (rhe_cases q) as [[-> H]|[-> H]].
  - split; lra.
  - rewrite inject_Z_plus. change (inject_Z 1) with 1. split; lra.
Qed.

Lemma rhe_mono (q q' : Q) : q <= q' -> (roundHalfEven q <= roundHalfEven q')%Z.
Proof.
  intros H. pose proof (Qfloor_resp_le _ _ H) as F.
  pose proof (Qfloor_le q) as A1. pose proof (Qlt_floor q) as A2.
  pose proof (Qfloor_le q') as B1. pose proof (Qlt_floor q') as B2.
  destruct (Z.eq_dec (Qfloor q) (Qfloor q')) as [E|N].
  - unfold roundHalfEven. rewrite <- E.
    destruct (q - inject_Z (Qfloor q) ?= 1 # 2) eqn:C;
      destruct (q' - inject_Z (Qfloor q) ?= 1 # 2) eqn:C';
      try apply <- Qeq_alt in C; try apply <- Qlt_alt in C;
      try apply <- Qgt_alt in C; try apply <- Qeq_alt in C';
      try apply <- Qlt_alt in C'; try apply <- Qgt_alt in C';
      try (exfalso; lra); try lia; destruct (Z.even (Qfloor q)); lia.
  - destruct (rhe_cases q) as [[-> _]|[-> _]];
      destruct (rhe_cases q') as [[-> _]|[-> _]]; lia.
Qed.

Lemma rhe_Z (z : Z) : roundHalfEven (inject_Z z) = z.
Proof.
  unfold roundHalfEven. rewrite Qfloor_Z.
  assert (C : (inject_Z z - inject_Z z ?= 1 # 2) = Lt).
  { apply -> Qlt_alt. lra. }
  rewrite C. reflexivity.
Qed.

Lemma rhe_proper (q q' : Q) : q == q' -> roundHalfEven q = roundHalfEven q'.
Proof.
  intros E. apply Z.le_antisymm; apply rhe_mono; rewrite E; apply Qle_refl.
Qed.

(** ** The exponent *)

Lemma ilog2_spec (a : Q) :
  0 < a -> pow2 (ilog2 a) <= a /\ a < pow2 (ilog2 a + 1).
Proof.
  intros Ha. destruct a as [n d].
  assert (Hn : (0 < n)%Z) by (unfold Qlt in Ha; simpl in Ha; lia).
  unfold ilog2. cbn [Qnum Qden].
  set (ln := Z.log2 n). set (ld := Z.log2 (Z.pos d)).
  destruct (Z.log2_spec n Hn) as [N1 N2]. fold ln in N1, N2.
  destruct (Z.log2_spec (Z.pos d) (Pos2Z.is_pos d)) as [D1 D2]. fold ld in D1, D2.
  assert (Ln : (0 <= ln)%Z) by apply Z.log2_nonneg.
  assert (Ld : (0 <= ld)%Z) by apply Z.log2_nonneg.
  assert (Qn1 : pow2 ln <= inject_Z n)
    by (rewrite pow2_Z by lia; rewrite <- Zle_Qle; exact N1).
  assert (Qn2 : inject_Z n < pow2 (ln + 1))
    by (rewrite pow2_Z by lia; rewrite <- Zlt_Qlt;
        replace (ln + 1)%Z with (Z.succ ln) by lia; exact N2).
  assert (Qd1 : pow2 ld <= inject_Z (Z.pos d))
    by (rewrite pow2_Z by lia; rewrite <- Zle_Qle; exact D1).
  assert (Qd2 : inject_Z (Z.pos d) < pow2 (ld + 1))
    by (rewrite pow2_Z by lia; rewrite <- Zlt_Qlt;
        replace (ld + 1)%Z with (Z.succ ld) by lia; exact D2).
  assert (Ea : n # d == inject_Z n / inject_Z (Z.pos d)) by apply Qmake_Qdiv.
  assert (Dp : 0 < inject_Z (Z.pos d)) by (rewrite <- (Zlt_Qlt 0); lia).
  assert (U : n # d < pow2 (ln - ld + 1)).
  { rewrite Ea. apply Qlt_shift_div_r; [exact Dp|].
    assert (E : pow2 (ln + 1) == pow2 (ln - ld + 1) * pow2 ld).
    { rewrite <- pow2_add. replace (ln - ld + 1 + ld)%Z with (ln + 1)%Z by lia.
      reflexivity. }
    assert (P := pow2_pos (ln - ld + 1)).
    assert (pow2 (ln - ld + 1) * pow2 ld <= pow2 (ln - ld + 1) * inject_Z (Z.pos d)).
    { apply Qmult_le_l; assumption. }
    lra. }
  assert (L : pow2 (ln - ld - 1) <= n # d).
  { rewrite Ea. apply Qle_shift_div_l; [exact Dp|].
    assert (E : pow2 ln == pow2 (ln - ld - 1) * pow2 (ld + 1)).
    { rewrite <- pow2_add. replace (ln - ld - 1 + (ld + 1))%Z with ln by lia.
      reflexivity. }
    assert (P := pow2_pos (ln - ld - 1)).
    assert (pow2 (ln - ld - 1) * inject_Z (Z.pos d)
            <= pow2 (ln - ld - 1) * pow2 (ld + 1)).
    { apply Qmult_le_l; [assumption|]. apply Qlt_le_weak. assumption. }
    lra. }
  destruct (Qle_bool (pow2 (ln - ld)) (n # d)) eqn:B.
  - apply Qle_bool_iff in B. split; assumption.
  - assert (B' : n # d < pow2 (ln - ld)).
    { apply Qnot_le_lt. intros C. apply Qle_bool_iff in C. congruence. }
    replace (ln - ld - 1 + 1)%Z with (ln - ld)%Z by lia. split; assumption.
Qed.

Lemma ilog2_mono (a b : Q) : 0 < a -> a <= b -> (ilog2 a <= ilog2 b)%Z.
Proof.
  intros Ha H. assert (Hb : 0 < b) by lra.
  destruct (ilog2_spec a Ha) as [A1 _]. destruct (ilog2_spec b Hb) as [_ B2].
  assert (pow2 (ilog2 a) < pow2 (ilog2 b + 1)) by lra.
  apply pow2_lt_inv in H0. lia.
Qed.

(** ** Rounding to the nearest binary64 *)

Lemma nearest64_mono (a b : Q) : 0 < a -> a <= b -> nearest64 a <= nearest64 b.
Proof.
  intros Ha H. assert (Hb : 0 < b) by lra.
  pose proof (ilog2_mono a b Ha H) as M.
  destruct (ilog2_spec a Ha) as [A1 A2]. destruct (ilog2_spec b Hb) as [B1 B2].
  unfold nearest64.
  set (ea := binade a). set (eb := binade b).
  assert (Pa := pow2_pos ea). assert (Pb := pow2_pos eb).
  destruct (Z.eq_dec ea eb) as [E|N].
  - rewrite E. apply Qmult_le_r; [exact Pb|]. rewrite <- Zle_Qle.
    apply rhe_mono. apply Qmult_le_r; [apply Qinv_lt_0_compat; exact Pb|exact H].
  - assert (Lt : (ea < eb)%Z) by (unfold ea, eb, binade in *; lia).
    assert (Eb : eb = (ilog2 b - 52)%Z) by (unfold ea, eb, binade in *; lia).
    assert (La : (ilog2 a + 1 <= ilog2 b)%Z) by (unfold ea, eb, binade in *; lia).
    assert (Ex : (0 <= ilog2 b - ea)%Z) by lia.
    apply Qle_trans with (pow2 (ilog2 b)).
    + (* the rounded [a] does not pass the power of two *)
      assert (Q1 : a / pow2 ea <= inject_Z (2 ^ (ilog2 b - ea))).
      { rewrite <- pow2_Z by exact Ex.
        apply Qle_shift_div_r; [exact Pa|]. rewrite <- pow2_add.
        replace (ilog2 b - ea + ea)%Z with (ilog2 b) by lia.
        apply Qle_trans with (pow2 (ilog2 a + 1)); [lra|apply pow2_le; lia]. }
      apply rhe_mono in Q1. rewrite rhe_Z in Q1. rewrite Zle_Qle in Q1.
      rewrite <- pow2_Z in Q1 by exact Ex.
      assert (E2 : pow2 (ilog2 b) == pow2 (ilog2 b - ea) * pow2 ea).
      { rewrite <- pow2_add. replace (ilog2 b - ea + ea)%Z with (ilog2 b) by lia.
        reflexivity. }
      rewrite E2. apply Qmult_le_r; [exact Pa|exact Q1].
    + assert (Q1 : inject_Z (2 ^ 52) <= b / pow2 eb).
      { rewrite <- pow2_Z by lia.
        apply Qle_shift_div_l; [exact Pb|]. rewrite <- pow2_add.
        replace (52 + eb)%Z with (ilog2 b) by lia. exact B1. }
      apply rhe_mono in Q1. rewrite rhe_Z in Q1. rewrite Zle_Qle in Q1.
      rewrite <- pow2_Z in Q1 by lia.
      assert (E2 : pow2 (ilog2 b) == pow2 52 * pow2 eb).
      { rewrite <- pow2_add. replace (52 + eb)%Z with (ilog2 b) by lia.
        reflexivity. }
      rewrite E2. apply Qmult_le_r; [exact Pb|exact Q1].
Qed.

Lemma nearest64_nonneg (a : Q) : 0 < a -> 0 <= nearest64 a.
Proof.
  intros Ha. unfold nearest64. assert (P := pow2_pos (binade a)).
  apply Qmult_le_0_compat; [|lra].
  assert (H0 : (roundHalfEven (inject_Z 0)
                <= roundHalfEven (a / pow2 (binade a)))%Z).
  { apply rhe_mono. apply Qle_shift_div_l; [exact P|].
    change (inject_Z 0) with 0. lra. }
  rewrite rhe_Z in H0. rewrite Zle_Qle in H0. exact H0.
Qed.

(** The rounding error is at most half a unit in the last place. *)
Lemma nearest64_error (a : Q) :
  0 < a ->
  a - pow2 (binade a - 1) <= nearest64 a
  /\ nearest64 a <= a + pow2 (binade a - 1).
Proof.
  intros Ha. unfold nearest64. set (e := binade a).
  assert (P := pow2_pos e).
  destruct (rhe_near (a / pow2 e)) as [N1 N2].
  assert (E : pow2 (e - 1) == (1 # 2) * pow2 e).
  { assert (E1 : pow2 e == pow2 (e - 1) * pow2 1).
    { rewrite <- pow2_add. replace (e - 1 + 1)%Z with e by lia. reflexivity. }
    change (pow2 1) with (2 # 1) in E1. lra. }
  assert (A : a / pow2 e * pow2 e == a) by (field; lra).
  assert (M1 : (a / pow2 e - (1 # 2)) * pow2 e
               <= inject_Z (roundHalfEven (a / pow2 e)) * pow2 e)
    by (apply Qmult_le_r; assumption).
  assert (M2 : inject_Z (roundHalfEven (a / pow2 e)) * pow2 e
               <= (a / pow2 e + (1 # 2)) * pow2 e)
    by (apply Qmult_le_r; assumption).
  split; lra.
Qed.

Lemma rnd64_cases (q : Q) :
  (q == 0 /\ rnd64 q = Fin 0)
  \/ (0 < q
      /\ rnd64 q = if Qle_bool (pow2 1024) (nearest64 q) then PosInf
                   else fin (nearest64 q))
  \/ (q < 0
      /\ rnd64 q = if Qle_bool (pow2 1024) (nearest64 (- q)) then NegInf
                   else fin (- nearest64 (- q))).
Proof.
  unfold rnd64. destruct (q ?= 0) eqn:C.
  - apply <- Qeq_alt in C. left. split; [exact C|reflexivity].
  - apply <- Qlt_alt in C. right. right. split; [exact C|reflexivity].
  - apply <- Qgt_alt in C. right. left. split; [exact C|reflexivity].
Qed.

Lemma le_fin (x y : Q) : x <= y -> le (fin x) (fin y) = true.
Proof.
  intros H. unfold fin. cbn [le]. apply Qle_bool_iff.
  rewrite !Qred_correct. exact H.
Qed.

Lemma le_Fin_fin (x y : Q) : x <= y -> le (Fin x) (fin y) = true.
Proof.
  intros H. unfold fin. cbn [le]. apply Qle_bool_iff.
  rewrite Qred_correct. exact H.
Qed.

Lemma le_fin_Fin (x y : Q) : x <= y -> le (fin x) (Fin y) = true.
Proof.
  intros H. unfold fin. cbn [le]. apply Qle_bool_iff.
  rewrite Qred_correct. exact H.
Qed.

(** Rounding is monotone. *)
Lemma rnd64_mono (q q' : Q) : q <= q' -> le (rnd64 q) (rnd64 q') = true.
Proof.
  intros H.
  destruct (rnd64_cases q) as [[S ->]|[[S ->]|[S ->]]];
    destruct (rnd64_cases q') as [[S' ->]|[[S' ->]|[S' ->]]];
    try (exfalso; lra).
  - apply Qle_bool_iff. apply Qle_refl.
  - pose proof (nearest64_nonneg q' S') as N.
    destruct (Qle_bool (pow2 1024) (nearest64 q')); [reflexivity|].
    apply le_Fin_fin. exact N.
  - pose proof (nearest64_mono q q' S H) as M.
    destruct (Qle_bool (pow2 1024) (nearest64 q)) eqn:O.
    + apply Qle_bool_iff in O.
      assert (O' : Qle_bool (pow2 1024) (nearest64 q') = true)
        by (apply Qle_bool_iff; lra).
      rewrite O'. reflexivity.
    + destruct (Qle_bool (pow2 1024) (nearest64 q')); [reflexivity|].
      apply le_fin. exact M.
  - assert (P : 0 < - q) by lra. pose proof (nearest64_nonneg (- q) P) as N.
    destruct (Qle_bool (pow2 1024) (nearest64 (- q))); [reflexivity|].
    apply le_fin_Fin. lra.
  - assert (P : 0 < - q) by lra. pose proof (nearest64_nonneg (- q) P) as N.
    pose proof (nearest64_nonneg q' S') as N'.
    destruct (Qle_bool (pow2 1024) (nearest64 (- q)));
      destruct (Qle_bool (pow2 1024) (nearest64 q')); try reflexivity.
    apply le_fin. lra.
  - assert (P : 0 < - q') by lra. assert (H' : - q' <= - q) by lra.
    pose proof (nearest64_mono (- q') (- q) P H') as M.
    destruct (Qle_bool (pow2 1024) (nearest64 (- q))) eqn:O;
      [destruct (Qle_bool (pow2 1024) (nearest64 (- q'))); reflexivity|].
    destruct (Qle_bool (pow2 1024) (nearest64 (- q'))) eqn:O'.
    + apply Qle_bool_iff in O'.
      assert (O2 : Qle_bool (pow2 1024) (nearest64 (- q)) = true)
        by (apply Qle_bool_iff; lra).
      congruence.
    + apply le_fin. lra.
Qed.

Lemma rnd64_proper (q q' : Q) : q == q' -> rnd64 q = rnd64 q'.
Proof.
  intros E.
  destruct (rnd64_cases q) as [[S ->]|[[S ->]|[S ->]]];
    destruct (rnd64_cases q') as [[S' ->]|[[S' ->]|[S' ->]]];
    try (exfalso; lra).
  - reflexivity.
  - assert (N : nearest64 q == nearest64 q').
    { apply Qle_antisym; apply nearest64_mono; lra. }
    destruct (Qle_bool (pow2 1024) (nearest64 q)) eqn:O;
      destruct (Qle_bool (pow2 1024) (nearest64 q')) eqn:O'.
    + reflexivity.
    + apply Qle_bool_iff in O. rewrite N in O. apply Qle_bool_iff in O.
      congruence.
    + apply Qle_bool_iff in O'. rewrite <- N in O'. apply Qle_bool_iff in O'.
      congruence.
    + apply fin_Qeq. exact N.
  - assert (N : nearest64 (- q) == nearest64 (- q')).
    { apply Qle_antisym; apply nearest64_mono; lra. }
    destruct (Qle_bool (pow2 1024) (nearest64 (- q))) eqn:O;
      destruct (Qle_bool (pow2 1024) (nearest64 (- q'))) eqn:O'.
    + reflexivity.
    + apply Qle_bool_iff in O. rewrite N in O. apply Qle_bool_iff in O.
      congruence.
    + apply Qle_bool_iff in O'. rewrite <- N in O'. apply Qle_bool_iff in O'.
      congruence.
    + apply fin_Qeq. rewrite N. reflexivity.
Qed.

(** A number between two numbers that round to finite numbers rounds to a
    finite number between them. *)
Lemma rnd64_between (lo hi q L H : Q) :
  rnd64 lo = Fin L -> rnd64 hi = Fin H -> lo <= q -> q <= hi ->
  exists p, rnd64 q = Fin p /\ L <= p /\ p <= H.
Proof.
  intros El Eh H1 H2.
  pose proof (rnd64_mono lo q H1) as M1. pose proof (rnd64_mono q hi H2) as M2.
  rewrite El in M1. rewrite Eh in M2.
  destruct (rnd64 q) as [p| | |]; simpl in M1, M2; try discriminate.
  exists p. split; [reflexivity|].
  split; apply Qle_bool_iff; assumption.
Qed.

Lemma binade_le (a : Q) (k : Z) :
  0 < a -> a < pow2 (k + 1) -> (-1074 <= k - 52)%Z -> (binade a <= k - 52)%Z.
Proof.
  intros Ha H K. destruct (ilog2_spec a Ha) as [A1 _].
  assert (pow2 (ilog2 a) < pow2 (k + 1)) by lra.
  apply pow2_lt_inv in H0. unfold binade. lia.
Qed.

(** The error of rounding a positive number that does not overflow. *)
Lemma rnd64_error (a p : Q) (k : Z) :
  0 < a -> a < pow2 (k + 1) -> (-1074 <= k - 52)%Z ->
  rnd64 a = Fin p ->
  a - pow2 (k - 53) <= p /\ p <= a + pow2 (k - 53).
Proof.
  intros Ha H K E.
  destruct (rnd64_cases a) as [[S _]|[[_ E']|[S _]]]; try (exfalso; lra).
  rewrite E' in E.
  destruct (Qle_bool (pow2 1024) (nearest64 a)); [discriminate|].
  assert (E2 : Qred (nearest64 a) = p) by (unfold fin in E; congruence).
  assert (Ep : p == nearest64 a) by (rewrite <- E2; apply Qred_correct).
  pose proof (binade_le a k Ha H K) as B.
  destruct (nearest64_error a Ha) as [N1 N2].
  assert (P : pow2 (binade a - 1) <= pow2 (k - 53)) by (apply pow2_le; lia).
  split; lra.
Qed.

Lemma rnd64_0 : rnd64 0 = Fin 0.
Proof. reflexivity. Qed.

Lemma rnd64_1 : rnd64 1 = Fin 1.
Proof. vm_compute. reflexivity. Qed.

Lemma rnd64_100 : rnd64 100 = Fin 100.
Proof. vm_compute. reflexivity. Qed.

(** ** Rounding an offset to hundredths *)

Lemma roundOffset_unfold (x : number) :
  SubTimelineBuilder.roundOffset x 3
  = div64 (round (mul64 x (ofZ 100))) (ofZ 100).
Proof. reflexivity. Qed.

Lemma mul64_100 (q : Q) : mul64 (Fin q) (ofZ 100) = rnd64 (Qred (q * 100)).
Proof. reflexivity. Qed.

Lemma div64_100 (z : Z) :
  div64 (ofZ z) (ofZ 100) = rnd64 (inject_Z z / 100).
Proof.
  unfold div64, ofZ, div. cbn [Qcompare]. 
  change (inject_Z 100 ?= 0) with Gt. unfold fin, r64.
  apply rnd64_proper. apply Qred_correct.
Qed.

(** [roundOffset] gives the binary64 written [z/100], for the integer [z]
    nearest to the binary64 product of the offset and 100, ties upwards. *)
Lemma roundOffset_nearest (q p : Q) :
  mul64 (Fin q) (ofZ 100) = Fin p ->
  SubTimelineBuilder.roundOffset (Fin q) 3
  = rnd64 (inject_Z (Qfloor (p + (1 # 2))) / 100)
  /\ inject_Z (Qfloor (p + (1 # 2))) <= p + (1 # 2)
  /\ p + (1 # 2) < inject_Z (Qfloor (p + (1 # 2))) + 1.
Proof.
  intros E. rewrite roundOffset_unfold, E. cbn [round]. rewrite div64_100.
  split; [reflexivity|]. split; [apply Qfloor_le|].
  pose proof (Qlt_floor (p + (1 # 2))) as F. rewrite inject_Z_plus in F.
  exact F.
Qed.

Lemma pow2_m47 : pow2 (-47) == 1 # 140737488355328.
Proof. reflexivity. Qed.

Lemma pow2_m53 : pow2 (-53) == 1 # 9007199254740992.
Proof. reflexivity. Qed.

(** [roundOffset] on an offset between 0 and 1. *)
Lemma roundOffset_unit (q : Q) :
  0 <= q -> q <= 1 ->
  exists (p r : Q) (z : Z),
    mul64 (Fin q) (ofZ 100) = Fin p
    /\ q * 100 - pow2 (-47) <= p /\ p <= q * 100 + pow2 (-47)
    /\ 0 <= p /\ p <= 100
    /\ inject_Z z <= p + (1 # 2) /\ p + (1 # 2) < inject_Z z + 1
    /\ (0 <= z <= 100)%Z
    /\ SubTimelineBuilder.roundOffset (Fin q) 3 = Fin r
    /\ rnd64 (inject_Z z / 100) = Fin r
    /\ inject_Z z / 100 - pow2 (-53) <= r /\ r <= inject_Z z / 100 + pow2 (-53)
    /\ 0 <= r /\ r <= 1.
Proof.
  intros H0 H1.
  assert (A0 : 0 <= Qred (q * 100)) by (rewrite Qred_correct; lra).
  assert (A1 : Qred (q * 100) <= 100) by (rewrite Qred_correct; lra).
  destruct (rnd64_between 0 100 _ 0 100 rnd64_0 rnd64_100 A0 A1)
    as [p [Ep [P0 P1]]].
  assert (Em : mul64 (Fin q) (ofZ 100) = Fin p) by (rewrite mul64_100; exact Ep).
  destruct (roundOffset_nearest q p Em) as [R [F1 F2]].
  set (z := Qfloor (p + (1 # 2))) in *.
  assert (Z0 : (0 <= z)%Z).
  { change 0%Z with (Qfloor (1 # 2)). apply Qfloor_resp_le. lra. }
  assert (Z100 : (z <= 100)%Z).
  { change 100%Z with (Qfloor (201 # 2)). apply Qfloor_resp_le. lra. }
  pose proof Z0 as Q0. pose proof Z100 as Q100. rewrite Zle_Qle in Q0, Q100.
  change (inject_Z 0) with 0 in Q0. change (inject_Z 100) with 100 in Q100.
  assert (B0 : 0 <= inject_Z z / 100) by (apply Qle_shift_div_l; lra).
  assert (B1 : inject_Z z / 100 <= 1) by (apply Qle_shift_div_r; lra).
  destruct (rnd64_between 0 1 _ 0 1 rnd64_0 rnd64_1 B0 B1) as [r [Er [R0 R1]]].
  exists p, r, z. split; [exact Em|].
  assert (Perr : q * 100 - pow2 (-47) <= p /\ p <= q * 100 + pow2 (-47)).
  { destruct (Qlt_le_dec 0 (Qred (q * 100))) as [Pos|Neg].
    - assert (U : Qred (q * 100) < pow2 (6 + 1)).
      { change (pow2 (6 + 1)) with (inject_Z 128). 
        change (inject_Z 128) with 128. lra. }
      destruct (rnd64_error _ p 6 Pos U ltac:(lia) Ep) as [E1 E2].
      change (6 - 53)%Z with (-47)%Z in E1, E2.
      rewrite Qred_correct in E1, E2. split; assumption.
    - assert (Z : Qred (q * 100) == 0) by lra.
      rewrite (rnd64_proper _ _ Z), rnd64_0 in Ep. injection Ep as <-.
      rewrite Qred_correct in Z. rewrite pow2_m47. split; lra. }
  destruct Perr as [Pe1 Pe2].
  split; [exact Pe1|]. split; [exact Pe2|]. split; [exact P0|].
  split; [exact P1|]. split; [exact F1|]. split; [exact F2|].
  split; [lia|]. split; [rewrite R; exact Er|]. split; [exact Er|].
  assert (Rerr : inject_Z z / 100 - pow2 (-53) <= r
                 /\ r <= inject_Z z / 100 + pow2 (-53)).
  { destruct (Qlt_le_dec 0 (inject_Z z / 100)) as [Pos|Neg].
    - assert (U : inject_Z z / 100 < pow2 (0 + 1)).
      { change (pow2 (0 + 1)) with (2 # 1). lra. }
      destruct (rnd64_error _ r 0 Pos U ltac:(lia) Er) as [E1 E2].
      change (0 - 53)%Z with (-53)%Z in E1, E2. split; assumption.
    - assert (Z : inject_Z z / 100 == 0) by lra.
      rewrite (rnd64_proper _ _ Z), rnd64_0 in Er. injection Er as <-.
      rewrite pow2_m53. split; lra. }
  destruct Rerr as [Re1 Re2].
  split; [exact Re1|]. split; [exact Re2|]. split; assumption.
Qed.

Lemma roundOffset_idem (z : Z) (r : Q) :
  (0 <= z <= 100)%Z ->
  rnd64 (inject_Z z / 100) = Fin r ->
  SubTimelineBuilder.roundOffset (Fin r) 3 = Fin r.
Proof.
  intros Hz Er.
  pose proof (proj1 Hz) as Q0. pose proof (proj2 Hz) as Q100.
  rewrite Zle_Qle in Q0, Q100.
  change (inject_Z 0) with 0 in Q0. change (inject_Z 100) with 100 in Q100.
  assert (B0 : 0 <= inject_Z z / 100) by (apply Qle_shift_div_l; lra).
  assert (B1 : inject_Z z / 100 <= 1) by (apply Qle_shift_div_r; lra).
  destruct (rnd64_between 0 1 _ 0 1 rnd64_0 rnd64_1 B0 B1) as [r0 [Er0 [R0 R1]]].
  rewrite Er in Er0. assert (r0 = r) by congruence. subst r0.
  assert (Rerr : inject_Z z / 100 - pow2 (-53) <= r
                 /\ r <= inject_Z z / 100 + pow2 (-53)).
  { destruct (Qlt_le_dec 0 (inject_Z z / 100)) as [Pos|Neg].
    - assert (U : inject_Z z / 100 < pow2 (0 + 1)).
      { change (pow2 (0 + 1)) with (2 # 1). lra. }
      destruct (rnd64_error _ r 0 Pos U ltac:(lia) Er) as [E1 E2].
      change (0 - 53)%Z with (-53)%Z in E1, E2. split; assumption.
    - assert (Z : inject_Z z / 100 == 0) by lra.
      rewrite (rnd64_proper _ _ Z), rnd64_0 in Er.
      assert (r = 0) by congruence. subst r.
      rewrite pow2_m53. split; lra. }
  destruct Rerr as [Re1 Re2].
  destruct (roundOffset_unit r R0 R1)
    as (p' & r' & z' & Em & Pe1 & Pe2 & _ & _ & F1 & F2 & _ & Rr & Er' & _).
  rewrite Rr, <- Er'. rewrite <- Er.
  assert (D : inject_Z z / 100 == inject_Z z * (1 # 100)) by reflexivity.
  rewrite D in Re1, Re2. rewrite pow2_m53 in Re1, Re2.
  rewrite pow2_m47 in Pe1, Pe2.
  assert (z' = z).
  { assert (L1 : inject_Z z' < inject_Z z + 1) by lra.
    assert (L2 : inject_Z z < inject_Z z' + 1) by lra.
    change (inject_Z z + 1) with (inject_Z z + inject_Z 1) in L1.
    change (inject_Z z' + 1) with (inject_Z z' + inject_Z 1) in L2.
    rewrite <- (inject_Z_plus z 1) in L1. rewrite <- (inject_Z_plus z' 1) in L2.
    rewrite <- Zlt_Qlt in L1, L2. lia. }
  subst z'. reflexivity.
Qed.

Lemma le_NegInf_rnd64 (q : Q) : le NegInf (rnd64 q) = true.
Proof.
  destruct (rnd64_cases q) as [[_ ->]|[[_ ->]|[_ ->]]]; [reflexivity| |];
    match goal with |- context [if ?c then _ else _] => destruct c end;
    reflexivity.
Qed.

Lemma le_rnd64_PosInf (q : Q) : le (rnd64 q) PosInf = true.
Proof.
  destruct (rnd64_cases q) as [[_ ->]|[[_ ->]|[_ ->]]]; [reflexivity| |];
    match goal with |- context [if ?c then _ else _] => destruct c end;
    reflexivity.
Qed.

Lemma round_hundredth_mono (a b : number) :
  le a b = true ->
  le (div64 (round a) (ofZ 100)) (div64 (round b) (ofZ 100)) = true.
Proof.
  intros H. destruct a as [x| | |], b as [y| | |]; simpl in H;
    try discriminate; cbn [round].
  - rewrite !div64_100. apply rnd64_mono.
    apply Qle_bool_iff in H.
    assert (F : (Qfloor (x + (1 # 2)) <= Qfloor (y + (1 # 2)))%Z)
      by (apply Qfloor_resp_le; lra).
    rewrite Zle_Qle in F.
    apply Qmult_le_r; [reflexivity|exact F].
  - rewrite div64_100. apply le_rnd64_PosInf.
  - reflexivity.
  - rewrite div64_100. apply le_NegInf_rnd64.
  - reflexivity.
  - reflexivity.
Qed.

Lemma roundOffset_mono (q q' : Q) :
  q <= q' ->
  le (SubTimelineBuilder.roundOffset (Fin q) 3)
     (SubTimelineBuilder.roundOffset (Fin q') 3) = true.
Proof.
  intros H. rewrite !roundOffset_unfold. apply round_hundredth_mono.
  rewrite !mul64_100. apply rnd64_mono. rewrite !Qred_correct. lra.
Qed.

Lemma pow2_m50 : pow2 (-50) == 1 # 1125899906842624.
Proof. reflexivity. Qed.

(** A rounded offset is within 0.005 of the offset, up to the rounding
    of the binary64 operations. *)
Lemma roundOffset_close (q : Q) :
  0 <= q -> q <= 1 ->
  exists r,
    SubTimelineBuilder.roundOffset (Fin q) 3 = Fin r
    /\ q - (1 # 200) - pow2 (-50) <= r
    /\ r <= q + (1 # 200) + pow2 (-50)
    /\ 0 <= r /\ r <= 1.
Proof.
  intros H0 H1.
  destruct (roundOffset_unit q H0 H1)
    as (p & r & z & _ & Pe1 & Pe2 & _ & _ & F1 & F2 & _ & Rr & _ & Re1 & Re2
        & R0 & R1).
  exists r. split; [exact Rr|].
  assert (D : inject_Z z / 100 == inject_Z z * (1 # 100)) by reflexivity.
  rewrite D in Re1, Re2. rewrite pow2_m53 in Re1, Re2.
  rewrite pow2_m47 in Pe1, Pe2. rewrite pow2_m50.
  repeat split; lra.
Qed.

End Binary64.

(** ** Stretching a sub-timeline *)

Lemma offsetOf_copy (kf : StyleData) :
  SubTimelineBuilder.offsetOf (copyStyles kf [] false []) = SubTimelineBuilder.offsetOf kf.
Proof.
  unfold SubTimelineBuilder.offsetOf. simpl. rewrite get_copyObj. reflexivity.
Qed.

Lemma add64_comm (a b : number) : add64 a b = add64 b a.
Proof. unfold add64. rewrite add_comm. reflexivity. Qed.

(** What the loop of the stretch makes of a keyframe with offset [o]. *)
Lemma warp_spec (del dur total : number) (kf : StyleData) (o : number) :
  SubTimelineBuilder.offsetOf kf = Some o ->
  SubTimelineBuilder.warp del dur total kf
  = Some (set "offset" (VNum (warped del dur total o))
            (copyStyles kf [] false [])).
Proof.
  intros H. unfold SubTimelineBuilder.warp. rewrite offsetOf_copy, H. reflexivity.
Qed.

Lemma warpAll_spec (del dur total : number) (rest : list StyleData) :
  Forall (fun kf => SubTimelineBuilder.offsetOf kf <> None) rest ->
  exists out,
    SubTimelineBuilder.warpAll del dur total rest = Some out
    /\ Forall2
         (fun kf kf' =>
            exists o,
              SubTimelineBuilder.offsetOf kf = Some o
              /\ kf' = set "offset" (VNum (warped del dur total o))
                         (copyStyles kf [] false []))
         rest out.
Proof.
  induction 1 as [|kf rest Hkf _ IH].
  - exists []. split; [reflexivity|constructor].
  - destruct IH as [out [E F]].
    destruct (SubTimelineBuilder.offsetOf kf) as [o|] eqn:O; [|contradiction].
    eexists. simpl. rewrite (warp_spec _ _ _ _ _ O), E. split; [reflexivity|].
    constructor; [|exact F].
    exists o. split; [exact O|reflexivity].
Qed.

(** The stretch of a sub-timeline with the flag and a non-zero delay. *)
Lemma stretch_spec (el : element) (sb : SubTimeline) (first : StyleData)
    (rest : list StyleData) :
  _stretchStartingKeyframe sb = true ->
  truthy (delay (sub_timings sb)) = true ->
  sub_keyframes sb = first :: rest ->
  Forall (fun kf => SubTimelineBuilder.offsetOf kf <> None) rest ->
  exists out,
    SubTimelineBuilder.buildKeyframes el sb
    = Some (createTimelineInstruction el
              (set "offset" (VNum (ofZ 0)) (copyStyles first [] false [])
               :: set "offset"
                    (VNum (SubTimelineBuilder.roundOffset
                             (div64 (delay (sub_timings sb))
                                (add64 (delay (sub_timings sb))
                                   (duration (sub_timings sb)))) 3))
                    (copyStyles first [] false [])
               :: out)
              (sub_preStyleProps sb) (sub_postStyleProps sb)
              (add64 (delay (sub_timings sb)) (duration (sub_timings sb)))
              (ofZ 0) (Some EmptyString) true)
    /\ Forall2
         (fun kf kf' =>
            exists o,
              SubTimelineBuilder.offsetOf kf = Some o
              /\ kf' = set "offset"
                         (VNum (SubTimelineBuilder.roundOffset
                                  (div64 (add64 (delay (sub_timings sb))
                                            (mul64 o (duration (sub_timings sb))))
                                     (add64 (delay (sub_timings sb))
                                        (duration (sub_timings sb)))) 3))
                         (copyStyles kf [] false []))
         rest out.
Proof.
  intros S T K F.
  destruct (warpAll_spec (delay (sub_timings sb)) (duration (sub_timings sb))
              (add64 (duration (sub_timings sb)) (delay (sub_timings sb)))
              rest F) as [out [E W]].
  exists out. unfold SubTimelineBuilder.buildKeyframes.
  rewrite S, T, K. simpl. rewrite E.
  rewrite (add64_comm (delay (sub_timings sb)) (duration (sub_timings sb))).
  split; [reflexivity|exact W].
Qed.

(** ** Stagger *)




(** ** Reasoning rules for the monad *)

Section Rules.
Context {A B : Type}.




End Rules.



(** ** The store under updates of one builder *)

Lemma update_nth_length {A : Type} (i : nat) (f : A -> A) (l : list A) :
  length (update_nth i f l) = length l.
Proof.
  revert i. induction l as [|x l IH]; intros [|i]; simpl; auto.
Qed.

Lemma nth_error_update_nth_same {A : Type} (i : nat) (f : A -> A) (l : list A) :
  nth_error (update_nth i f l) i = option_map f (nth_error l i).
Proof.
  revert i. induction l as [|x l IH]; intros [|i]; simpl; auto.
Qed.

Lemma nth_error_update_nth_other {A : Type} (i j : nat) (f : A -> A)
    (l : list A) :
  i <> j -> nth_error (update_nth i f l) j = nth_error l j.
Proof.
  revert i j. induction l as [|x l IH]; intros [|i] [|j] N; simpl; auto.
  contradiction.
Qed.

Section Holds.
Variables (n : nat) (t : nat).





End Holds.

(** ** Keyframes under writes *)

Lemma kf_get_update_same (k : number) (f : StyleData -> StyleData)
    (kfs : list (number * StyleData)) :
  kf_get k (kf_update k f kfs) = option_map f (kf_get k kfs).
Proof.
  induction kfs as [|[t' kf] r IH]; simpl; [reflexivity|].
  destruct (sameValueZero k t') eqn:E; simpl; rewrite E; auto.
Qed.

Lemma kf_get_update_defined (k k' : number) (f : StyleData -> StyleData)
    (kfs : list (number * StyleData)) :
  kf_get k kfs <> None -> kf_get k (kf_update k' f kfs) <> None.
Proof.
  induction kfs as [|[t' kf] r IH]; simpl; [auto|].
  destruct (sameValueZero k' t'); simpl;
    destruct (sameValueZero k t'); auto; discriminate.
Qed.

Lemma cursorAt_kf_write (k : number) (g : nat) (r : KeyframeRef)
    (prop : string) (v : value) (b : TimelineBuilder) :
  cursorAt k g b -> cursorAt k g (kf_write r prop v b).
Proof.
  intros [C [D G]]. destruct r as [|k']; simpl; [repeat split; assumption|].
  repeat split; try assumption. simpl. apply kf_get_update_defined. exact D.
Qed.






(** ** [setStyles] on the keyframe of an empty step *)

Section SetStyles.
Import TimelineBuilderMethods.
Variables (n t g : nat) (k : number).
Hypothesis owner_in_store : (g < n)%nat.









End SetStyles.



(* ================================================================== *)
(** * Further properties *)

(** ** Copying and merging style maps *)

Lemma assign_fold_get (look : string -> option value) (ks : list string)
    (dest : StyleData) (k : string) :
  get k (fold_left (fun d prop => match look prop with
                                  | Some v => set prop v d
                                  | None => d
                                  end) ks dest)
  = if existsb (String.eqb k) ks
    then match look k with Some v => Some v | None => get k dest end
    else get k dest.
Proof.
  revert dest. induction ks as [|p ks IH]; intros dest; simpl; [reflexivity|].
  rewrite IH. destruct (String.eqb k p) eqn:E; simpl.
  - apply String.eqb_eq in E. subst p.
    destruct (look k) as [v|] eqn:G.
    + rewrite get_set_same. destruct (existsb _ ks); reflexivity.
    + destruct (existsb _ ks); reflexivity.
  - assert (k <> p) as N by (intros ->; rewrite String.eqb_refl in E; discriminate).
    destruct (look p) as [v|]; [rewrite (get_set_other _ _ _ _ N)|]; reflexivity.
Qed.

Lemma get_in_keys {A : Type} (k : string) (o : obj A) :
  existsb (String.eqb k) (keys o) = true -> get k o <> None.
Proof.
  induction o as [|[k' v'] r IH]; simpl; [discriminate|].
  destruct (String.eqb k k'); simpl; [discriminate|exact IH].
Qed.

Lemma existsb_app_false {A : Type} (f : A -> bool) (l1 l2 : list A) :
  existsb f (l1 ++ l2) = false -> existsb f l1 = false /\ existsb f l2 = false.
Proof.
  rewrite existsb_app. apply orb_false_iff.
Qed.

Lemma getP_not_forIn (k : string) (own proto : StyleData) :
  existsb (String.eqb k) (forInKeys own proto) = false -> getP k own proto = None.
Proof.
  unfold forInKeys. intros H. apply existsb_app_false in H as [H1 H2].
  unfold getP. rewrite (get_not_in_keys _ _ H1).
  destruct (existsb (String.eqb k) (keys proto)) eqn:E.
  - exfalso. apply existsb_exists in E as [x [Hin Hx]].
    apply String.eqb_eq in Hx. subst x.
    assert (existsb (String.eqb k)
              (filter (fun k0 => negb (has k0 own)) (keys proto)) = true) as C.
    { apply existsb_exists. exists k. split; [|apply String.eqb_refl].
      apply filter_In. split; [exact Hin|].
      unfold has. rewrite (get_not_in_keys _ _ H1). reflexivity. }
    rewrite C in H2. discriminate.
  - apply get_not_in_keys. exact E.
Qed.

Lemma get_copyObj_into (o dest : StyleData) (k : string) :
  get k (copyObj o dest)
  = match get k o with Some v => Some v | None => get k dest end.
Proof.
  unfold copyObj. rewrite assign_fold_get.
  destruct (existsb (String.eqb k) (keys o)) eqn:E; [reflexivity|].
  rewrite (get_not_in_keys _ _ E). reflexivity.
Qed.

(** X1.  Reading a property of the result of [copyStyles]: without the
    prototype it is the own value of the source, with the prototype it is
    the value the source has along its prototype chain (own first, then
    inherited), and where the source has none it is the value the
    destination had. *)
Theorem copyStyles_lookup :
  forall (own proto dest : StyleData) (k : string),
    get k (copyStyles own proto false dest)
    = match get k own with Some v => Some v | None => get k dest end
    /\ get k (copyStyles own proto true dest)
       = match getP k own proto with Some v => Some v | None => get k dest end.
Proof.
  intros own proto dest k. split.
  - apply get_copyObj_into.
  - unfold copyStyles. rewrite assign_fold_get.
    destruct (existsb (String.eqb k) (forInKeys own proto)) eqn:E; [reflexivity|].
    rewrite (getP_not_forIn _ _ _ E). reflexivity.
Qed.



(** ** Variable bindings of a context *)

Lemma get_filter_key {A : Type} (f : string -> bool) (k : string) (l : obj A) :
  get k (filter (fun p => f (fst p)) l) = if f k then get k l else None.
Proof.
  induction l as [|[k' v] r IH]; simpl.
  - destruct (f k); reflexivity.
  - destruct (f k') eqn:F; simpl.
    + destruct (String.eqb k k') eqn:E.
      * apply String.eqb_eq in E. subst k'. rewrite F. reflexivity.
      * exact IH.
    + destruct (String.eqb k k') eqn:E.
      * apply String.eqb_eq in E. subst k'. rewrite F in IH |- *. exact IH.
      * exact IH.
Qed.

(** X3.  [_copyLocals] keeps exactly the bindings whose name starts with
    [$], with their values; every other binding of the context is
    dropped. *)
Theorem copyLocals_keeps_scoped :
  forall (l : Locals) (k : string),
    get k (Context._copyLocals l) = if is_scoped k then get k l else None.
Proof.
  intros l k. unfold Context._copyLocals.
  apply (get_filter_key is_scoped k l).
Qed.




(** ** Variable interpolation *)

Lemma str_app_assoc (a b c : string) : ((a ++ b) ++ c = a ++ (b ++ c))%string.
Proof.
  induction a as [|x a IH]; simpl; [reflexivity|]. rewrite IH. reflexivity.
Qed.

Lemma str_app_nil_r (a : string) : (a ++ EmptyString = a)%string.
Proof.
  induction a as [|x a IH]; simpl; [reflexivity|]. rewrite IH. reflexivity.
Qed.

Lemma no_dollar_app (a b : string) :
  no_dollar (a ++ b) = no_dollar a && no_dollar b.
Proof.
  unfold no_dollar. induction a as [|x a IH]; simpl; [reflexivity|].
  rewrite IH. apply andb_assoc.
Qed.

Lemma replace_simple_no_dollar (locals : Locals) (s out : string)
    (errs : list string) :
  no_dollar s = true ->
  replace_simple locals s None out errs = ((out ++ s)%string, errs).
Proof.
  revert out. induction s as [|c s IH]; intros out H; simpl.
  - rewrite str_app_nil_r. reflexivity.
  - unfold no_dollar in H. simpl in H. apply andb_true_iff in H as [Hc Hs].
    apply negb_true_iff in Hc. rewrite Hc. rewrite (IH _ Hs).
    rewrite str_app_assoc. reflexivity.
Qed.

Lemma replace_advanced_no_dollar (locals : Locals) (s out : string)
    (errs : list string) :
  no_dollar s = true ->
  replace_advanced locals s Outside out errs = ((out ++ s)%string, errs).
Proof.
  revert out. induction s as [|c s IH]; intros out H; simpl.
  - reflexivity.
  - unfold no_dollar in H. simpl in H. apply andb_true_iff in H as [Hc Hs].
    apply negb_true_iff in Hc. rewrite Hc. rewrite (IH _ Hs).
    rewrite str_app_assoc. reflexivity.
Qed.

Lemma interpolateLocals_no_dollar (v : value) (locals : Locals)
    (errs : list string) :
  no_dollar (value_toString v) = true ->
  interpolateLocals v locals errs = (v, errs).
Proof.
  intros H. unfold interpolateLocals.
  rewrite (replace_simple_no_dollar _ _ _ _ H). simpl.
  rewrite (replace_advanced_no_dollar _ _ _ _ H). simpl.
  rewrite String.eqb_refl. reflexivity.
Qed.

Lemma digit_not_dollar (m : nat) :
  (m < 10)%nat -> negb (is_char 36 (chr (48 + m))) = true.
Proof.
  intros H. unfold is_char, code, chr.
  rewrite nat_ascii_embedding by lia.
  apply negb_true_iff. apply Nat.eqb_neq. lia.
Qed.

Lemma nat_digits_no_dollar (fuel : nat) (n : N) (acc : string) :
  no_dollar acc = true -> no_dollar (nat_digits fuel n acc) = true.
Proof.
  revert n acc. induction fuel as [|f IH]; intros n acc H;
    cbn [nat_digits]; [exact H|].
  assert (no_dollar (String (chr (48 + N.to_nat (n mod 10))) acc) = true) as H'.
  { unfold no_dollar in *. cbn [forallb_str].
    rewrite H, digit_not_dollar; [reflexivity|].
    pose proof (N.mod_upper_bound n 10). lia. }
  destruct (n / 10 =? 0)%N; [exact H'|]. apply IH. exact H'.
Qed.

Lemma frac_digits_no_dollar (fuel : nat) (r d : N) :
  (r < d)%N -> no_dollar (frac_digits fuel r d) = true.
Proof.
  revert r. induction fuel as [|f IH]; intros r H;
    cbn [frac_digits]; [reflexivity|].
  destruct (r =? 0)%N; [reflexivity|].
  unfold no_dollar in *. cbn [forallb_str]. rewrite digit_not_dollar.
  - cbn [andb]. apply IH. apply N.mod_upper_bound. lia.
  - assert (10 * r / d < 10)%N by (apply N.Div0.div_lt_upper_bound; lia). lia.
Qed.

Lemma number_to_string_no_dollar (n : number) :
  no_dollar (number_to_string n) = true.
Proof.
  destruct n as [q| | |]; try reflexivity.
  unfold number_to_string.
  rewrite !no_dollar_app.
  apply andb_true_iff. split; [destruct (Qnum (Qred q) <? 0)%Z; reflexivity|].
  apply andb_true_iff. split.
  - apply nat_digits_no_dollar. reflexivity.
  - match goal with |- context [frac_digits ?f ?r ?d] =>
      pose proof (frac_digits_no_dollar f r d) as F end.
    destruct (is_empty _); [reflexivity|].
    rewrite no_dollar_app. rewrite F; [reflexivity|].
    apply N.mod_upper_bound. discriminate.
Qed.

(** X5.  A value whose text has no [$] comes back from [interpolateLocals]
    as it is, with the error list untouched; every number is such a value,
    so numbers stay numbers whatever the bindings are. *)
Theorem interpolateLocals_leaves_plain_values :
  (forall (s : string) (locals : Locals) (errs : list string),
      no_dollar s = true ->
      interpolateLocals (VStr s) locals errs = (VStr s, errs))
  /\ (forall (n : number) (locals : Locals) (errs : list string),
         interpolateLocals (VNum n) locals errs = (VNum n, errs)).
Proof.
  split.
  - intros s locals errs H. apply interpolateLocals_no_dollar. exact H.
  - intros n locals errs. apply interpolateLocals_no_dollar.
    apply number_to_string_no_dollar.
Qed.

Lemma interpolateLocals_leaves_plain_values_witness :
  interpolateLocals (VStr "translateX(10px)") [("$x", VStr "1")] ["earlier"]
  = (VStr "translateX(10px)", ["earlier"]).
Proof.
  destruct interpolateLocals_leaves_plain_values as [H _].
  apply H. reflexivity.
Defined.

Lemma replace_match_appends (p sfx : nat) (exp : string) (locals : Locals) :
  exists r extra, forall errs,
    replace_match p sfx exp locals errs = (r, errs ++ extra).
Proof.
  unfold replace_match. destruct (get _ locals) as [v|].
  - exists (value_toString v), []. intros errs. rewrite app_nil_r. reflexivity.
  - eexists EmptyString, [_]. intros errs. reflexivity.
Qed.

Lemma replace_simple_appends (locals : Locals) (s : string) :
  forall (pending : option string) (out : string),
  exists r extra, forall errs,
    replace_simple locals s pending out errs = (r, errs ++ extra).
Proof.
  induction s as [|c s IH]; intros pending out.
  - destruct pending as [name|]; simpl.
    + destruct (is_empty name).
      * eexists _, []. intros errs. rewrite app_nil_r. reflexivity.
      * destruct (replace_match_appends 1 0 ("$" ++ name)%string locals)
          as [r [x Hx]].
        exists (out ++ r)%string, x. intros errs. rewrite Hx. reflexivity.
    + eexists _, []. intros errs. rewrite app_nil_r. reflexivity.
  - destruct pending as [name|]; simpl.
    + destruct (is_word c); [apply IH|].
      destruct (is_empty name).
      * destruct (is_char 36 c); apply IH.
      * destruct (replace_match_appends 1 0 ("$" ++ name)%string locals)
          as [r [x Hx]].
        destruct (is_char 36 c).
        -- destruct (IH (Some EmptyString) (out ++ r)%string) as [r' [x' Hx']].
           exists r', (x ++ x'). intros errs. rewrite Hx, Hx', app_assoc.
           reflexivity.
        -- destruct (IH None ((out ++ r) ++ str1 c)%string) as [r' [x' Hx']].
           exists r', (x ++ x'). intros errs. rewrite Hx, Hx', app_assoc.
           reflexivity.
    + destruct (is_char 36 c); apply IH.
Qed.

Lemma replace_advanced_appends (locals : Locals) (s : string) :
  forall (st : BraceState) (out : string),
  exists r extra, forall errs,
    replace_advanced locals s st out errs = (r, errs ++ extra).
Proof.
  induction s as [|c s IH]; intros st out.
  - eexists _, []. intros errs. simpl. rewrite app_nil_r. reflexivity.
  - destruct st as [| |name]; simpl.
    + destruct (is_char 36 c); apply IH.
    + destruct (is_char 123 c); [apply IH|]. destruct (is_char 36 c); apply IH.
    + destruct (is_varname_char c); [apply IH|].
      destruct (is_char 125 c && negb (is_empty name)).
      * destruct (replace_match_appends 2 1 ("${" ++ name ++ "}")%string locals)
          as [r [x Hx]].
        destruct (IH Outside (out ++ r)%string) as [r' [x' Hx']].
        exists r', (x ++ x'). intros errs. rewrite Hx, Hx', app_assoc.
        reflexivity.
      * destruct (is_char 36 c); apply IH.
Qed.

Lemma interpolateLocals_appends (v : value) (locals : Locals) :
  exists v' extra, forall errs,
    interpolateLocals v locals errs = (v', errs ++ extra).
Proof.
  unfold interpolateLocals.
  destruct (replace_simple_appends locals (value_toString v) None EmptyString)
    as [r1 [x1 H1]].
  destruct (replace_advanced_appends locals r1 Outside EmptyString)
    as [r2 [x2 H2]].
  exists (if String.eqb r2 (value_toString v) then v else VStr r2), (x1 ++ x2).
  intros errs. rewrite H1, H2, app_assoc. reflexivity.
Qed.

(** X6.  The functions of [util.ts] that take the error list only append to
    it, and what they return does not depend on the errors collected
    before: for [interpolateLocals], [parseTimeExpression] and
    [resolveTiming] alike the result is a fixed value and the given errors
    followed by a fixed list of new ones; with the allow-negative flag a
    number adds none. *)
Theorem errors_are_only_appended :
  (forall (v : value) (locals : Locals),
      exists v' extra, forall errs,
        interpolateLocals v locals errs = (v', errs ++ extra))
  /\ (forall (exp : value) (allow : bool),
         exists t extra, forall errs,
           parseTimeExpression exp errs allow = (t, errs ++ extra))
  /\ (forall (timings : TimingInput) (allow : bool),
         exists t extra, forall errs,
           resolveTiming timings errs allow = (t, errs ++ extra))
  /\ (forall (n : number) (errs : list string),
         parseTimeExpression (VNum n) errs true
         = (mkTimings n (ofZ 0) (Some EmptyString), errs)).
Proof.
  assert (forall exp allow, exists t extra, forall errs,
             parseTimeExpression exp errs allow = (t, errs ++ extra)) as P.
  { intros exp allow. unfold parseTimeExpression.
    assert (forall dur del eas, exists t extra, forall errs,
               (mkTimings dur del eas,
                if negb allow then check_negative exp dur del errs else errs)
               = (t, errs ++ extra)) as F.
    { intros dur del eas. destruct allow; simpl.
      - eexists _, []. intros errs. rewrite app_nil_r. reflexivity.
      - eexists _, _. intros errs. rewrite check_negative_spec. reflexivity. }
    destruct exp as [n|s]; [apply F|].
    destruct (timing_regex s); [apply F|].
    eexists _, [_]. intros errs. reflexivity. }
  repeat apply conj.
  - apply interpolateLocals_appends.
  - exact P.
  - intros [exp|t] allow; simpl; [apply P|].
    exists t, []. intros errs. rewrite app_nil_r. reflexivity.
  - intros n errs. reflexivity.
Qed.






(** ** Units of a timing expression *)

Lemma span_stop (p : ascii -> bool) (a : string) (c : ascii) (r : string) :
  forallb_str p a = true -> p c = false ->
  span p (a ++ String c r) = (a, String c r).
Proof.
  intros H C. induction a as [|x a IH]; simpl.
  - rewrite C. reflexivity.
  - simpl in H. apply andb_true_iff in H as [Hx Ha]. rewrite Hx, (IH Ha).
    reflexivity.
Qed.

Lemma forallb_str_impl (p q : ascii -> bool) (s : string) :
  (forall c, p c = true -> q c = true) ->
  forallb_str p s = true -> forallb_str q s = true.
Proof.
  intros I. induction s as [|c s IH]; simpl; [reflexivity|].
  intros H. apply andb_true_iff in H as [Hc Hs].
  rewrite (I c Hc), (IH Hs). reflexivity.
Qed.

Lemma digit_not_minus (c : ascii) : is_digit c = true -> is_char 45 c = false.
Proof.
  unfold is_digit, between, is_char. intros H.
  apply andb_true_iff in H as [L _]. apply Nat.leb_le in L.
  apply Nat.eqb_neq. lia.
Qed.

(** The number at the head of a string of digits followed by a unit. *)
Lemma match_number_digits (ds : string) (c : ascii) (r : string) :
  forallb_str is_digit ds = true -> ds <> EmptyString ->
  is_numchar c = false ->
  match_number (ds ++ String c r) = Some (ds, String c r).
Proof.
  intros D N C. unfold match_number.
  destruct ds as [|d ds]; [contradiction|].
  pose proof D as D'. simpl in D'. apply andb_true_iff in D' as [Hd _].
  change ((String d ds ++ String c r)%string)
    with (String d (ds ++ String c r)).
  cbv beta iota. rewrite (digit_not_minus d Hd).
  change (String d (ds ++ String c r)) with ((String d ds ++ String c r)%string).
  rewrite (span_stop is_numchar (String d ds) c r); [reflexivity| |exact C].
  apply (forallb_str_impl is_digit); [|exact D].
  intros x Hx. unfold is_numchar. rewrite Hx. reflexivity.
Qed.

(** X8.  For a string of digits [ds], ["<ds>s"] resolves to
    [parseFloat(ds) * 1000] milliseconds and ["<ds>ms"] to [parseFloat(ds)].
    The expression of [parseTimeExpression] is case-insensitive but the unit
    conversion is not, so ["<ds>S"] is accepted and read as milliseconds;
    [resolveTimingValue], whose expression is case-sensitive, does not
    match it and gives 0. *)
Theorem unit_conversion_is_case_sensitive :
  forall (ds : string) (errs : list string) (allow : bool),
    forallb_str is_digit ds = true ->
    ds <> EmptyString ->
    fst (parseTimeExpression (VStr (ds ++ "s")) errs allow)
    = mkTimings (parseFloat ds * ofZ 1000)%num (ofZ 0) (Some EmptyString)
    /\ fst (parseTimeExpression (VStr (ds ++ "ms")) errs allow)
       = mkTimings (parseFloat ds) (ofZ 0) (Some EmptyString)
    /\ fst (parseTimeExpression (VStr (ds ++ "S")) errs allow)
       = mkTimings (parseFloat ds) (ofZ 0) (Some EmptyString)
    /\ resolveTimingValue (VStr (ds ++ "s")) = (parseFloat ds * ofZ 1000)%num
    /\ resolveTimingValue (VStr (ds ++ "ms")) = parseFloat ds
    /\ resolveTimingValue (VStr (ds ++ "S")) = ofZ 0.
Proof.
  intros ds errs allow D N.
  assert (forall c r, is_numchar c = false ->
            match_number (ds ++ String c r) = Some (ds, String c r)) as M.
  { intros c r C. apply match_number_digits; assumption. }
  assert (forall u c r,
             u = String c r -> is_numchar c = false ->
             match_unit true u = Some (u, EmptyString) ->
             timing_regex (ds ++ u) = Some (mkMatch ds u None None)) as R.
  { intros u c r -> C U. unfold timing_regex. rewrite (M c r C), U. reflexivity. }
  repeat apply conj.
  - unfold parseTimeExpression.
    rewrite (R "s" "s"%char EmptyString eq_refl eq_refl eq_refl). reflexivity.
  - unfold parseTimeExpression.
    rewrite (R "ms" "m"%char "s" eq_refl eq_refl eq_refl). reflexivity.
  - unfold parseTimeExpression.
    rewrite (R "S" "S"%char EmptyString eq_refl eq_refl eq_refl). reflexivity.
  - unfold resolveTimingValue, timing_value_regex.
    rewrite (M "s"%char EmptyString eq_refl). reflexivity.
  - unfold resolveTimingValue, timing_value_regex.
    rewrite (M "m"%char "s" eq_refl). reflexivity.
  - unfold resolveTimingValue, timing_value_regex.
    rewrite (M "S"%char EmptyString eq_refl). reflexivity.
Qed.

Lemma unit_conversion_is_case_sensitive_witness :
  fst (parseTimeExpression (VStr "2s") [] false)
  = mkTimings (ofZ 2000) (ofZ 0) (Some EmptyString)
  /\ fst (parseTimeExpression (VStr "2S") [] false)
     = mkTimings (ofZ 2) (ofZ 0) (Some EmptyString)
  /\ resolveTimingValue (VStr "2S") = ofZ 0.
Proof.
  destruct (unit_conversion_is_case_sensitive "2" [] false eq_refl)
    as [H1 [_ [H3 [_ [_ H6]]]]]; [discriminate|].
  split; [exact H1|]. split; [exact H3|exact H6].
Defined.

(** ** Moving the cursor of a builder *)

Lemma kf_get_app_some (k : number) (kfs extra : list (number * StyleData))
    (kf : StyleData) :
  kf_get k kfs = Some kf -> kf_get k (kfs ++ extra) = Some kf.
Proof.
  induction kfs as [|[t' x] r IH]; simpl; [discriminate|].
  destruct (sameValueZero k t'); auto.
Qed.

Lemma kf_get_app_new (k : number) (kfs : list (number * StyleData))
    (kf : StyleData) :
  kf_get k kfs = None -> kf_get k (kfs ++ [(k, kf)]) = Some kf.
Proof.
  induction kfs as [|[t' x] r IH]; simpl.
  - rewrite sameValueZero_refl. reflexivity.
  - destruct (sameValueZero k t'); [discriminate|exact IH].
Qed.

(** X9.  [forwardTime(t)] puts the cursor on the keyframe held under [t] and
    remembers the former one as previous keyframe.  If a keyframe is held
    under [t] already, the keyframes are left as they are; otherwise one
    empty keyframe is added at the end.  Either way every keyframe that was
    there is still there, with its content, and the start time does not
    change. *)
Theorem forwardTime_keeps_keyframes :
  forall (t : number) (b : TimelineBuilder),
    let b' := forwardTime t b in
    tl_duration b' = t
    /\ startTime b' = startTime b
    /\ _currentKeyframe b' = AtTime t
    /\ _previousKeyframe b' = _currentKeyframe b
    /\ kf_get t (_keyframes b') <> None
    /\ (forall k kf, kf_get k (_keyframes b) = Some kf ->
                     kf_get k (_keyframes b') = Some kf)
    /\ (kf_get t (_keyframes b) <> None -> _keyframes b' = _keyframes b)
    /\ (kf_get t (_keyframes b) = None ->
        _keyframes b' = _keyframes b ++ [(t, [])]
        /\ kf_own (_currentKeyframe b') b' = []).
Proof.
  intros t b b'. unfold b', forwardTime, _loadKeyframe.
  cbn [tl_duration with_duration _keyframes _currentKeyframe].
  destruct (kf_get t (_keyframes b)) as [kf0|] eqn:E; cbn.
  - repeat split; intros; try reflexivity; try congruence.
  - repeat split; intros; try reflexivity; try congruence;
      try (apply kf_get_app_some; assumption);
      rewrite (kf_get_app_new _ _ _ E); try reflexivity; discriminate.
Qed.

(** X10.  [snapshotCurrentStyles()] makes every local style an own property
    of the keyframe under the cursor, overriding what the keyframe had for
    it; the other properties of that keyframe stay, and so do the other
    keyframes. *)
Theorem snapshot_copies_local_styles :
  forall (b : TimelineBuilder) (k : number) (kf : StyleData) (prop : string),
    _currentKeyframe b = AtTime k ->
    kf_get k (_keyframes b) = Some kf ->
    get prop (kf_own (_currentKeyframe (snapshotCurrentStyles b))
                (snapshotCurrentStyles b))
    = match get prop (_localTimelineStyles b) with
      | Some v => Some v
      | None => get prop kf
      end
    /\ map fst (_keyframes (snapshotCurrentStyles b)) = map fst (_keyframes b)
    /\ _localTimelineStyles (snapshotCurrentStyles b) = _localTimelineStyles b.
Proof.
  intros b k kf prop C G. unfold snapshotCurrentStyles. rewrite C.
  cbn [_currentKeyframe with_keyframes]. rewrite C.
  unfold kf_own. cbn [_keyframes with_keyframes _localTimelineStyles].
  rewrite kf_get_update_same, G. cbn [option_map].
  split; [apply get_copyObj_into|]. split; [|reflexivity].
  clear. induction (_keyframes b) as [|[t' x] r IH]; simpl; [reflexivity|].
  destruct (sameValueZero k t'); simpl; [reflexivity|]. rewrite IH. reflexivity.
Qed.

Lemma snapshot_copies_local_styles_witness :
  get "width"
    (kf_own (AtTime zero)
       (snapshotCurrentStyles
          (with_localTimelineStyles [("width", num 100)]
             (initialBuilder root zero 0 None))))
  = Some (num 100).
Proof.
  destruct (snapshot_copies_local_styles
              (with_localTimelineStyles [("width", num 100)]
                 (initialBuilder root zero 0 None))
              zero [] "width" eq_refl eq_refl) as [H _].
  exact H.
Defined.

(** ** The pre- and post-style properties of an instruction *)

Lemma set_add_In (x y : string) (l : list string) :
  In x (set_add y l) <-> x = y \/ In x l.
Proof.
  unfold set_add. destruct (existsb (String.eqb y) l) eqn:E.
  - split; [auto|]. intros [->|H]; [|exact H].
    apply existsb_exists in E as [z [Hz Q]]. apply String.eqb_eq in Q.
    subst z. exact Hz.
  - rewrite in_app_iff. simpl. split.
    + intros [H|[H|[]]]; auto.
    + intros [H|H]; auto.
Qed.

Lemma NoDup_snoc (y : string) (l : list string) :
  NoDup l -> ~ In y l -> NoDup (l ++ [y]).
Proof.
  induction 1 as [|a l Ha _ IH]; intros N; simpl.
  - constructor; [intros []|constructor].
  - constructor.
    + rewrite in_app_iff. simpl. intros [H|[H|[]]]; [contradiction|].
      subst a. apply N. left. reflexivity.
    + apply IH. intros H. apply N. right. exact H.
Qed.

Lemma set_add_NoDup (y : string) (l : list string) :
  NoDup l -> NoDup (set_add y l).
Proof.
  intros H. unfold set_add. destruct (existsb (String.eqb y) l) eqn:E; [exact H|].
  apply NoDup_snoc; [exact H|]. intros Hin.
  assert (existsb (String.eqb y) l = true) as C.
  { apply existsb_exists. exists y. split; [exact Hin|apply String.eqb_refl]. }
  rewrite C in E. discriminate.
Qed.

Lemma cond_add_fold (c : string -> bool) (ks acc : list string) (x : string) :
  In x (fold_left (fun a y => if c y then set_add y a else a) ks acc)
  <-> In x acc \/ (In x ks /\ c x = true).
Proof.
  revert acc. induction ks as [|y ks IH]; intros acc; simpl.
  - split; [auto|]. intros [H|[[] _]]. exact H.
  - rewrite IH. destruct (c y) eqn:C.
    + rewrite set_add_In. split.
      * intros [[->|H]|[H1 H2]]; auto.
      * intros [H|[[->|H1] H2]]; auto.
    + split.
      * intros [H|[H1 H2]]; auto.
      * intros [H|[[->|H1] H2]]; auto. rewrite C in H2. discriminate.
Qed.

Lemma cond_add_fold_NoDup (c : string -> bool) (ks acc : list string) :
  NoDup acc ->
  NoDup (fold_left (fun a y => if c y then set_add y a else a) ks acc).
Proof.
  revert acc. induction ks as [|y ks IH]; intros acc H; simpl; [exact H|].
  apply IH. destruct (c y); [apply set_add_NoDup|]; exact H.
Qed.

Lemma record_sentinels_split (fk : StyleData) (ks pre post : list string) :
  fold_left
    (fun (pp : list string * list string) prop =>
       let '(p, q) := pp in
       match get prop fk with
       | Some v =>
           if loose_eq v PRE_STYLE then (set_add prop p, q)
           else if loose_eq v AUTO_STYLE then (p, set_add prop q)
           else (p, q)
       | None => (p, q)
       end) ks (pre, post)
  = (fold_left (fun a y => if isPreStyle fk y then set_add y a else a) ks pre,
     fold_left (fun a y => if isPostStyle fk y then set_add y a else a) ks post).
Proof.
  revert pre post. induction ks as [|y ks IH]; intros pre post; simpl;
    [reflexivity|].
  unfold isPreStyle at 2, isPostStyle at 2.
  destruct (get y fk) as [v|]; [|apply IH].
  destruct (loose_eq v PRE_STYLE); simpl; [apply IH|].
  destruct (loose_eq v AUTO_STYLE); apply IH.
Qed.

Lemma finalizeKeyframe_props (b : TimelineBuilder) (pre post : list string)
    (acc : list StyleData) (t : number) (kf : StyleData) :
  let fk := copyStyles kf (_backFill b) true [] in
  fst (finalizeKeyframe b (pre, post, acc) (t, kf))
  = (fold_left (fun a y => if isPreStyle fk y then set_add y a else a)
       (keys fk) pre,
     fold_left (fun a y => if isPostStyle fk y then set_add y a else a)
       (keys fk) post).
Proof.
  intros fk. unfold finalizeKeyframe. fold fk.
  rewrite record_sentinels_split. reflexivity.
Qed.

Lemma get_some_in_keys {A : Type} (k : string) (o : obj A) (v : A) :
  get k o = Some v -> In k (keys o).
Proof.
  induction o as [|[k' v'] r IH]; simpl; [discriminate|].
  destruct (String.eqb k k') eqn:E.
  - apply String.eqb_eq in E. auto.
  - intros H. right. apply IH. exact H.
Qed.

Lemma fold_finalize_props (b : TimelineBuilder)
    (kfs : list (number * StyleData)) :
  forall (pre post : list string) (acc : list StyleData) (x : string),
    let r := fst (fold_left (finalizeKeyframe b) kfs (pre, post, acc)) in
    (In x (fst r) <->
     In x pre \/
     exists t kf, In (t, kf) kfs
                  /\ isPreStyle (copyStyles kf (_backFill b) true []) x = true)
    /\ (In x (snd r) <->
        In x post \/
        exists t kf, In (t, kf) kfs
                     /\ isPostStyle (copyStyles kf (_backFill b) true []) x = true)
    /\ (NoDup pre -> NoDup (fst r))
    /\ (NoDup post -> NoDup (snd r)).
Proof.
  induction kfs as [|[t kf] kfs IH]; intros pre post acc x; cbn [fold_left].
  - cbn [fst snd]. repeat split; auto; intros [H|[t [kf [[] _]]]]; exact H.
  - pose proof (finalizeKeyframe_props b pre post acc t kf) as P.
    destruct (finalizeKeyframe b (pre, post, acc) (t, kf)) as [[pre1 post1] acc1].
    cbn [fst] in P. injection P as P1 P2.
    destruct (IH pre1 post1 acc1 x) as [I1 [I2 [N1 N2]]].
    set (fk := copyStyles kf (_backFill b) true []) in *.
    repeat split.
    + intros H. apply I1 in H as [H|[t' [kf' [Hin Hc]]]].
      * rewrite P1 in H. apply cond_add_fold in H as [H|[_ H]]; [auto|].
        right. exists t, kf. split; [left; reflexivity|exact H].
      * right. exists t', kf'. split; [right; exact Hin|exact Hc].
    + intros H. apply I1. destruct H as [H|[t' [kf' [[Q|Hin] Hc]]]].
      * left. rewrite P1. apply cond_add_fold. left. exact H.
      * injection Q as <- <-. left. rewrite P1. apply cond_add_fold. right.
        split; [|exact Hc]. unfold isPreStyle in Hc. fold fk in Hc.
        destruct (get x fk) eqn:G; [|discriminate].
        apply (get_some_in_keys _ _ _ G).
      * right. exists t', kf'. split; [exact Hin|exact Hc].
    + intros H. apply I2 in H as [H|[t' [kf' [Hin Hc]]]].
      * rewrite P2 in H. apply cond_add_fold in H as [H|[_ H]]; [auto|].
        right. exists t, kf. split; [left; reflexivity|exact H].
      * right. exists t', kf'. split; [right; exact Hin|exact Hc].
    + intros H. apply I2. destruct H as [H|[t' [kf' [[Q|Hin] Hc]]]].
      * left. rewrite P2. apply cond_add_fold. left. exact H.
      * injection Q as <- <-. left. rewrite P2. apply cond_add_fold. right.
        split; [|exact Hc]. unfold isPostStyle in Hc. fold fk in Hc.
        destruct (get x fk) eqn:G; [|discriminate].
        apply (get_some_in_keys _ _ _ G).
      * right. exists t', kf'. split; [exact Hin|exact Hc].
    + intros H. apply N1. rewrite P1. apply cond_add_fold_NoDup. exact H.
    + intros H. apply N2. rewrite P2. apply cond_add_fold_NoDup. exact H.
Qed.

Lemma loose_eq_PRE (v : value) : loose_eq v PRE_STYLE = true <-> v = PRE_STYLE.
Proof.
  unfold PRE_STYLE. destruct v as [n|s]; simpl.
  - split; discriminate.
  - rewrite String.eqb_eq. split; [intros ->; reflexivity|].
    intros H. injection H. auto.
Qed.

Lemma loose_eq_AUTO (v : value) : loose_eq v AUTO_STYLE = true <-> v = AUTO_STYLE.
Proof.
  unfold AUTO_STYLE. destruct v as [n|s]; simpl.
  - split; discriminate.
  - rewrite String.eqb_eq. split; [intros ->; reflexivity|].
    intros H. injection H. auto.
Qed.

Lemma isPreStyle_final (kf bf : StyleData) (x : string) :
  isPreStyle (copyStyles kf bf true []) x = true
  <-> getP x kf bf = Some PRE_STYLE.
Proof.
  unfold isPreStyle.
  destruct (copyStyles_lookup kf bf [] x) as [_ ->].
  destruct (getP x kf bf) as [v|]; simpl.
  - rewrite loose_eq_PRE. split; [intros ->; reflexivity|].
    intros H. injection H. auto.
  - split; discriminate.
Qed.

Lemma isPostStyle_final (kf bf : StyleData) (x : string) :
  isPostStyle (copyStyles kf bf true []) x = true
  <-> getP x kf bf = Some AUTO_STYLE.
Proof.
  unfold isPostStyle.
  destruct (copyStyles_lookup kf bf [] x) as [_ ->].
  destruct (getP x kf bf) as [v|]; simpl.
  - split.
    + intros H. apply andb_true_iff in H as [_ H].
      apply loose_eq_AUTO in H. subst v. reflexivity.
    + intros H. injection H as ->. reflexivity.
  - split; discriminate.
Qed.

(** X11.  In the instruction [buildKeyframes()] returns, a property is among
    the pre-style properties exactly when some keyframe of the builder has
    the sentinel [PRE] for it, as own value or else by the backfill, and
    among the post-style properties exactly when some keyframe has the
    sentinel [AUTO] for it in that way; neither list repeats a property. *)
Theorem buildKeyframes_style_props :
  forall (b : TimelineBuilder) (prop : string),
    (In prop (preStyleProps (buildKeyframes b)) <->
     exists t kf, In (t, kf) (_keyframes b)
                  /\ getP prop kf (_backFill b) = Some PRE_STYLE)
    /\ (In prop (postStyleProps (buildKeyframes b)) <->
        exists t kf, In (t, kf) (_keyframes b)
                     /\ getP prop kf (_backFill b) = Some AUTO_STYLE)
    /\ NoDup (preStyleProps (buildKeyframes b))
    /\ NoDup (postStyleProps (buildKeyframes b)).
Proof.
  intros b prop. unfold buildKeyframes.
  destruct (fold_finalize_props b (_keyframes b) [] [] [] prop)
    as [I1 [I2 [N1 N2]]].
  destruct (fold_left (finalizeKeyframe b) (_keyframes b) ([], [], []))
    as [[pre post] ks].
  cbn [fst snd preStyleProps postStyleProps] in *.
  repeat split.
  - intros H. apply I1 in H as [[]|[t [kf [Hin Hc]]]].
    exists t, kf. split; [exact Hin|]. apply isPreStyle_final. exact Hc.
  - intros [t [kf [Hin Hc]]]. apply I1. right. exists t, kf.
    split; [exact Hin|]. apply isPreStyle_final. exact Hc.
  - intros H. apply I2 in H as [[]|[t [kf [Hin Hc]]]].
    exists t, kf. split; [exact Hin|]. apply isPostStyle_final. exact Hc.
  - intros [t [kf [Hin Hc]]]. apply I2. right. exists t, kf.
    split; [exact Hin|]. apply isPostStyle_final. exact Hc.
  - apply N1. constructor.
  - apply N2. constructor.
Qed.

(** ** Offsets *)

Lemma Qfloor_unique (x : Q) (z : Z) :
  (inject_Z z <= x)%Q -> (x < inject_Z (z + 1))%Q -> Qfloor x = z.
Proof.
  intros L U. pose proof (Qfloor_le x) as F1. pose proof (Qlt_floor x) as F2.
  assert (Qfloor x < z + 1)%Z by (rewrite Zlt_Qlt; eapply Qle_lt_trans; eauto).
  assert (z < Qfloor x + 1)%Z by (rewrite Zlt_Qlt; eapply Qle_lt_trans; eauto).
  lia.
Qed.

Lemma div_fin_pos (a b : Q) : (0 < b)%Q -> (Fin a / Fin b)%num = fin (a / b).
Proof.
  intros H. unfold div. destruct (b ?= 0)%Q eqn:E; try reflexivity.
  apply Qeq_alt in E. rewrite E in H. exfalso. apply (Qlt_irrefl 0). exact H.
Qed.

(** X12.  [roundOffset] of an offset [q] between 0 and 1 is the binary64
    quotient [z / 100] for an integer [z] between 0 and 100: a number
    between 0 and 1, within [2^-53] of the hundredth [z / 100] and within
    0.005 (and [2^-50], for the rounding of the product and the quotient) of
    [q]; rounding it again changes nothing, and [roundOffset] is monotone.
    The binary64 quotient 57 / 200 is rounded to 0.28. *)
Theorem roundOffset_range :
  (forall q : Q,
      (0 <= q)%Q -> (q <= 1)%Q ->
      exists (r : Q) (z : Z),
        SubTimelineBuilder.roundOffset (Fin q) 3 = Fin r
        /\ div64 (ofZ z) (ofZ 100) = Fin r
        /\ (0 <= z <= 100)%Z
        /\ (0 <= r)%Q /\ (r <= 1)%Q
        /\ (inject_Z z / 100 - pow2 (-53) <= r)%Q
        /\ (r <= inject_Z z / 100 + pow2 (-53))%Q
        /\ (q - (1 # 200) - pow2 (-50) <= r)%Q
        /\ (r <= q + (1 # 200) + pow2 (-50))%Q
        /\ SubTimelineBuilder.roundOffset (Fin r) 3 = Fin r
        /\ (forall q', (q <= q')%Q ->
                       le (Fin r) (SubTimelineBuilder.roundOffset (Fin q') 3)
                       = true))
  /\ SubTimelineBuilder.roundOffset (div64 (ofZ 57) (ofZ 200)) 3
     = div64 (ofZ 28) (ofZ 100).
Proof.
  split; [|vm_compute; reflexivity].
  intros q H0 H1.
  destruct (roundOffset_unit q H0 H1)
    as (p & r & z & _ & _ & _ & _ & _ & _ & _ & Hz & Rr & Er & Re1 & Re2
        & R0 & R1).
  destruct (roundOffset_close q H0 H1) as [r' [Rr' [C1 [C2 _]]]].
  assert (r' = r) by congruence. subst r'.
  exists r, z. rewrite div64_100.
  repeat (split; [assumption|]).
  split; [apply (roundOffset_idem z r Hz Er)|].
  intros q' Hq. rewrite <- Rr. apply roundOffset_mono. exact Hq.
Qed.

Lemma roundOffset_range_witness :
  exists (r : Q) (z : Z),
    SubTimelineBuilder.roundOffset (Fin (1 # 3)) 3 = Fin r
    /\ div64 (ofZ z) (ofZ 100) = Fin r
    /\ (0 <= z <= 100)%Z
    /\ (0 <= r)%Q /\ (r <= 1)%Q
    /\ (inject_Z z / 100 - pow2 (-53) <= r)%Q
    /\ (r <= inject_Z z / 100 + pow2 (-53))%Q
    /\ ((1 # 3) - (1 # 200) - pow2 (-50) <= r)%Q
    /\ (r <= (1 # 3) + (1 # 200) + pow2 (-50))%Q
    /\ SubTimelineBuilder.roundOffset (Fin r) 3 = Fin r
    /\ (forall q', ((1 # 3) <= q')%Q ->
                   le (Fin r) (SubTimelineBuilder.roundOffset (Fin q') 3)
                   = true).
Proof.
  apply (proj1 roundOffset_range (1 # 3)); unfold Qle; simpl; lia.
Defined.

(** The offsets of a stretch whose delay [del > 0] and duration [dur >= 0]
    are binary64 numbers with a finite binary64 sum [total]. *)
Section StretchRange.

Variables del dur total : Q.
Hypothesis Hdel : (0 < del)%Q.
Hypothesis Hdur : (0 <= dur)%Q.
Hypothesis Rdel : r64 (Fin del) = Fin del.
Hypothesis Rdur : r64 (Fin dur) = Fin dur.
Hypothesis Etotal : add64 (Fin del) (Fin dur) = Fin total.

Lemma total_rnd64 : rnd64 (del + dur) = Fin total.
Proof.
  rewrite <- Etotal. unfold add64, add, fin, r64.
  apply rnd64_proper. symmetry. apply Qred_correct.
Qed.

Lemma total_ge_delay : (del <= total)%Q.
Proof.
  assert (L : (del <= del + dur)%Q) by lra.
  pose proof (rnd64_mono _ _ L) as M.
  rewrite total_rnd64 in M. cbn [r64] in Rdel. rewrite Rdel in M.
  apply Qle_bool_iff. exact M.
Qed.

Lemma total_pos : (0 < total)%Q.
Proof. pose proof total_ge_delay. lra. Qed.

Lemma div64_total (t : Q) :
  (0 <= t)%Q -> (t <= total)%Q ->
  exists g, div64 (Fin t) (Fin total) = Fin g /\ (0 <= g)%Q /\ (g <= 1)%Q.
Proof.
  intros T0 T1. pose proof total_pos as P.
  unfold div64. rewrite (div_fin_pos _ _ P). unfold fin, r64.
  apply (rnd64_between 0 1 _ 0 1 rnd64_0 rnd64_1).
  - rewrite Qred_correct. apply Qle_shift_div_l; [exact P|lra].
  - rewrite Qred_correct. apply Qle_shift_div_r; [exact P|lra].
Qed.

Lemma gap_range :
  exists g,
    SubTimelineBuilder.roundOffset (div64 (Fin del) (Fin total)) 3 = Fin g
    /\ (0 <= g)%Q /\ (g <= 1)%Q.
Proof.
  destruct (div64_total del) as [g [E [G0 G1]]];
    [lra|apply total_ge_delay|].
  rewrite E. destruct (roundOffset_close g G0 G1) as [r [R [_ [_ [R0 R1]]]]].
  exists r. auto.
Qed.

Lemma timeAtKeyframe_range (o : Q) :
  (0 <= o)%Q -> (o <= 1)%Q ->
  exists t,
    add64 (Fin del) (mul64 (Fin o) (Fin dur)) = Fin t
    /\ (0 <= t)%Q /\ (t <= total)%Q
    /\ ((o == 1)%Q -> t = total).
Proof.
  intros O0 O1.
  assert (P0 : (0 <= Qred (o * dur))%Q).
  { rewrite Qred_correct. apply Qmult_le_0_compat; assumption. }
  assert (P1 : (Qred (o * dur) <= dur)%Q).
  { rewrite Qred_correct. setoid_replace dur with (1 * dur)%Q at 2 by ring.
    apply Qmult_le_compat_r; assumption. }
  cbn [r64] in Rdel, Rdur.
  destruct (rnd64_between 0 dur _ 0 dur rnd64_0 Rdur P0 P1) as [m [Em [M0 M1]]].
  assert (E1 : mul64 (Fin o) (Fin dur) = Fin m) by exact Em.
  rewrite E1.
  assert (A0 : (del <= Qred (del + m))%Q) by (rewrite Qred_correct; lra).
  assert (A1 : (Qred (del + m) <= del + dur)%Q) by (rewrite Qred_correct; lra).
  destruct (rnd64_between del (del + dur) _ del total Rdel total_rnd64 A0 A1)
    as [t [Et [T0 T1]]].
  exists t. split; [exact Et|]. split; [lra|]. split; [exact T1|].
  intros O.
  assert (Em' : rnd64 (Qred (o * dur)) = Fin dur).
  { rewrite <- Rdur. apply rnd64_proper. rewrite Qred_correct, O. ring. }
  assert (m = dur) by congruence. subst m.
  assert (Et' : rnd64 (Qred (del + dur)) = Fin total).
  { rewrite <- total_rnd64. apply rnd64_proper. apply Qred_correct. }
  congruence.
Qed.

Lemma warped_range (o : Q) :
  (0 <= o)%Q -> (o <= 1)%Q ->
  exists r,
    warped (Fin del) (Fin dur) (Fin total) (Fin o) = Fin r
    /\ (0 <= r)%Q /\ (r <= 1)%Q
    /\ ((o == 1)%Q -> Fin r = ofZ 1).
Proof.
  intros O0 O1. unfold warped.
  destruct (timeAtKeyframe_range o O0 O1) as [t [Et [T0 [T1 Tt]]]].
  rewrite Et.
  destruct (div64_total t T0 T1) as [g [Eg [G0 G1]]]. rewrite Eg.
  destruct (roundOffset_close g G0 G1) as [r [R [_ [_ [R0 R1]]]]].
  exists r. split; [exact R|]. split; [exact R0|]. split; [exact R1|].
  intros O. rewrite <- R, <- Eg, (Tt O).
  pose proof total_pos as P.
  unfold div64. rewrite (div_fin_pos _ _ P). unfold fin, r64.
  assert (E1 : rnd64 (Qred (total / total)) = Fin 1).
  { rewrite <- rnd64_1. apply rnd64_proper. rewrite Qred_correct.
    field. lra. }
  rewrite E1. vm_compute. reflexivity.
Qed.

Lemma warpAll_range (rest : list StyleData) :
  Forall (fun kf => exists o, SubTimelineBuilder.offsetOf kf = Some (Fin o)
                              /\ (0 <= o)%Q /\ (o <= 1)%Q) rest ->
  exists out,
    SubTimelineBuilder.warpAll (Fin del) (Fin dur) (Fin total) rest = Some out
    /\ Forall2
         (fun kf kf' =>
            exists o r,
              SubTimelineBuilder.offsetOf kf = Some (Fin o)
              /\ kf' = set "offset" (VNum (Fin r)) (copyStyles kf [] false [])
              /\ (0 <= r)%Q /\ (r <= 1)%Q
              /\ ((o == 1)%Q -> Fin r = ofZ 1))
         rest out.
Proof.
  induction 1 as [|kf rest [o [O [O0 O1]]] _ IH].
  - exists []. split; [reflexivity|constructor].
  - destruct IH as [out [E F]].
    destruct (warped_range o O0 O1) as [r [R [R0 [R1 Rt]]]].
    eexists. simpl. rewrite (warp_spec _ _ _ _ _ O), E. split; [reflexivity|].
    constructor; [|exact F].
    exists o, r. rewrite R. auto.
Qed.

End StretchRange.

(** X13.  Finalizing a stretched sub-timeline whose delay [del > 0] and
    duration [dur >= 0] are binary64 numbers with a finite binary64 sum
    [total], and whose keyframes after the first have offsets between 0 and
    1, gives an instruction of duration [total] and delay 0 in which the
    first keyframe is emitted at offset 0 and at a gap between 0 and 1 and
    every later keyframe is copied with an offset between 0 and 1; a
    keyframe at offset 1 stays at offset 1. *)
Theorem stretched_offsets_in_range :
  forall (el : element) (sb : SubTimeline) (first : StyleData)
         (rest : list StyleData) (del dur total : Q),
    _stretchStartingKeyframe sb = true ->
    delay (sub_timings sb) = Fin del ->
    duration (sub_timings sb) = Fin dur ->
    (0 < del)%Q -> (0 <= dur)%Q ->
    r64 (Fin del) = Fin del -> r64 (Fin dur) = Fin dur ->
    add64 (Fin del) (Fin dur) = Fin total ->
    sub_keyframes sb = first :: rest ->
    Forall (fun kf => exists o, SubTimelineBuilder.offsetOf kf = Some (Fin o)
                                /\ (0 <= o)%Q /\ (o <= 1)%Q) rest ->
    exists (gap : Q) (out : list StyleData),
      SubTimelineBuilder.buildKeyframes el sb
      = Some (createTimelineInstruction el
                (set "offset" (VNum (ofZ 0)) (copyStyles first [] false [])
                 :: set "offset" (VNum (Fin gap)) (copyStyles first [] false [])
                 :: out)
                (sub_preStyleProps sb) (sub_postStyleProps sb)
                (Fin total) (ofZ 0) (Some EmptyString) true)
      /\ (0 <= gap)%Q /\ (gap <= 1)%Q
      /\ Forall2
           (fun kf kf' =>
              exists o r,
                SubTimelineBuilder.offsetOf kf = Some (Fin o)
                /\ kf' = set "offset" (VNum (Fin r)) (copyStyles kf [] false [])
                /\ (0 <= r)%Q /\ (r <= 1)%Q
                /\ ((o == 1)%Q -> Fin r = ofZ 1))
           rest out.
Proof.
  intros el sb first rest del dur total S D U Hdel Hdur Rdel Rdur Et K F.
  destruct (gap_range del dur total Hdel Hdur Rdel Et) as [g [G [G0 G1]]].
  destruct (warpAll_range del dur total Hdel Hdur Rdel Rdur Et rest F)
    as [out [E W]].
  exists g, out. unfold SubTimelineBuilder.buildKeyframes.
  rewrite S, D, U, K.
  assert (T : truthy (Fin del) = true).
  { cbn [truthy]. destruct (Qeq_bool del 0) eqn:Z; [|reflexivity].
    apply Qeq_bool_iff in Z. rewrite Z in Hdel.
    exfalso. apply (Qlt_irrefl 0). exact Hdel. }
  rewrite T. cbn [andb].
  rewrite (add64_comm (Fin dur) (Fin del)), Et, E, G.
  split; [reflexivity|]. split; [exact G0|]. split; [exact G1|exact W].
Qed.

Lemma stretched_offsets_in_range_witness :
  exists (gap : Q) (out : list StyleData),
    SubTimelineBuilder.buildKeyframes root stretchedThird
    = Some (createTimelineInstruction root
              (set "offset" (VNum (ofZ 0))
                 (copyStyles [("opacity", num 0); ("offset", num 0)] [] false [])
               :: set "offset" (VNum (Fin gap))
                    (copyStyles [("opacity", num 0); ("offset", num 0)]
                       [] false [])
               :: out)
              [] [] (Fin 3000) (ofZ 0) (Some EmptyString) true)
    /\ (0 <= gap)%Q /\ (gap <= 1)%Q
    /\ Forall2
         (fun kf kf' =>
            exists o r,
              SubTimelineBuilder.offsetOf kf = Some (Fin o)
              /\ kf' = set "offset" (VNum (Fin r)) (copyStyles kf [] false [])
              /\ (0 <= r)%Q /\ (r <= 1)%Q
              /\ ((o == 1)%Q -> Fin r = ofZ 1))
         [[("opacity", VNum (fin (1 # 2))); ("offset", VNum (fin (1 # 2)))];
          [("opacity", num 1); ("offset", num 1)]]
         out.
Proof.
  apply (stretched_offsets_in_range root stretchedThird
           [("opacity", num 0); ("offset", num 0)]
           [[("opacity", VNum (fin (1 # 2))); ("offset", VNum (fin (1 # 2)))];
            [("opacity", num 1); ("offset", num 1)]]
           1000 2000 3000).
  - reflexivity.
  - reflexivity.
  - reflexivity.
  - unfold Qlt; simpl; lia.
  - unfold Qle; simpl; lia.
  - vm_compute. reflexivity.
  - vm_compute. reflexivity.
  - vm_compute. reflexivity.
  - reflexivity.
  - constructor; [|constructor; [|constructor]].
    + exists (1 # 2). split; [reflexivity|]. split; unfold Qle; simpl; lia.
    + exists 1%Q. split; [reflexivity|]. split; unfold Qle; simpl; lia.
Defined.

(** The error of the stretch against the exact quotient. *)
Section AbsError.
Local Open Scope Q_scope.

Lemma pow2_0 : pow2 0 == 1.
Proof. reflexivity. Qed.

(** The error of rounding a number between 0 and [b >= 1]. *)
Lemma rnd64_abs_error (a p b : Q) :
  0 <= a -> a <= b -> 1 <= b -> rnd64 a = Fin p ->
  a - pow2 (-53) * b <= p /\ p <= a + pow2 (-53) * b.
Proof.
  intros A0 Ab B1 E.
  destruct (Qlt_le_dec 0 a) as [Pos|Z].
  - destruct (Qlt_le_dec a 1) as [Small|Big].
    + destruct (rnd64_error a p (-1) Pos) as [L U].
      * change (pow2 (-1 + 1)) with 1. exact Small.
      * lia.
      * exact E.
      * change (pow2 (-1 - 53)) with (1 # 18014398509481984) in L, U.
        rewrite pow2_m53. split; nra.
    + pose proof (ilog2_spec a Pos) as [K1 K2].
      assert (K0 : (0 <= ilog2 a)%Z).
      { assert (H : pow2 0 < pow2 (ilog2 a + 1)).
        { rewrite pow2_0. lra. }
        apply pow2_lt_inv in H. lia. }
      destruct (rnd64_error a p (ilog2 a) Pos K2 ltac:(lia) E) as [L U].
      assert (P : pow2 (ilog2 a - 53) == pow2 (ilog2 a) * pow2 (-53)).
      { rewrite <- pow2_add. reflexivity. }
      rewrite P in L, U. rewrite pow2_m53 in *.
      split; nra.
  - assert (a == 0) by lra.
    rewrite (rnd64_proper _ _ H), rnd64_0 in E.
    assert (p = 0) by congruence. subst p. rewrite pow2_m53. split; nra.
Qed.

End AbsError.

Section StretchClose.
Local Open Scope Q_scope.

Variables del dur total : Q.
Hypothesis Hdel : 1 <= del.
Hypothesis Hdur : 0 <= dur.
Hypothesis Rdel : r64 (Fin del) = Fin del.
Hypothesis Rdur : r64 (Fin dur) = Fin dur.
Hypothesis Etotal : add64 (Fin del) (Fin dur) = Fin total.

Let u : Q := 1 # 9007199254740992.

Lemma total_near : (del + dur) * (1 - u) <= total /\ total <= (del + dur) * (1 + u).
Proof.
  assert (Hp : 0 < del) by lra.
  pose proof (total_rnd64 del dur total Etotal) as E.
  destruct (rnd64_abs_error (del + dur) total (del + dur)) as [L U];
    try lra; try exact E.
  rewrite pow2_m53 in L, U. unfold u. split; nra.
Qed.

Lemma quotient_near (o : Q) :
  0 <= o -> o <= 1 ->
  exists g,
    div64 (add64 (Fin del) (mul64 (Fin o) (Fin dur))) (Fin total) = Fin g
    /\ 0 <= g /\ g <= 1
    /\ (del + o * dur) / (del + dur) - 5 * u <= g
    /\ g <= (del + o * dur) / (del + dur) + 5 * u.
Proof.
  intros O0 O1.
  assert (Hp : 0 < del) by lra.
  set (S := del + dur).
  assert (S1 : 1 <= S) by (unfold S; lra).
  assert (A0 : 0 <= o * dur) by (apply Qmult_le_0_compat; assumption).
  assert (A1 : o * dur <= dur) by nra.
  assert (P0 : 0 <= Qred (o * dur)) by (rewrite Qred_correct; exact A0).
  assert (P1 : Qred (o * dur) <= dur) by (rewrite Qred_correct; exact A1).
  pose proof Rdel as Rdel'. pose proof Rdur as Rdur'.
  cbn [r64] in Rdel', Rdur'.
  destruct (rnd64_between 0 dur _ 0 dur rnd64_0 Rdur' P0 P1) as [m [Em [M0 M1]]].
  assert (Me : o * dur - u * S <= m /\ m <= o * dur + u * S).
  { destruct (rnd64_abs_error (Qred (o * dur)) m S) as [L U];
      try exact Em; try exact P0; try exact S1.
    - unfold S. lra.
    - rewrite Qred_correct, pow2_m53 in L, U. unfold u. split; lra. }
  assert (E1 : mul64 (Fin o) (Fin dur) = Fin m) by exact Em.
  rewrite E1.
  pose proof (total_rnd64 del dur total Etotal) as ET.
  assert (B0 : del <= Qred (del + m)) by (rewrite Qred_correct; lra).
  assert (B1 : Qred (del + m) <= del + dur) by (rewrite Qred_correct; lra).
  destruct (rnd64_between del (del + dur) _ del total Rdel' ET B0 B1)
    as [t [Et [T0 T1]]].
  assert (E2 : add64 (Fin del) (Fin m) = Fin t) by exact Et.
  rewrite E2.
  assert (Te : del + m - u * S <= t /\ t <= del + m + u * S).
  { destruct (rnd64_abs_error (Qred (del + m)) t S) as [L U];
      try exact Et; try exact S1.
    - rewrite Qred_correct. lra.
    - exact B1.
    - rewrite Qred_correct, pow2_m53 in L, U. unfold u. split; lra. }
  destruct total_near as [TL TU]. fold S in TL, TU.
  assert (Tp : 0 < total) by lra.
  unfold div64. rewrite (div_fin_pos _ _ Tp). unfold fin, r64.
  assert (C0 : 0 <= Qred (t / total)).
  { rewrite Qred_correct. apply Qle_shift_div_l; [exact Tp|lra]. }
  assert (C1 : Qred (t / total) <= 1).
  { rewrite Qred_correct. apply Qle_shift_div_r; [exact Tp|lra]. }
  destruct (rnd64_between 0 1 _ 0 1 rnd64_0 rnd64_1 C0 C1) as [g [Eg [G0 G1]]].
  exists g. split; [exact Eg|]. split; [exact G0|]. split; [exact G1|].
  destruct (rnd64_abs_error (Qred (t / total)) g 1) as [L U];
    try exact Eg; try exact C0; try exact C1; try lra.
  rewrite Qred_correct, pow2_m53 in L, U. fold u in L, U.
  set (x := (del + o * dur) / S).
  set (c := t / total) in *.
  assert (Sp : 0 < S) by lra.
  assert (X : x * S == del + o * dur).
  { unfold x. field. lra. }
  assert (C : c * total == t).
  { unfold c. field. lra. }
  assert (Xr : 0 <= x /\ x <= 1).
  { unfold x. split.
    - apply Qle_shift_div_l; [exact Sp|lra].
    - apply Qle_shift_div_r; [exact Sp|unfold S; lra]. }
  assert (Up : c <= x + 4 * u).
  { apply Qnot_lt_le. intros N.
    assert (K : (x + 4 * u) * total < c * total).
    { apply Qmult_lt_r; assumption. }
    assert (K2 : (x + 4 * u) * (S * (1 - u)) <= (x + 4 * u) * total).
    { apply Qmult_le_l; [unfold u; lra|exact TL]. }
    unfold u in *. nra. }
  assert (Lo : x - 4 * u <= c).
  { apply Qnot_lt_le. intros N.
    assert (K : c * total < (x - 4 * u) * total).
    { apply Qmult_lt_r; assumption. }
    assert (Pos : 0 < x - 4 * u).
    { assert (0 <= c) by (unfold c; apply Qle_shift_div_l; [exact Tp|lra]).
      lra. }
    assert (K2 : (x - 4 * u) * total <= (x - 4 * u) * (S * (1 + u))).
    { apply Qmult_le_l; [exact Pos|exact TU]. }
    unfold u in *. nra. }
  fold S. fold x. split; lra.
Qed.


Lemma warped_close (o : Q) :
  0 <= o -> o <= 1 ->
  exists r,
    warped (Fin del) (Fin dur) (Fin total) (Fin o) = Fin r
    /\ (del + o * dur) / (del + dur) - (1 # 200) - pow2 (-49) <= r
    /\ r <= (del + o * dur) / (del + dur) + (1 # 200) + pow2 (-49).
Proof.
  intros O0 O1. unfold warped.
  destruct (quotient_near o O0 O1) as [g [Eg [G0 [G1 [L U]]]]].
  rewrite Eg.
  destruct (roundOffset_close g G0 G1) as [r [R [L' [U' _]]]].
  exists r. split; [exact R|].
  rewrite pow2_m50 in L', U'.
  change (pow2 (-49)) with (1 # 562949953421312).
  unfold u in L, U. split; lra.
Qed.

Lemma gap_close :
  exists r,
    SubTimelineBuilder.roundOffset (div64 (Fin del) (Fin total)) 3 = Fin r
    /\ del / (del + dur) - (1 # 200) - pow2 (-49) <= r
    /\ r <= del / (del + dur) + (1 # 200) + pow2 (-49).
Proof.
  destruct (warped_close 0) as [r [R [L U]]]; try lra.
  exists r. split.
  - rewrite <- R. unfold warped.
    assert (E : add64 (Fin del) (mul64 (Fin 0) (Fin dur)) = Fin del).
    { unfold mul64, mul, fin, r64.
      assert (Z : rnd64 (Qred (0 * dur)) = Fin 0).
      { rewrite <- rnd64_0. apply rnd64_proper. rewrite Qred_correct. ring. }
      rewrite Z. unfold add64, add, fin, r64.
      pose proof Rdel as Rdel'. cbn [r64] in Rdel'.
      transitivity (rnd64 del); [|exact Rdel'].
      apply rnd64_proper. rewrite Qred_correct. ring. }
    rewrite E. reflexivity.
  - assert (X : (del + 0 * dur) / (del + dur) == del / (del + dur)).
    { field. lra. }
    rewrite X in L, U. split; assumption.
Qed.

Lemma warpAll_close (rest : list StyleData) :
  Forall (fun kf => exists o, SubTimelineBuilder.offsetOf kf = Some (Fin o)
                              /\ 0 <= o /\ o <= 1) rest ->
  exists out,
    SubTimelineBuilder.warpAll (Fin del) (Fin dur) (Fin total) rest = Some out
    /\ Forall2
         (fun kf kf' =>
            exists o r,
              SubTimelineBuilder.offsetOf kf = Some (Fin o)
              /\ kf' = set "offset" (VNum (Fin r)) (copyStyles kf [] false [])
              /\ (del + o * dur) / (del + dur) - (1 # 200) - pow2 (-49) <= r
              /\ r <= (del + o * dur) / (del + dur) + (1 # 200) + pow2 (-49))
         rest out.
Proof.
  induction 1 as [|kf rest [o [O [O0 O1]]] _ IH].
  - exists []. split; [reflexivity|constructor].
  - destruct IH as [out [E F]].
    destruct (warped_close o O0 O1) as [r [R [L U]]].
    eexists. simpl. rewrite (warp_spec _ _ _ _ _ O), E. split; [reflexivity|].
    constructor; [|exact F].
    exists o, r. rewrite R. auto.
Qed.

End StretchClose.

(** The stretch against the quotient of the specification: for a delay
    [del >= 1] and a duration [dur >= 0] that are binary64 numbers with a
    finite binary64 sum, every offset that comes out is within 0.005, and
    [2^-49] for the rounding of the operations, of the exact quotient. *)
Lemma stretch_close (el : element) (sb : SubTimeline) (first : StyleData)
    (rest : list StyleData) (del dur total : Q) :
  _stretchStartingKeyframe sb = true ->
  delay (sub_timings sb) = Fin del ->
  duration (sub_timings sb) = Fin dur ->
  (1 <= del)%Q -> (0 <= dur)%Q ->
  r64 (Fin del) = Fin del -> r64 (Fin dur) = Fin dur ->
  add64 (Fin del) (Fin dur) = Fin total ->
  sub_keyframes sb = first :: rest ->
  Forall (fun kf => exists o, SubTimelineBuilder.offsetOf kf = Some (Fin o)
                              /\ (0 <= o)%Q /\ (o <= 1)%Q) rest ->
  exists (gap : Q) (out : list StyleData),
    SubTimelineBuilder.buildKeyframes el sb
    = Some (createTimelineInstruction el
              (set "offset" (VNum (ofZ 0)) (copyStyles first [] false [])
               :: set "offset" (VNum (Fin gap)) (copyStyles first [] false [])
               :: out)
              (sub_preStyleProps sb) (sub_postStyleProps sb)
              (Fin total) (ofZ 0) (Some EmptyString) true)
    /\ (del / (del + dur) - (1 # 200) - pow2 (-49) <= gap)%Q
    /\ (gap <= del / (del + dur) + (1 # 200) + pow2 (-49))%Q
    /\ Forall2
         (fun kf kf' =>
            exists o r,
              SubTimelineBuilder.offsetOf kf = Some (Fin o)
              /\ kf' = set "offset" (VNum (Fin r)) (copyStyles kf [] false [])
              /\ ((del + o * dur) / (del + dur) - (1 # 200) - pow2 (-49) <= r)%Q
              /\ (r <= (del + o * dur) / (del + dur) + (1 # 200) + pow2 (-49))%Q)
         rest out.
Proof.
  intros S D U Hdel Hdur Rdel Rdur Et K F.
  destruct (gap_close del dur total Hdel Hdur Rdel Rdur Et) as [g [G [G0 G1]]].
  destruct (warpAll_close del dur total Hdel Hdur Rdel Rdur Et rest F)
    as [out [E W]].
  exists g, out. unfold SubTimelineBuilder.buildKeyframes.
  rewrite S, D, U, K.
  assert (T : truthy (Fin del) = true).
  { cbn [truthy]. destruct (Qeq_bool del 0) eqn:Z; [|reflexivity].
    apply Qeq_bool_iff in Z. rewrite Z in Hdel.
    exfalso. revert Hdel. unfold Qle. simpl. lia. }
  rewrite T. cbn [andb].
  rewrite (add64_comm (Fin dur) (Fin del)), Et, E, G.
  split; [reflexivity|]. split; [exact G0|]. split; [exact G1|exact W].
Qed.


(** C4.  Finalizing the stretched sub-timeline that wraps a two-keyframe
    instruction with duration 1000 and delay 1000 gives duration 2000, delay
    0 and the first keyframe at offsets 0 and 0.5, followed by the second at
    offset 1.  With duration 143 and delay 57 the first keyframe is repeated
    at offset 0.28: the binary64 quotient 57 / 200 is below 0.285.  With
    three keyframes at 0, 0.5 and 1, duration 2000 and delay 1000, the
    offsets are 0, 0.33, 0.67 and 1.

    Rounding: [roundOffset(x)], for a finite [x] whose binary64 product
    [x * 100] is the finite [p], is the binary64 quotient [z / 100] for the
    integer [z] with [z <= p + 1/2 < z + 1]; for [x] between 0 and 1 it is
    within 0.005 of [x], up to [2^-50] for the rounding of the product and
    of the quotient.

    In general, with the stretch flag and a non-zero delay, the duration
    becomes [delay + duration], the delay 0 and the easing the empty string;
    the first keyframe is emitted at offset 0 and at offset
    [roundOffset (delay / (delay + duration))], and every later keyframe
    with offset [o] is copied with the offset
    [roundOffset ((delay + o * duration) / (delay + duration))], each
    operation in binary64 arithmetic.

    Against the quotient over the rationals: when the delay is at least 1
    and the duration at least 0, both binary64 numbers with a finite
    binary64 sum, and the offsets of the later keyframes lie between 0 and
    1, the offset emitted for [o] is within 0.005 of
    [(delay + o * duration) / (delay + duration)] and the offset of the
    repeated first keyframe within 0.005 of [delay / (delay + duration)], up
    to [2^-49] for the rounding of the operations. *)
Theorem stretch_buildKeyframes :
  SubTimelineBuilder.buildKeyframes root stretched
  = Some (createTimelineInstruction root
            [[("opacity", num 0); ("offset", num 0)];
             [("opacity", num 0); ("offset", VNum (fin (1 # 2)))];
             [("opacity", num 1); ("offset", num 1)]]
            [] [] (ofZ 2000) (ofZ 0) (Some EmptyString) true)
  /\ SubTimelineBuilder.buildKeyframes root stretchedTie
     = Some (createTimelineInstruction root
               [[("opacity", num 0); ("offset", num 0)];
                [("opacity", num 0); ("offset", VNum (div64 (ofZ 28) (ofZ 100)))];
                [("opacity", num 1); ("offset", num 1)]]
               [] [] (ofZ 200) (ofZ 0) (Some EmptyString) true)
  /\ SubTimelineBuilder.buildKeyframes root stretchedThird
     = Some (createTimelineInstruction root
               [[("opacity", num 0); ("offset", num 0)];
                [("opacity", num 0); ("offset", VNum (div64 (ofZ 33) (ofZ 100)))];
                [("opacity", VNum (fin (1 # 2)));
                 ("offset", VNum (div64 (ofZ 67) (ofZ 100)))];
                [("opacity", num 1); ("offset", num 1)]]
               [] [] (ofZ 3000) (ofZ 0) (Some EmptyString) true)
  /\ (forall q p : Q,
         mul64 (Fin q) (ofZ 100) = Fin p ->
         exists z : Z,
           (inject_Z z <= p + (1 # 2))%Q
           /\ (p + (1 # 2) < inject_Z z + 1)%Q
           /\ SubTimelineBuilder.roundOffset (Fin q) 3
              = div64 (ofZ z) (ofZ 100))
  /\ (forall q : Q,
         (0 <= q)%Q -> (q <= 1)%Q ->
         exists r : Q,
           SubTimelineBuilder.roundOffset (Fin q) 3 = Fin r
           /\ (q - (1 # 200) - pow2 (-50) <= r)%Q
           /\ (r <= q + (1 # 200) + pow2 (-50))%Q)
  /\ (forall (el : element) (sb : SubTimeline) (first : StyleData)
             (rest : list StyleData),
         let del := delay (sub_timings sb) in
         let dur := duration (sub_timings sb) in
         _stretchStartingKeyframe sb = true ->
         truthy del = true ->
         sub_keyframes sb = first :: rest ->
         Forall (fun kf => SubTimelineBuilder.offsetOf kf <> None) rest ->
         exists out,
           SubTimelineBuilder.buildKeyframes el sb
           = Some (createTimelineInstruction el
                     (set "offset" (VNum (ofZ 0)) (copyStyles first [] false [])
                      :: set "offset"
                           (VNum (SubTimelineBuilder.roundOffset
                                    (div64 del (add64 del dur)) 3))
                           (copyStyles first [] false [])
                      :: out)
                     (sub_preStyleProps sb) (sub_postStyleProps sb)
                     (add64 del dur) (ofZ 0) (Some EmptyString) true)
           /\ Forall2
                (fun kf kf' =>
                   exists o,
                     SubTimelineBuilder.offsetOf kf = Some o
                     /\ kf' = set "offset"
                                (VNum (SubTimelineBuilder.roundOffset
                                         (div64 (add64 del (mul64 o dur))
                                            (add64 del dur)) 3))
                                (copyStyles kf [] false []))
                rest out)
  /\ (forall (el : element) (sb : SubTimeline) (first : StyleData)
             (rest : list StyleData) (del dur total : Q),
         _stretchStartingKeyframe sb = true ->
         delay (sub_timings sb) = Fin del ->
         duration (sub_timings sb) = Fin dur ->
         (1 <= del)%Q -> (0 <= dur)%Q ->
         r64 (Fin del) = Fin del -> r64 (Fin dur) = Fin dur ->
         add64 (Fin del) (Fin dur) = Fin total ->
         sub_keyframes sb = first :: rest ->
         Forall (fun kf =>
                   exists o, SubTimelineBuilder.offsetOf kf = Some (Fin o)
                             /\ (0 <= o)%Q /\ (o <= 1)%Q) rest ->
         exists (gap : Q) (out : list StyleData),
           SubTimelineBuilder.buildKeyframes el sb
           = Some (createTimelineInstruction el
                     (set "offset" (VNum (ofZ 0)) (copyStyles first [] false [])
                      :: set "offset" (VNum (Fin gap))
                           (copyStyles first [] false [])
                      :: out)
                     (sub_preStyleProps sb) (sub_postStyleProps sb)
                     (Fin total) (ofZ 0) (Some EmptyString) true)
           /\ (del / (del + dur) - (1 # 200) - pow2 (-49) <= gap)%Q
           /\ (gap <= del / (del + dur) + (1 # 200) + pow2 (-49))%Q
           /\ Forall2
                (fun kf kf' =>
                   exists o r,
                     SubTimelineBuilder.offsetOf kf = Some (Fin o)
                     /\ kf' = set "offset" (VNum (Fin r))
                                (copyStyles kf [] false [])
                     /\ ((del + o * dur) / (del + dur) - (1 # 200)
                         - pow2 (-49) <= r)%Q
                     /\ (r <= (del + o * dur) / (del + dur) + (1 # 200)
                              + pow2 (-49))%Q)
                rest out).
Proof.
  split; [vm_compute; reflexivity|].
  split; [vm_compute; reflexivity|].
  split; [vm_compute; reflexivity|].
  split.
  { intros q p E. destruct (roundOffset_nearest q p E) as [R [F1 F2]].
    exists (Qfloor (p + (1 # 2))). rewrite div64_100. auto. }
  split.
  { intros q H0 H1.
    destruct (roundOffset_close q H0 H1) as [r [R [L [U _]]]].
    exists r. auto. }
  split.
  { intros el sb first rest del dur S T K F.
    exact (stretch_spec el sb first rest S T K F). }
  intros el sb first rest del dur total S D U Hdel Hdur Rdel Rdur Et K F.
  exact (stretch_close el sb first rest del dur total S D U Hdel Hdur Rdel
           Rdur Et K F).
Qed.

Lemma stretch_buildKeyframes_witness :
  (exists out,
      SubTimelineBuilder.buildKeyframes root stretchedTie
      = Some (createTimelineInstruction root
                ([("opacity", num 0); ("offset", num 0)]
                 :: [("opacity", num 0);
                     ("offset",
                      VNum (SubTimelineBuilder.roundOffset
                              (div64 (ofZ 57) (add64 (ofZ 57) (ofZ 143))) 3))]
                 :: out)
                [] [] (add64 (ofZ 57) (ofZ 143)) (ofZ 0) (Some EmptyString) true)
      /\ Forall2
           (fun kf kf' =>
              exists o,
                SubTimelineBuilder.offsetOf kf = Some o
                /\ kf' = set "offset"
                           (VNum (SubTimelineBuilder.roundOffset
                                    (div64 (add64 (ofZ 57) (mul64 o (ofZ 143)))
                                       (add64 (ofZ 57) (ofZ 143))) 3))
                           (copyStyles kf [] false []))
           [[("opacity", num 1); ("offset", num 1)]] out)
  /\ (exists (gap : Q) (out : list StyleData),
         SubTimelineBuilder.buildKeyframes root stretchedThird
         = Some (createTimelineInstruction root
                   ([("opacity", num 0); ("offset", num 0)]
                    :: [("opacity", num 0); ("offset", VNum (Fin gap))]
                    :: out)
                   [] [] (Fin 3000) (ofZ 0) (Some EmptyString) true)
         /\ (1000 / (1000 + 2000) - (1 # 200) - pow2 (-49) <= gap)%Q
         /\ (gap <= 1000 / (1000 + 2000) + (1 # 200) + pow2 (-49))%Q
         /\ Forall2
              (fun kf kf' =>
                 exists o r,
                   SubTimelineBuilder.offsetOf kf = Some (Fin o)
                   /\ kf' = set "offset" (VNum (Fin r))
                              (copyStyles kf [] false [])
                   /\ ((1000 + o * 2000) / (1000 + 2000) - (1 # 200)
                       - pow2 (-49) <= r)%Q
                   /\ (r <= (1000 + o * 2000) / (1000 + 2000) + (1 # 200)
                            + pow2 (-49))%Q)
              [[("opacity", VNum (fin (1 # 2))); ("offset", VNum (fin (1 # 2)))];
               [("opacity", num 1); ("offset", num 1)]]
              out).
Proof.
  destruct stretch_buildKeyframes as [_ [_ [_ [_ [_ [H C]]]]]].
  split.
  - apply (H root stretchedTie [("opacity", num 0); ("offset", num 0)]
             [[("opacity", num 1); ("offset", num 1)]]).
    + reflexivity.
    + reflexivity.
    + reflexivity.
    + constructor; [|constructor]. vm_compute. discriminate.
  - apply (C root stretchedThird [("opacity", num 0); ("offset", num 0)]
             [[("opacity", VNum (fin (1 # 2))); ("offset", VNum (fin (1 # 2)))];
              [("opacity", num 1); ("offset", num 1)]]
             1000 2000 3000).
    + reflexivity.
    + reflexivity.
    + reflexivity.
    + unfold Qle; simpl; lia.
    + unfold Qle; simpl; lia.
    + vm_compute. reflexivity.
    + vm_compute. reflexivity.
    + vm_compute. reflexivity.
    + reflexivity.
    + constructor; [|constructor; [|constructor]].
      * exists (1 # 2). split; [reflexivity|]. split; unfold Qle; simpl; lia.
      * exists 1%Q. split; [reflexivity|]. split; unfold Qle; simpl; lia.
Defined.



(** ** [setStyles] and the rest of the store *)

Section Keeps.
Variable s0 : Store.



End Keeps.

Lemma kf_update_times (k : number) (f : StyleData -> StyleData)
    (kfs : list (number * StyleData)) :
  map fst (kf_update k f kfs) = map fst kfs.
Proof.
  induction kfs as [|[t' x] r IH]; simpl; [reflexivity|].
  destruct (sameValueZero k t'); simpl; [reflexivity|]. rewrite IH. reflexivity.
Qed.

Lemma sameFrame_kf_write (b0 b : TimelineBuilder) (r : KeyframeRef)
    (prop : string) (v : value) :
  sameFrame b0 b -> sameFrame b0 (kf_write r prop v b).
Proof.
  intros H. destruct r as [|k]; [exact H|].
  destruct H as [H1 [H2 [H3 [H4 [H5 [H6 [H7 [H8 H9]]]]]]]].
  unfold sameFrame, kf_write. cbn. rewrite kf_update_times.
  repeat split; assumption.
Qed.

Section SetStylesFrame.
Import TimelineBuilderMethods.
Variables (s0 : Store) (t : nat) (b0 : TimelineBuilder).
Hypothesis builder_in_store : nth_error (timelines s0) t = Some b0.
Hypothesis owner_in_store :
  (_globalTimelineStyles b0 < length (timelines s0))%nat.

Let I := frameOf s0 t.










End SetStylesFrame.



(** ** A program that only styles *)

Lemma bind_some {A B : Type} (m : M A) (k : A -> M B) (s s' : Store) (a : A) :
  m s = Some (a, s') -> bind m k s = k a s'.
Proof. intros E. unfold bind. rewrite E. reflexivity. Qed.


Lemma sameFrame_trans (a b c : TimelineBuilder) :
  sameFrame a b -> sameFrame b c -> sameFrame a c.
Proof.
  unfold sameFrame. intros H1 H2.
  repeat match goal with H : _ /\ _ |- _ => destruct H end.
  repeat split; congruence.
Qed.



Section OnlyStyles.
Variable querySelectorAll : element -> string -> list element.


End OnlyStyles.



(** ** Merging the styles a child timeline collected *)

Lemma in_keys_get {A : Type} (k : string) (o : obj A) :
  In k (keys o) -> exists v, get k o = Some v.
Proof.
  induction o as [|[k' v'] r IH]; simpl; [contradiction|].
  intros [->|H].
  - rewrite String.eqb_refl. eauto.
  - destruct (String.eqb k k'); eauto.
Qed.

Section Merge.
Import TimelineBuilderMethods.

(** What one call of [_updateStyle] does to the store. *)
Lemma updateStyle_effect (s : Store) (t : nat) (b : TimelineBuilder)
    (prop : string) (v : value) :
  nth_error (timelines s) t = Some b ->
  String.eqb prop "easing" = false ->
  exists s' b',
    _updateStyle t prop v s = Some (tt, s')
    /\ nth_error (timelines s') t = Some b'
    /\ startTime b' = startTime b
    /\ tl_duration b' = tl_duration b
    /\ _keyframes b' = _keyframes b
    /\ _globalTimelineStyles b' = _globalTimelineStyles b
    /\ (forall q, get q (_styleSummary b')
                  = if String.eqb q prop
                    then Some (mkStyleAtTime (currentTime b) v)
                    else get q (_styleSummary b))
    /\ (forall q, get q (_localTimelineStyles b')
                  = if String.eqb q prop then Some v
                    else get q (_localTimelineStyles b))
    /\ (forall u x, u <> t -> nth_error (timelines s) u = Some x ->
          exists x', nth_error (timelines s') u = Some x'
                     /\ _styleSummary x' = _styleSummary x).
Proof.
  intros Hb Ne. unfold _updateStyle. rewrite Ne. cbn [negb when].
  set (f1 := fun b0 => with_localTimelineStyles
                         (set prop v (_localTimelineStyles b0)) b0).
  set (f3 := fun b0 => with_styleSummary
                         (set prop (mkStyleAtTime (currentTime b0) v)
                            (_styleSummary b0)) b0).
  rewrite (bind_some _ _ s _ tt eq_refl).
  assert (E1 : getTL t (with_timelines (update_nth t f1 (timelines s)) s)
               = Some (f1 b, with_timelines (update_nth t f1 (timelines s)) s)).
  { unfold getTL. cbn [timelines with_timelines].
    rewrite nth_error_update_nth_same, Hb. reflexivity. }
  rewrite (bind_some _ _ _ _ _ E1).
  rewrite (bind_some _ _ _ _ tt eq_refl).
  unfold modTL, modify. cbn [timelines with_timelines].
  change (_globalTimelineStyles (f1 b)) with (_globalTimelineStyles b).
  set (g := _globalTimelineStyles b). fold f1.
  set (l2 := update_nth g f1 (update_nth t f1 (timelines s))).
  assert (H2 : exists b2,
             nth_error l2 t = Some b2
             /\ startTime b2 = startTime b /\ tl_duration b2 = tl_duration b
             /\ _keyframes b2 = _keyframes b
             /\ _globalTimelineStyles b2 = _globalTimelineStyles b
             /\ _styleSummary b2 = _styleSummary b
             /\ forall q, get q (_localTimelineStyles b2)
                          = if String.eqb q prop then Some v
                            else get q (_localTimelineStyles b)).
  { unfold l2. destruct (Nat.eq_dec g t) as [->|N].
    - rewrite !nth_error_update_nth_same, Hb. cbn [option_map].
      exists (f1 (f1 b)). repeat split. intros q. unfold f1.
      cbn [_localTimelineStyles with_localTimelineStyles].
      destruct (String.eqb q prop) eqn:Q.
      + apply String.eqb_eq in Q. subst q. apply get_set_same.
      + apply String.eqb_neq in Q. rewrite !(get_set_other _ _ _ _ Q).
        reflexivity.
    - rewrite (nth_error_update_nth_other _ _ _ _ N).
      rewrite nth_error_update_nth_same, Hb. cbn [option_map].
      exists (f1 b). repeat split. intros q. unfold f1.
      cbn [_localTimelineStyles with_localTimelineStyles].
      destruct (String.eqb q prop) eqn:Q.
      + apply String.eqb_eq in Q. subst q. apply get_set_same.
      + apply String.eqb_neq in Q. rewrite (get_set_other _ _ _ _ Q).
        reflexivity. }
  destruct H2 as [b2 [N2 [S2 [D2 [K2 [G2 [Y2 L2]]]]]]].
  eexists _, (f3 b2). split; [reflexivity|]. cbn [timelines with_timelines].
  split; [rewrite nth_error_update_nth_same, N2; reflexivity|].
  split; [exact S2|]. split; [exact D2|]. split; [exact K2|].
  split; [exact G2|]. split; [|split].
  - intros q. unfold f3. cbn [_styleSummary with_styleSummary].
    unfold currentTime. rewrite S2, D2, Y2.
    destruct (String.eqb q prop) eqn:Q.
    + apply String.eqb_eq in Q. subst q. apply get_set_same.
    + apply String.eqb_neq in Q. apply get_set_other. exact Q.
  - exact L2.
  - intros u x Nu Hx.
    assert (Nt : t <> u) by auto.
    rewrite (nth_error_update_nth_other _ _ _ _ Nt). unfold l2.
    destruct (Nat.eq_dec g u) as [->|Ng].
    + rewrite nth_error_update_nth_same.
      rewrite (nth_error_update_nth_other _ _ _ _ Nt), Hx.
      exists (f1 x). split; reflexivity.
    + rewrite (nth_error_update_nth_other _ _ _ _ Ng).
      rewrite (nth_error_update_nth_other _ _ _ _ Nt), Hx.
      exists x. split; reflexivity.
Qed.

Variables (t other : nat) (b0 ob : TimelineBuilder).
Hypothesis distinct : t <> other.

(** The styles of builder [t] are, for each property, those of [b0] or the
    merged ones. *)
Let merged (b : TimelineBuilder) (q : string) : Prop :=
  get q (_styleSummary b)
  = match adopts b0 ob q with
    | Some v => Some (mkStyleAtTime (currentTime b0) v)
    | None => get q (_styleSummary b0)
    end
  /\ get q (_localTimelineStyles b)
     = match adopts b0 ob q with
       | Some v => Some v
       | None => get q (_localTimelineStyles b0)
       end.

Let untouched (b : TimelineBuilder) (q : string) : Prop :=
  get q (_styleSummary b) = get q (_styleSummary b0)
  /\ get q (_localTimelineStyles b) = get q (_localTimelineStyles b0).

Let inv (s : Store) (b : TimelineBuilder) : Prop :=
  nth_error (timelines s) t = Some b
  /\ startTime b = startTime b0
  /\ tl_duration b = tl_duration b0
  /\ _keyframes b = _keyframes b0
  /\ _globalTimelineStyles b = _globalTimelineStyles b0
  /\ (forall q, untouched b q \/ merged b q)
  /\ exists o, nth_error (timelines s) other = Some o
               /\ _styleSummary o = _styleSummary ob.

Lemma mergeProp_step (s : Store) (b : TimelineBuilder) (p : string) :
  inv s b -> In p (keys (_styleSummary ob)) ->
  exists s' b',
    mergeProp t other p s = Some (tt, s')
    /\ inv s' b'
    /\ merged b' p
    /\ (forall q, merged b q -> merged b' q).
Proof.
  intros [Hb [S [D [K [G [Hq [o [Ho Yo]]]]]]]] Hp.
  destruct (in_keys_get _ _ Hp) as [d1 Hd1].
  unfold mergeProp.
  assert (E1 : getTL t s = Some (b, s)) by (unfold getTL; rewrite Hb; reflexivity).
  assert (E2 : getTL other s = Some (o, s)) by (unfold getTL; rewrite Ho; reflexivity).
  rewrite (bind_some _ _ _ _ _ E1), (bind_some _ _ _ _ _ E2), Yo, Hd1.
  assert (keep : inv s b) by (repeat split; eauto).
  destruct (String.eqb p "easing") eqn:Pe.
  - (* [_updateStyle] ignores the easing *)
    assert (U : forall v, _updateStyle t p v s = Some (tt, s)).
    { intros v. unfold _updateStyle. rewrite Pe. reflexivity. }
    assert (M : merged b p).
    { destruct (Hq p) as [[H1 H2]|H]; [|exact H].
      unfold merged, adopts. rewrite Pe. split; assumption. }
    exists s, b. split; [|split; [exact keep|split; [exact M|auto]]].
    destruct (match get p (_styleSummary b) with
              | Some details0 => gt (time d1) (time details0)
              | None => negb (inherited p)
              end); [apply U|reflexivity].
  - destruct (match get p (_styleSummary b) with
              | Some details0 => gt (time d1) (time details0)
              | None => negb (inherited p)
              end) eqn:Ad.
    + (* the value of the child is adopted *)
      cbn [when].
      destruct (updateStyle_effect s t b p (sat_value d1) Hb Pe)
        as [s' [b' [E [Hb' [S' [D' [K' [G' [Y' [L' O']]]]]]]]]].
      assert (CT : currentTime b = currentTime b0)
        by (unfold currentTime; rewrite S, D; reflexivity).
      assert (A : adopts b0 ob p = Some (sat_value d1)).
      { unfold adopts. rewrite Pe, Hd1.
        destruct (Hq p) as [[H1 _]|[H1 _]].
        - rewrite <- H1. destruct (get p (_styleSummary b)).
          + rewrite Ad. reflexivity.
          + destruct (inherited p); [discriminate Ad|reflexivity].
        - unfold adopts in H1. rewrite Pe, Hd1 in H1.
          destruct (get p (_styleSummary b0)) as [d0|].
          + destruct (gt (time d1) (time d0)) eqn:Gt; [reflexivity|].
            rewrite H1, Gt in Ad. discriminate Ad.
          + destruct (inherited p); [|reflexivity].
            rewrite H1 in Ad. discriminate Ad. }
      assert (M : merged b' p).
      { unfold merged. rewrite A, Y', L', String.eqb_refl, CT. split; reflexivity. }
      exists s', b'. split; [exact E|]. split; [|split; [exact M|]].
      * unfold inv. split; [exact Hb'|].
        split; [congruence|]. split; [congruence|]. split; [congruence|].
        split; [congruence|]. split.
        -- intros q. destruct (String.eqb q p) eqn:Q.
           ++ apply String.eqb_eq in Q. subst q. right. exact M.
           ++ destruct (Hq q) as [[H1 H2]|[H1 H2]]; [left|right];
                (split; [rewrite Y'|rewrite L']; rewrite Q; assumption).
        -- destruct (O' other o (not_eq_sym distinct) Ho) as [o' [Ho' Yo']].
           exists o'. split; [exact Ho'|congruence].
      * intros q [H1 H2]. destruct (String.eqb q p) eqn:Q.
        -- apply String.eqb_eq in Q. subst q. exact M.
        -- split; [rewrite Y'|rewrite L']; rewrite Q; assumption.
    + (* the builder keeps its own value *)
      cbn [when].
      assert (M : merged b p).
      { destruct (Hq p) as [[H1 H2]|H]; [|exact H].
        unfold merged, adopts. rewrite Pe, Hd1, <- H1.
        destruct (get p (_styleSummary b)) as [d0|].
        - rewrite Ad. split; [reflexivity|exact H2].
        - destruct (inherited p); [|discriminate Ad].
          split; [reflexivity|exact H2]. }
      exists s, b. split; [reflexivity|]. split; [exact keep|]. split; [exact M|auto].
Qed.

Lemma merge_loop (l : list string) :
  (forall p, In p l -> In p (keys (_styleSummary ob))) ->
  forall s b,
    inv s b ->
    exists s' b',
      forEach (mergeProp t other) l s = Some (tt, s')
      /\ inv s' b'
      /\ (forall q, In q l -> merged b' q)
      /\ (forall q, merged b q -> merged b' q).
Proof.
  induction l as [|p r IH]; intros Hl s b I.
  - exists s, b. split; [reflexivity|]. split; [exact I|].
    split; [intros q []|auto].
  - destruct (mergeProp_step s b p I (Hl p (or_introl eq_refl)))
      as [s1 [b1 [E1 [I1 [M1 P1]]]]].
    destruct (IH (fun q H => Hl q (or_intror H)) s1 b1 I1)
      as [s2 [b2 [E2 [I2 [M2 P2]]]]].
    exists s2, b2. split.
    + cbn [forEach]. rewrite (bind_some _ _ _ _ _ E1). exact E2.
    + split; [exact I2|]. split.
      * intros q [<-|H]; [apply P2; exact M1|apply M2; exact H].
      * intros q H. apply P2, P1, H.
Qed.

Lemma merge_spec (s : Store) :
  nth_error (timelines s) t = Some b0 ->
  nth_error (timelines s) other = Some ob ->
  exists s' b' o',
    mergeTimelineCollectedStyles t other s = Some (tt, s')
    /\ nth_error (timelines s') t = Some b'
    /\ nth_error (timelines s') other = Some o'
    /\ _styleSummary o' = _styleSummary ob
    /\ currentTime b' = currentTime b0
    /\ _keyframes b' = _keyframes b0
    /\ forall q, merged b' q.
Proof.
  intros Hb Ho.
  assert (I : inv s b0).
  { unfold inv. repeat split; try assumption.
    - intros q. left. split; reflexivity.
    - exists ob. split; [exact Ho|reflexivity]. }
  destruct (merge_loop (keys (_styleSummary ob)) (fun p H => H) s b0 I)
    as [s' [b' [E [[Hb' [S [D [K [G [Hq [o' [Ho' Yo']]]]]]]] [M _]]]]].
  exists s', b', o'. split.
  - unfold mergeTimelineCollectedStyles.
    assert (E2 : getTL other s = Some (ob, s))
      by (unfold getTL; rewrite Ho; reflexivity).
    rewrite (bind_some _ _ _ _ _ E2). exact E.
  - split; [exact Hb'|]. split; [exact Ho'|]. split; [exact Yo'|].
    split; [unfold currentTime; rewrite S, D; reflexivity|].
    split; [exact K|].
    intros q. destruct (Hq q) as [[H1 H2]|H]; [|exact H].
    destruct (get q (_styleSummary ob)) as [d1|] eqn:Q.
    + apply M. apply (get_some_in_keys _ _ _ Q).
    + unfold merged, adopts. rewrite Q.
      destruct (String.eqb q "easing"); split; assumption.
Qed.
End Merge.

(** X17.  [mergeTimelineCollectedStyles(timeline)] on a builder, for another
    builder of the store: it always returns, and afterwards, for every
    property, the summary of the builder holds the value of the other
    builder's summary if the other's time is greater than the time of the
    builder's own entry, or if the builder has no entry and the property is
    not the name of a member of [Object.prototype], and what it held
    otherwise.  An adopted value is recorded in the summary under the
    current time of the builder, not under the time it had in the other
    builder, and becomes a local style as well; [easing] is never adopted.
    Under the name of a member of [Object.prototype], such as
    [constructor], a builder without an entry of its own adopts nothing:
    its summary and its local styles stay as they are.  The keyframes and
    the current time of the builder and the summary of the other builder
    are unchanged. *)
Theorem merge_adopts_later_styles :
  forall (s : Store) (t other : nat) (b ob : TimelineBuilder),
    t <> other ->
    nth_error (timelines s) t = Some b ->
    nth_error (timelines s) other = Some ob ->
    exists s' b' o',
      TimelineBuilderMethods.mergeTimelineCollectedStyles t other s
      = Some (tt, s')
      /\ nth_error (timelines s') t = Some b'
      /\ nth_error (timelines s') other = Some o'
      /\ _styleSummary o' = _styleSummary ob
      /\ currentTime b' = currentTime b
      /\ _keyframes b' = _keyframes b
      /\ (forall prop,
             get prop (_styleSummary b')
             = match adopts b ob prop with
               | Some v => Some (mkStyleAtTime (currentTime b) v)
               | None => get prop (_styleSummary b)
               end
             /\ get prop (_localTimelineStyles b')
                = match adopts b ob prop with
                  | Some v => Some v
                  | None => get prop (_localTimelineStyles b)
                  end)
      /\ (forall prop details1,
             get prop (_styleSummary ob) = Some details1 ->
             get prop (_styleSummary b) = None ->
             prop <> "easing"%string ->
             if inherited prop
             then get prop (_styleSummary b') = None
                  /\ get prop (_localTimelineStyles b')
                     = get prop (_localTimelineStyles b)
             else get prop (_styleSummary b')
                  = Some (mkStyleAtTime (currentTime b) (sat_value details1))
                  /\ get prop (_localTimelineStyles b')
                     = Some (sat_value details1))
      /\ (forall prop details0 details1,
             get prop (_styleSummary ob) = Some details1 ->
             get prop (_styleSummary b) = Some details0 ->
             prop <> "easing"%string ->
             if gt (time details1) (time details0)
             then get prop (_styleSummary b')
                  = Some (mkStyleAtTime (currentTime b) (sat_value details1))
                  /\ get prop (_localTimelineStyles b')
                     = Some (sat_value details1)
             else get prop (_styleSummary b') = Some details0
                  /\ get prop (_localTimelineStyles b')
                     = get prop (_localTimelineStyles b)).
Proof.
  intros s t other b ob N Hb Ho.
  destruct (merge_spec t other b ob N s Hb Ho)
    as [s' [b' [o' [E [Hb' [Ho' [Y [C [K M]]]]]]]]].
  exists s', b', o'.
  do 6 (split; [assumption|]).
  split; [intros prop; apply M|]. split.
  - intros prop d1 H1 H0 Pe. apply String.eqb_neq in Pe.
    destruct (M prop) as [A B]. unfold adopts in A, B.
    rewrite Pe, H1, H0 in A, B.
    destruct (inherited prop); split; assumption.
  - intros prop d0 d1 H1 H0 Pe. apply String.eqb_neq in Pe.
    destruct (M prop) as [A B]. unfold adopts in A, B.
    rewrite Pe, H1, H0 in A, B.
    destruct (gt (time d1) (time d0)); split; assumption.
Qed.

Lemma merge_adopts_later_styles_witness :
  exists s' b',
    TimelineBuilderMethods.mergeTimelineCollectedStyles 0 1 parentAndNamedChild
    = Some (tt, s')
    /\ nth_error (timelines s') 0 = Some b'
    /\ get "constructor" (_styleSummary b') = None
    /\ get "constructor" (_localTimelineStyles b') = None
    /\ get "opacity" (_styleSummary b') = Some (mkStyleAtTime zero (num 1))
    /\ get "opacity" (_localTimelineStyles b') = Some (num 1).
Proof.
  destruct (merge_adopts_later_styles parentAndNamedChild 0 1 parentBuilder
              namedChildBuilder)
    as (s' & b' & o' & E & Hb & _ & _ & _ & _ & _ & I & G).
  - discriminate.
  - reflexivity.
  - reflexivity.
  - exists s', b'. split; [exact E|]. split; [exact Hb|].
    destruct (I "constructor"%string
                (mkStyleAtTime (ofZ 10) (VStr "5px")) eq_refl eq_refl)
      as [I1 I2]; [discriminate|].
    destruct (G "opacity"%string (mkStyleAtTime zero (num 0))
                (mkStyleAtTime (ofZ 10) (num 1)) eq_refl eq_refl)
      as [G1 G2]; [discriminate|].
    split; [exact I1|]. split; [exact I2|]. split; [exact G1|exact G2].
Defined.

(** ** An [animate] step moves the clock *)




Lemma run_getTL (s : Store) (i : nat) (b : TimelineBuilder) :
  nth_error (timelines s) i = Some b -> getTL i s = Some (b, s).
Proof. intros H. unfold getTL. rewrite H. reflexivity. Qed.



(** ** Computations that keep the frame of every builder *)

Lemma bind_inv {A B : Type} (m : M A) (k : A -> M B) (s s' : Store) (b : B) :
  bind m k s = Some (b, s') ->
  exists a s1, m s = Some (a, s1) /\ k a s1 = Some (b, s').
Proof.
  unfold bind. destruct (m s) as [[a s1]|]; [|discriminate].
  intros H. exists a, s1. auto.
Qed.

Section Frames.
Import TimelineBuilderMethods.

Lemma sameFrame_refl (b : TimelineBuilder) : sameFrame b b.
Proof. repeat split. Qed.

Lemma sameFrames_refl (s : Store) : sameFrames s s.
Proof.
  repeat split. intros u x H. exists x. split; [exact H|apply sameFrame_refl].
Qed.

Lemma sameFrames_trans (s1 s2 s3 : Store) :
  sameFrames s1 s2 -> sameFrames s2 s3 -> sameFrames s1 s3.
Proof.
  intros [C1 [L1 [N1 F1]]] [C2 [L2 [N2 F2]]].
  split; [congruence|]. split; [congruence|]. split; [congruence|].
  intros u x H. destruct (F1 u x H) as [y [Hy Sy]].
  destruct (F2 u y Hy) as [z [Hz Sz]]. exists z. split; [exact Hz|].
  apply (sameFrame_trans _ _ _ Sy Sz).
Qed.

Lemma kf_ret {A : Type} (a : A) : keepsFrames (ret a).
Proof. intros s a' s' E. injection E as _ <-. apply sameFrames_refl. Qed.

Lemma kf_bind {A B : Type} (m : M A) (k : A -> M B) :
  keepsFrames m -> (forall a, keepsFrames (k a)) -> keepsFrames (bind m k).
Proof.
  intros Hm Hk s b s' E. destruct (bind_inv _ _ _ _ _ E) as [a [s1 [E1 E2]]].
  apply (sameFrames_trans _ _ _ (Hm _ _ _ E1) (Hk a _ _ _ E2)).
Qed.

Lemma kf_when (c : bool) (m : M unit) : keepsFrames m -> keepsFrames (when c m).
Proof. intros H. destruct c; [exact H|apply kf_ret]. Qed.

Lemma kf_forEach {A : Type} (f : A -> M unit) (l : list A) :
  (forall x, keepsFrames (f x)) -> keepsFrames (forEach f l).
Proof.
  intros H. induction l as [|x r IH]; cbn [forEach]; [apply kf_ret|].
  apply kf_bind; [apply H|intros _; exact IH].
Qed.

Lemma kf_getTL (t : nat) : keepsFrames (getTL t).
Proof.
  intros s b s' E. unfold getTL in E.
  destruct (nth_error (timelines s) t); [|discriminate].
  injection E as _ <-. apply sameFrames_refl.
Qed.

Lemma kf_modTL (t : nat) (f : TimelineBuilder -> TimelineBuilder) :
  (forall b, sameFrame b (f b)) -> keepsFrames (modTL t f).
Proof.
  intros H s [] s' E. injection E as <-.
  split; [reflexivity|]. split; [reflexivity|].
  cbn [timelines with_timelines]. split; [apply update_nth_length|].
  intros u x Hx. destruct (Nat.eq_dec t u) as [->|N].
  - rewrite nth_error_update_nth_same, Hx. eexists. split; [reflexivity|apply H].
  - rewrite (nth_error_update_nth_other _ _ _ _ N). exists x.
    split; [exact Hx|apply sameFrame_refl].
Qed.

Lemma kf_withErrors {A : Type} (f : list string -> A * list string) :
  keepsFrames (withErrors f).
Proof.
  intros s a s' E. unfold withErrors in E. destruct (f (errors s)) as [a' e].
  injection E as _ <-. repeat split.
  intros u x H. exists x. split; [exact H|apply sameFrame_refl].
Qed.

Lemma kf_throw {A : Type} : keepsFrames (@throw A).
Proof. intros s a s' E. discriminate E. Qed.

Ltac frames :=
  repeat first
    [ apply kf_ret | apply kf_throw | apply kf_getTL | apply kf_withErrors
    | apply kf_when
    | apply kf_forEach; intros ?
    | apply kf_bind; [|intros ?]
    | apply kf_modTL; intros ?;
      first [ apply sameFrame_kf_write; apply sameFrame_refl
            | repeat split ]
    | progress cbv zeta ].


Lemma kf_emptyStepProp (t : nat) (prop : string) :
  keepsFrames (emptyStepProp t prop).
Proof. unfold emptyStepProp. frames. Qed.

Lemma kf_setStyleProp (t : nat) (styles : StyleData) (locals : option Locals)
    (prop : string) :
  keepsFrames (setStyleProp t styles locals prop).
Proof.
  unfold setStyleProp. destruct (get prop styles) as [v0|]; [|apply kf_ret].
  apply kf_bind; [destruct locals; frames|]. intros val. frames.
Qed.

Lemma kf_fillFromLocal (t : nat) (prop : string) :
  keepsFrames (fillFromLocal t prop).
Proof.
  unfold fillFromLocal. apply kf_bind; [apply kf_getTL|]. intros b.
  apply kf_when. destruct (getP prop (_localTimelineStyles b) (_backFill b));
    frames.
Qed.

Lemma kf_setStyles (t : nat) (input : list StyleToken) (easing : option string)
    (empty : bool) (locals : option Locals) :
  keepsFrames (setStyles t input easing empty locals).
Proof.
  unfold setStyles. apply kf_bind.
  { apply kf_when. destruct easing; frames. }
  intros _. apply kf_bind; [apply kf_getTL|]. intros b.
  apply kf_bind; [apply kf_getTL|]. intros g. destruct empty.
  - apply kf_bind; [apply kf_forEach; intros p; apply kf_emptyStepProp|].
    intros _. frames.
  - cbv zeta.
    apply kf_bind; [apply kf_forEach; intros p; apply kf_setStyleProp|].
    intros _. apply kf_bind; [apply kf_getTL|]. intros b'.
    apply kf_forEach. intros p. apply kf_fillFromLocal.
Qed.



End Frames.

Section Animate.
Variable querySelectorAll : element -> string -> list element.


End Animate.



(** ** What a styling step leaves in the keyframe under the cursor *)

Lemma interpolated_value (v : value) (locals : option Locals)
    (errs : list string) :
  fst (interpolated v locals errs) = fst (interpolated v locals []).
Proof.
  destruct locals as [l|]; [|reflexivity]. unfold interpolated.
  destruct (interpolateLocals_appends v l) as [v' [x Hx]].
  rewrite !Hx. reflexivity.
Qed.



Section Complete.
Import TimelineBuilderMethods.
Variables (n t g : nat) (k : number).
Hypothesis owner_in_store : (g < n)%nat.















Section Step.
Variables (styles : StyleData) (locals : option Locals).
Variables (K0 L0 : string -> option value).




End Step.

Section Fill.
Variables (K1 L1 : string -> option value).


End Fill.


End Complete.

Lemma kf_get_update_cases (k k' : number) (f : StyleData -> StyleData)
    (kfs : list (number * StyleData)) :
  kf_get k (kf_update k' f kfs) = kf_get k kfs
  \/ exists x, kf_get k kfs = Some x
               /\ kf_get k (kf_update k' f kfs) = Some (f x).
Proof.
  induction kfs as [|[t' x] r IH]; simpl; [left; reflexivity|].
  destruct (sameValueZero k' t'); simpl.
  - destruct (sameValueZero k t'); [right; exists x; split; reflexivity|].
    left. reflexivity.
  - destruct (sameValueZero k t'); [left; reflexivity|exact IH].
Qed.

Lemma kf_own_write_other (b : TimelineBuilder) (k : number) (r : KeyframeRef)
    (p q : string) (v : value) :
  q <> p ->
  get q (kf_own (AtTime k) (kf_write r p v b)) = get q (kf_own (AtTime k) b).
Proof.
  intros N. destruct r as [|k']; [reflexivity|]. simpl.
  destruct (kf_get_update_cases k k' (set p v) (_keyframes b))
    as [E|[x [E1 E2]]].
  - rewrite E. reflexivity.
  - rewrite E1, E2. apply get_set_other. exact N.
Qed.

Lemma kf_write_local (b : TimelineBuilder) (r : KeyframeRef) (p : string)
    (v : value) :
  _localTimelineStyles (kf_write r p v b) = _localTimelineStyles b.
Proof. destruct r; reflexivity. Qed.

(** The head of [setStyles]: the easing goes to the previous keyframe. *)
Lemma easing_run (s : Store) (t : nat) (b gb : TimelineBuilder) (k : number)
    (easing : option string) :
  nth_error (timelines s) t = Some b ->
  _currentKeyframe b = AtTime k ->
  kf_get k (_keyframes b) <> None ->
  nth_error (timelines s) (_globalTimelineStyles b) = Some gb ->
  exists s1 b1 g1,
    when (str_truthy easing)
      (match easing with
       | Some e =>
           modTL t (fun b => kf_write (_previousKeyframe b) "easing" (VStr e) b)
       | None => ret tt
       end) s = Some (tt, s1)
    /\ length (timelines s1) = length (timelines s)
    /\ nth_error (timelines s1) t = Some b1
    /\ nth_error (timelines s1) (_globalTimelineStyles b) = Some g1
    /\ _localTimelineStyles g1 = _localTimelineStyles gb
    /\ _localTimelineStyles b1 = _localTimelineStyles b
    /\ cursorAt k (_globalTimelineStyles b) b1
    /\ (forall q, q <> "easing" ->
                  get q (kf_own (AtTime k) b1) = get q (kf_own (AtTime k) b))
    /\ _styleSummary b1 = _styleSummary b
    /\ _backFill b1 = _backFill b.
Proof.
  intros Hb C D Hg.
  assert (C0 : cursorAt k (_globalTimelineStyles b) b)
    by (repeat split; assumption).
  assert (same : exists s1 b1 g1 : _,
             Some (tt, s) = Some (tt, s1)
             /\ length (timelines s1) = length (timelines s)
             /\ nth_error (timelines s1) t = Some b1
             /\ nth_error (timelines s1) (_globalTimelineStyles b) = Some g1
             /\ _localTimelineStyles g1 = _localTimelineStyles gb
             /\ _localTimelineStyles b1 = _localTimelineStyles b
             /\ cursorAt k (_globalTimelineStyles b) b1
             /\ (forall q, q <> "easing" ->
                   get q (kf_own (AtTime k) b1) = get q (kf_own (AtTime k) b))
             /\ _styleSummary b1 = _styleSummary b
             /\ _backFill b1 = _backFill b).
  { exists s, b, gb. repeat split; auto; apply C0. }
  destruct (str_truthy easing); [|exact same].
  destruct easing as [e|]; [|exact same]. clear same. cbn [when].
  set (f := fun b0 => kf_write (_previousKeyframe b0) "easing" (VStr e) b0).
  assert (Kq : forall q, q <> "easing" ->
                get q (kf_own (AtTime k) (f b)) = get q (kf_own (AtTime k) b))
    by (intros q N; apply kf_own_write_other; exact N).
  assert (C1 : cursorAt k (_globalTimelineStyles b) (f b))
    by (apply cursorAt_kf_write; exact C0).
  destruct (Nat.eq_dec t (_globalTimelineStyles b)) as [E|N].
  - eexists _, (f b), (f b). split; [reflexivity|].
    cbn [timelines with_timelines]. split; [apply update_nth_length|].
    split; [rewrite nth_error_update_nth_same, Hb; reflexivity|].
    split; [rewrite <- E, nth_error_update_nth_same, Hb; reflexivity|].
    split.
    { rewrite <- E, Hb in Hg. injection Hg as <-. apply kf_write_local. }
    split; [apply kf_write_local|]. split; [exact C1|]. split; [exact Kq|].
    subst f; cbv beta; split; destruct (_previousKeyframe b); reflexivity.
  - eexists _, (f b), gb. split; [reflexivity|].
    cbn [timelines with_timelines]. split; [apply update_nth_length|].
    split; [rewrite nth_error_update_nth_same, Hb; reflexivity|].
    split; [rewrite (nth_error_update_nth_other _ _ _ _ N); exact Hg|].
    split; [reflexivity|].
    split; [apply kf_write_local|]. split; [exact C1|]. split; [exact Kq|].
    subst f; cbv beta; split; destruct (_previousKeyframe b); reflexivity.
Qed.



(** ** Flattening the styles of a step *)


(** ** Querying the elements *)

(** X21.  [invokeQuery] never throws.  A single query returns at most one
    element, and with [includeSelf] it returns the root element alone and
    does not consult the selector.  The one error it can add is that no
    element was found, which it adds exactly when the query is not optional
    and the result is empty; so with [includeSelf], or when optional, the
    store is left as it is. *)
Theorem invokeQuery_results :
  forall (querySelectorAll : element -> string -> list element)
         (rootElement : element) (selector originalSelector : string)
         (multi includeSelf optional : bool) (s : Store),
    exists res,
      invokeQuery querySelectorAll rootElement selector originalSelector multi
        includeSelf optional s
      = Some (res,
              if negb optional && (length res =? 0)%nat
              then with_errors
                     (errors s
                      ++ [zero_elements_message
                            (if multi then "queryAll" else "query")
                            originalSelector]) s
              else s)
      /\ (multi = true ->
          res = (if includeSelf then [rootElement] else [])
                ++ querySelectorAll rootElement selector)
      /\ (multi = false -> (length res <= 1)%nat)
      /\ (multi = false -> includeSelf = true -> res = [rootElement])
      /\ (multi = false -> includeSelf = false ->
          res = firstn 1 (querySelectorAll rootElement selector))
      /\ (includeSelf = true \/ optional = true ->
          invokeQuery querySelectorAll rootElement selector originalSelector
            multi includeSelf optional s = Some (res, s)).
Proof.
  intros q root sel orig multi self opt s. unfold invokeQuery.
  exists (if multi then (if self then [root] else []) ++ q root sel
          else if self then [root] else firstn 1 (q root sel)).
  destruct multi, self, opt; destruct (q root sel) as [|e r];
    cbn [app length firstn Nat.eqb negb andb when bind ret];
    (split; [reflexivity|]);
    (split; [intros H; first [reflexivity | discriminate H]|]);
    (split; [intros H; first [simpl; lia | discriminate H]|]);
    (split; [intros H1 H2;
             first [reflexivity | discriminate H1 | discriminate H2]|]);
    (split; [intros H1 H2;
             first [reflexivity | discriminate H1 | discriminate H2]|]);
    intros [H|H]; first [reflexivity | discriminate H].
Qed.

(** ** The store stays well-formed *)

Lemma sameBuilder_refl (b : TimelineBuilder) : sameBuilder b b.
Proof. repeat split. Qed.

Lemma sameBuilder_trans (a b c : TimelineBuilder) :
  sameBuilder a b -> sameBuilder b c -> sameBuilder a c.
Proof. intros [A1 [A2 A3]] [B1 [B2 B3]]. repeat split; congruence. Qed.

Lemma extends_refl (s : Store) : extends s s.
Proof.
  unfold extends. repeat split; auto.
  - exists []. rewrite app_nil_r. reflexivity.
  - intros i b H. exists b. split; [exact H|apply sameBuilder_refl].
  - intros j c H. exists c. auto.
Qed.

Lemma extends_trans (a b c : Store) : extends a b -> extends b c -> extends a c.
Proof.
  intros [A1 [A2 [[x A3] [A4 A5]]]] [B1 [B2 [[y B3] [B4 B5]]]].
  unfold extends. split; [lia|]. split; [lia|]. split; [|split].
  - exists (x ++ y). rewrite B3, A3, app_assoc. reflexivity.
  - intros i x0 H. destruct (A4 i x0 H) as [x1 [H1 S1]].
    destruct (B4 i x1 H1) as [x2 [H2 S2]]. exists x2.
    split; [exact H2|]. apply (sameBuilder_trans _ _ _ S1 S2).
  - intros j c0 H. destruct (A5 j c0 H) as [c1 [H1 [E1 P1]]].
    destruct (B5 j c1 H1) as [c2 [H2 [E2 P2]]]. exists c2.
    split; [exact H2|]. split; congruence.
Qed.

Lemma sound_ret {A : Type} (a : A) : sound (ret a).
Proof.
  intros s a' s' W E. injection E as <- <-. split; [exact W|apply extends_refl].
Qed.

Lemma sound_throw {A : Type} : sound (@throw A).
Proof. intros s a s' W E. discriminate E. Qed.

Lemma sound_bind {A B : Type} (m : M A) (k : A -> M B) :
  sound m -> (forall a, sound (k a)) -> sound (bind m k).
Proof.
  intros Hm Hk s b s' W E. destruct (bind_inv _ _ _ _ _ E) as [a [s1 [E1 E2]]].
  destruct (Hm _ _ _ W E1) as [W1 X1].
  destruct (Hk a _ _ _ W1 E2) as [W2 X2].
  split; [exact W2|apply (extends_trans _ _ _ X1 X2)].
Qed.

Lemma sound_when (c : bool) (m : M unit) : sound m -> sound (when c m).
Proof. intros H. destruct c; [exact H|apply sound_ret]. Qed.

Lemma sound_forEach {A : Type} (f : A -> M unit) (l : list A) :
  (forall x, In x l -> sound (f x)) -> sound (forEach f l).
Proof.
  induction l as [|x r IH]; intros H; cbn [forEach].
  - apply sound_ret.
  - apply sound_bind; [apply H; left; reflexivity|].
    intros []. apply IH. intros y Hy. apply H. right. exact Hy.
Qed.

Lemma sound_foldM {A St : Type} (f : St -> A -> M St) (l : list A) :
  (forall acc x, In x l -> sound (f acc x)) ->
  forall acc, sound (Visitor.foldM f l acc).
Proof.
  induction l as [|x r IH]; intros H acc; cbn [Visitor.foldM].
  - apply sound_ret.
  - apply sound_bind; [apply H; left; reflexivity|].
    intros acc'. apply IH. intros a y Hy. apply H. right. exact Hy.
Qed.

Lemma sound_foldIndexedM {A St : Type} (f : St -> A -> nat -> M St)
    (l : list A) :
  (forall acc x i, sound (f acc x i)) ->
  forall i acc, sound (Visitor.foldIndexedM f l i acc).
Proof.
  intros H. induction l as [|x r IH]; intros i acc; cbn [Visitor.foldIndexedM].
  - apply sound_ret.
  - apply sound_bind; [apply H|]. intros acc'. apply IH.
Qed.

Lemma sound_getCtx (j : nat) : sound (getCtx j).
Proof.
  intros s c s' W E. unfold getCtx in E.
  destruct (nth_error (contexts s) j); [|discriminate].
  injection E as <- <-. split; [exact W|apply extends_refl].
Qed.

Lemma sound_getTL (t : nat) : sound (getTL t).
Proof.
  intros s c s' W E. unfold getTL in E.
  destruct (nth_error (timelines s) t); [|discriminate].
  injection E as <- <-. split; [exact W|apply extends_refl].
Qed.

Lemma sound_gets {A : Type} (f : Store -> A) : sound (gets f).
Proof.
  intros s c s' W E. injection E as <- <-. split; [exact W|apply extends_refl].
Qed.

Lemma nth_error_update_nth_inv {A : Type} (u i : nat) (f : A -> A)
    (l : list A) (y : A) :
  nth_error (update_nth u f l) i = Some y ->
  exists x, nth_error l i = Some x /\ (y = x \/ y = f x).
Proof.
  destruct (Nat.eq_dec u i) as [->|N].
  - rewrite nth_error_update_nth_same.
    destruct (nth_error l i) as [x|]; [|discriminate].
    intros H. injection H as <-. exists x. auto.
  - rewrite (nth_error_update_nth_other _ _ _ _ N). intros H. exists y. auto.
Qed.

Lemma nth_error_update_nth_fwd {A : Type} (u i : nat) (f : A -> A)
    (l : list A) (x : A) :
  nth_error l i = Some x ->
  exists y, nth_error (update_nth u f l) i = Some y /\ (y = x \/ y = f x).
Proof.
  intros H. destruct (Nat.eq_dec u i) as [->|N].
  - rewrite nth_error_update_nth_same, H. exists (f x). auto.
  - rewrite (nth_error_update_nth_other _ _ _ _ N). exists x. auto.
Qed.

Lemma keepsId_either (f : TimelineBuilder -> TimelineBuilder)
    (x y : TimelineBuilder) :
  keepsId f -> y = x \/ y = f x -> sameBuilder x y.
Proof. intros K [->| ->]; [apply sameBuilder_refl|apply K]. Qed.

Lemma sound_modTL (u : nat) (f : TimelineBuilder -> TimelineBuilder) :
  keepsId f -> sound (modTL u f).
Proof.
  intros K s a s' [Wa [Wb Wc]] E. injection E as _ <-. split.
  - unfold wellFormed. cbn [timelines contexts _elementTimelineStylesLookup
                              with_timelines].
    split; [|split].
    + intros i y Hy.
      destruct (nth_error_update_nth_inv _ _ _ _ _ Hy) as [x [Hx Exy]].
      destruct (keepsId_either _ _ _ K Exy) as [Y1 [Y2 _]].
      destruct (Wa i x Hx) as [o [Ho Eo]].
      destruct (nth_error_update_nth_fwd u _ f _ _ Ho) as [o' [Ho' Eo']].
      destruct (keepsId_either _ _ _ K Eo') as [O1 _].
      exists o'. rewrite Y2. split; [exact Ho'|congruence].
    + intros el o Hin. destruct (Wb el o Hin) as [ob [Ho Eo]].
      destruct (nth_error_update_nth_fwd u _ f _ _ Ho) as [o' [Ho' Eo']].
      destruct (keepsId_either _ _ _ K Eo') as [O1 _].
      exists o'. split; [exact Ho'|congruence].
    + intros j c Hc. rewrite update_nth_length. apply (Wc j c Hc).
  - unfold extends. cbn [timelines contexts errors with_timelines].
    rewrite update_nth_length. split; [lia|]. split; [lia|].
    split; [exists []; rewrite app_nil_r; reflexivity|]. split.
    + intros i x Hx.
      destruct (nth_error_update_nth_fwd u _ f _ _ Hx) as [y [Hy Exy]].
      exists y. split; [exact Hy|apply (keepsId_either _ _ _ K Exy)].
    + intros j c Hc. exists c. auto.
Qed.

Lemma sound_modCtx (j : nat)
    (f : AnimationTimelineContext -> AnimationTimelineContext) :
  keepsCtx f -> sound (modCtx j f).
Proof.
  intros K s a s' [Wa [Wb Wc]] E. injection E as _ <-. split.
  - unfold wellFormed. cbn [timelines contexts _elementTimelineStylesLookup
                              with_contexts].
    split; [exact Wa|]. split; [exact Wb|].
    intros i y Hy.
    destruct (nth_error_update_nth_inv _ _ _ _ _ Hy) as [x [Hx [->| ->]]].
    + apply (Wc i x Hx).
    + destruct (K x) as [_ [_ ->]]. apply (Wc i x Hx).
  - unfold extends. cbn [timelines contexts errors with_contexts].
    rewrite update_nth_length. split; [lia|]. split; [lia|].
    split; [exists []; rewrite app_nil_r; reflexivity|]. split.
    + intros i x Hx. exists x. split; [exact Hx|apply sameBuilder_refl].
    + intros i x Hx.
      destruct (nth_error_update_nth_fwd j _ f _ _ Hx) as [y [Hy [->| ->]]].
      * exists x. auto.
      * exists (f x). destruct (K x) as [K1 [K2 _]]. auto.
Qed.

Lemma sound_errors {A : Type} (m : M A) :
  (forall s a s', m s = Some (a, s') ->
     exists extra, s' = with_errors (errors s ++ extra) s) ->
  sound m.
Proof.
  intros H s a s' W E. destruct (H _ _ _ E) as [x ->]. split.
  - exact W.
  - unfold extends. cbn [timelines contexts errors with_errors].
    split; [lia|]. split; [lia|]. split; [exists x; reflexivity|]. split.
    + intros i b Hb. exists b. split; [exact Hb|apply sameBuilder_refl].
    + intros j c Hc. exists c. auto.
Qed.

Lemma sound_withErrors {A : Type} (f : list string -> A * list string) :
  (forall errs, exists extra, snd (f errs) = errs ++ extra) ->
  sound (withErrors f).
Proof.
  intros H. apply sound_errors. intros s a s' E. unfold withErrors in E.
  destruct (H (errors s)) as [x Hx]. destruct (f (errors s)) as [a0 e].
  injection E as _ <-. exists x. simpl in Hx. rewrite Hx. reflexivity.
Qed.

Lemma sound_pushError (msg : string) : sound (pushError msg).
Proof.
  apply sound_errors. intros s a s' E. injection E as _ <-.
  exists [msg]. reflexivity.
Qed.

Lemma wellFormed_more_builders (s : Store) (b : TimelineBuilder)
    (lookup' : list (element * nat)) :
  wellFormed s ->
  (exists o, nth_error (timelines s ++ [b]) (_globalTimelineStyles b) = Some o
             /\ tl_element o = tl_element b) ->
  (forall el o, In (el, o) lookup' ->
     exists ob, nth_error (timelines s ++ [b]) o = Some ob /\ tl_element ob = el) ->
  wellFormed (with_lookup lookup' (with_timelines (timelines s ++ [b]) s))
  /\ extends s (with_lookup lookup' (with_timelines (timelines s ++ [b]) s)).
Proof.
  intros [Wa [Wb Wc]] Hb Hl. split.
  - unfold wellFormed. cbn [timelines contexts _elementTimelineStylesLookup
                              with_lookup with_timelines].
    split; [|split].
    + intros i x Hx.
      destruct (Nat.lt_ge_cases i (length (timelines s))) as [L|G].
      * rewrite (nth_error_app1 _ _ L) in Hx.
        destruct (Wa i x Hx) as [o [Ho Eo]]. exists o. split; [|exact Eo].
        rewrite nth_error_app1; [exact Ho|].
        apply nth_error_Some. rewrite Ho. discriminate.
      * rewrite (nth_error_app2 _ _ G) in Hx.
        destruct (i - length (timelines s))%nat as [|d]; simpl in Hx.
        -- injection Hx as <-. exact Hb.
        -- destruct d; discriminate.
    + exact Hl.
    + intros j c Hc. rewrite length_app. pose proof (Wc j c Hc). lia.
  - unfold extends. cbn [timelines contexts errors with_lookup with_timelines].
    rewrite length_app. split; [lia|]. split; [lia|].
    split; [exists []; rewrite app_nil_r; reflexivity|]. split.
    + intros i x Hx. exists x. split; [|apply sameBuilder_refl].
      rewrite nth_error_app1; [exact Hx|].
      apply nth_error_Some. rewrite Hx. discriminate.
    + intros j c Hc. exists c. auto.
Qed.

Lemma initialBuilder_id (el : element) (start : number) (owner : nat)
    (sub : option SubTimeline) :
  tl_element (initialBuilder el start owner sub) = el
  /\ _globalTimelineStyles (initialBuilder el start owner sub) = owner.
Proof. split; reflexivity. Qed.

Lemma nth_error_snoc {A : Type} (l : list A) (x : A) :
  nth_error (l ++ [x]) (length l) = Some x.
Proof. rewrite nth_error_app2, Nat.sub_diag; [reflexivity|lia]. Qed.

Lemma nth_error_app_old {A : Type} (l : list A) (x y : A) (i : nat) :
  nth_error l i = Some y -> nth_error (l ++ [x]) i = Some y.
Proof.
  intros H. rewrite nth_error_app1; [exact H|].
  apply nth_error_Some. rewrite H. discriminate.
Qed.

(** The constructor of a builder; the new builder is the last one. *)
Lemma construct_sound (el : element) (start : number) (shared : bool)
    (sub : option SubTimeline) (s s' : Store) (id : nat) :
  wellFormed s ->
  TimelineBuilderMethods.construct el start shared sub s = Some (id, s') ->
  wellFormed s' /\ extends s s'
  /\ (id < length (timelines s'))%nat
  /\ contexts s' = contexts s.
Proof.
  intros W E. unfold TimelineBuilderMethods.construct in E.
  injection E as <- <-.
  set (known := if shared then _ else None).
  assert (Hk : forall o, known = Some o ->
                         In (el, o) (_elementTimelineStylesLookup s)).
  { unfold known. destruct shared; [|discriminate].
    destruct (find _ _) as [[e o']|] eqn:F; [|discriminate].
    intros o H. injection H as <-. apply find_some in F. destruct F as [F1 F2].
    simpl in F2. apply Nat.eqb_eq in F2. subst e. exact F1. }
  pose proof W as [Wa [Wb Wc]].
  assert (R : wellFormed
                (with_lookup
                   match known with
                   | Some _ => _elementTimelineStylesLookup s
                   | None =>
                       if shared
                       then _elementTimelineStylesLookup s
                            ++ [(el, length (timelines s))]
                       else _elementTimelineStylesLookup s
                   end
                   (with_timelines
                      (timelines s
                       ++ [initialBuilder el start
                             match known with
                             | Some o => o
                             | None => length (timelines s)
                             end sub]) s))
              /\ extends s
                   (with_lookup
                      match known with
                      | Some _ => _elementTimelineStylesLookup s
                      | None =>
                          if shared
                          then _elementTimelineStylesLookup s
                               ++ [(el, length (timelines s))]
                          else _elementTimelineStylesLookup s
                      end
                      (with_timelines
                         (timelines s
                          ++ [initialBuilder el start
                                match known with
                                | Some o => o
                                | None => length (timelines s)
                                end sub]) s))).
  { apply wellFormed_more_builders; [exact W| |].
    - cbn [_globalTimelineStyles initialBuilder]. 
      change (_globalTimelineStyles (initialBuilder el start ?o sub)) with o.
      destruct known as [o|] eqn:K.
      + destruct (Wb el o (Hk o eq_refl)) as [ob [Ho Eo]].
        exists ob. split; [apply nth_error_app_old; exact Ho|exact Eo].
      + eexists. split; [apply nth_error_snoc|reflexivity].
    - intros e o Hin.
      assert (old : In (e, o) (_elementTimelineStylesLookup s) ->
                    exists ob, nth_error (timelines s ++ [initialBuilder el start
                                 match known with Some o0 => o0
                                 | None => length (timelines s) end sub]) o
                               = Some ob /\ tl_element ob = e).
      { intros H. destruct (Wb e o H) as [ob [Ho Eo]].
        exists ob. split; [apply nth_error_app_old; exact Ho|exact Eo]. }
      destruct known as [o0|]; [apply old; exact Hin|].
      destruct shared; [|apply old; exact Hin].
      apply in_app_or in Hin. destruct Hin as [H|[H|[]]]; [apply old; exact H|].
      injection H as <- <-. eexists. split; [apply nth_error_snoc|reflexivity]. }
  destruct R as [R1 R2]. split; [exact R1|]. split; [exact R2|].
  cbn [timelines contexts with_lookup with_timelines]. rewrite length_app.
  simpl. split; [lia|reflexivity].
Qed.

Lemma sound_construct (el : element) (start : number) (shared : bool)
    (sub : option SubTimeline) :
  sound (TimelineBuilderMethods.construct el start shared sub).
Proof.
  intros s id s' W E. destruct (construct_sound _ _ _ _ _ _ _ W E) as [A [B _]].
  auto.
Qed.

Lemma fork_sound (t : nat) (el : element) (time : number) (s s' : Store)
    (id : nat) :
  wellFormed s ->
  TimelineBuilderMethods.fork t el time s = Some (id, s') ->
  wellFormed s' /\ extends s s'
  /\ (id < length (timelines s'))%nat
  /\ contexts s' = contexts s.
Proof.
  intros W E. unfold TimelineBuilderMethods.fork in E.
  destruct (bind_inv _ _ _ _ _ E) as [b [s1 [E1 E2]]].
  unfold getTL in E1. destruct (nth_error (timelines s) t); [|discriminate].
  injection E1 as _ <-. apply (construct_sound _ _ _ _ _ _ _ W E2).
Qed.

Lemma update_nth_last {A : Type} (f : A -> A) (l : list A) (x : A) :
  update_nth (length l) f (l ++ [x]) = l ++ [f x].
Proof. induction l as [|y r IH]; simpl; [reflexivity|]. rewrite IH. reflexivity. Qed.

(** A new context on a builder of the store, with its fields filled in. *)
Lemma new_context_sound (el : element) (t : nat)
    (f : AnimationTimelineContext -> AnimationTimelineContext)
    (s s2 s3 : Store) (id : nat) :
  wellFormed s ->
  (t < length (timelines s))%nat ->
  (forall x, currentTimeline (f x) = t) ->
  Context.construct el t s = Some (id, s2) ->
  modCtx id f s2 = Some (tt, s3) ->
  wellFormed s3 /\ extends s s3.
Proof.
  intros [Wa [Wb Wc]] Ht Hf E2 E3. injection E2 as <- <-.
  injection E3 as <-. cbn [contexts with_contexts]. rewrite update_nth_last.
  split.
  - unfold wellFormed. cbn [timelines contexts _elementTimelineStylesLookup
                              with_contexts].
    split; [exact Wa|]. split; [exact Wb|].
    intros j c Hc.
    destruct (Nat.lt_ge_cases j (length (contexts s))) as [L|G].
    + rewrite (nth_error_app1 _ _ L) in Hc. apply (Wc j c Hc).
    + rewrite (nth_error_app2 _ _ G) in Hc.
      destruct (j - length (contexts s))%nat as [|d]; simpl in Hc.
      * injection Hc as <-. rewrite Hf. exact Ht.
      * destruct d; discriminate.
  - unfold extends. cbn [timelines contexts errors with_contexts].
    rewrite length_app. split; [lia|]. split; [lia|].
    split; [exists []; rewrite app_nil_r; reflexivity|]. split.
    + intros i b Hb. exists b. split; [exact Hb|apply sameBuilder_refl].
    + intros j c Hc. exists c. split; [apply nth_error_app_old; exact Hc|auto].
Qed.

Ltac keeps_ctx := intros ?; repeat split.

Lemma sound_createSubContext (this : nat) (locals : option Locals)
    (el : option element) (newTime : option number) :
  sound (Context.createSubContext this locals el newTime).
Proof.
  intros s id s' W E. unfold Context.createSubContext in E.
  destruct (bind_inv _ _ _ _ _ E) as [c [s0 [E0 E1]]]. clear E.
  destruct (sound_getCtx _ _ _ _ W E0) as [W0 X0].
  destruct (bind_inv _ _ _ _ _ E1) as [t [s1 [E2 E3]]]. clear E1.
  destruct (fork_sound _ _ _ _ _ _ W0 E2) as [W1 [X1 [Ht _]]].
  destruct (bind_inv _ _ _ _ _ E3) as [context [s2 [E4 E5]]]. clear E3.
  destruct (bind_inv _ _ _ _ _ E5) as [[] [s3 [E6 E7]]]. clear E5.
  assert (W3 : wellFormed s3 /\ extends s1 s3).
  { eapply new_context_sound; [exact W1|exact Ht| |exact E4|exact E6].
    intros x. reflexivity. }
  destruct W3 as [W3 X3].
  destruct (bind_inv _ _ _ _ _ E7) as [[] [s4 [E8 E9]]]. clear E7.
  assert (K : keepsCtx (fun x => with_subContextCount (S (subContextCount x)) x))
    by keeps_ctx.
  destruct (sound_modCtx _ _ K _ _ _ W3 E8) as [W4 X4].
  injection E9 as _ <-. split; [exact W4|].
  apply (extends_trans _ _ _ X0).
  apply (extends_trans _ _ _ X1).
  apply (extends_trans _ _ _ X3). exact X4.
Qed.

(** A context moves to a builder of the store. *)
Lemma move_context_sound (j t : nat) (s s' : Store) :
  wellFormed s ->
  (t < length (timelines s))%nat ->
  modCtx j (with_currentTimeline t) s = Some (tt, s') ->
  wellFormed s' /\ extends s s'.
Proof.
  intros [Wa [Wb Wc]] Ht E. injection E as <-. split.
  - unfold wellFormed. cbn [timelines contexts _elementTimelineStylesLookup
                              with_contexts].
    split; [exact Wa|]. split; [exact Wb|].
    intros i y Hy.
    destruct (nth_error_update_nth_inv _ _ _ _ _ Hy) as [x [Hx [->| ->]]].
    + apply (Wc i x Hx).
    + exact Ht.
  - unfold extends. cbn [timelines contexts errors with_contexts].
    rewrite update_nth_length. split; [lia|]. split; [lia|].
    split; [exists []; rewrite app_nil_r; reflexivity|]. split.
    + intros i x Hx. exists x. split; [exact Hx|apply sameBuilder_refl].
    + intros i x Hx.
      destruct (nth_error_update_nth_fwd j _ (with_currentTimeline t) _ _ Hx)
        as [y [Hy [->| ->]]]; [exists x; auto|].
      eexists. split; [exact Hy|]. split; reflexivity.
Qed.

Lemma sound_transformIntoNewTimeline (this : nat) (newTime : option number) :
  sound (Context.transformIntoNewTimeline this newTime).
Proof.
  intros s id s' W E. unfold Context.transformIntoNewTimeline in E.
  destruct (bind_inv _ _ _ _ _ E) as [[] [s0 [E0 E1]]]. clear E.
  assert (K : keepsCtx (with_previousNode None)) by keeps_ctx.
  destruct (sound_modCtx _ _ K _ _ _ W E0) as [W0 X0].
  destruct (bind_inv _ _ _ _ _ E1) as [c [s1 [E2 E3]]]. clear E1.
  destruct (sound_getCtx _ _ _ _ W0 E2) as [W1 X1].
  destruct (bind_inv _ _ _ _ _ E3) as [t [s2 [E4 E5]]]. clear E3.
  destruct (fork_sound _ _ _ _ _ _ W1 E4) as [W2 [X2 [Ht _]]].
  destruct (bind_inv _ _ _ _ _ E5) as [[] [s3 [E6 E7]]]. clear E5.
  destruct (move_context_sound _ _ _ _ W2 Ht E6) as [W3 X3].
  injection E7 as _ <-. split; [exact W3|].
  apply (extends_trans _ _ _ X0).
  apply (extends_trans _ _ _ X1).
  apply (extends_trans _ _ _ X2). exact X3.
Qed.

Lemma resolveTiming_appends (timings : TimingInput) (allow : bool)
    (errs : list string) :
  exists extra, snd (resolveTiming timings errs allow) = errs ++ extra.
Proof.
  destruct timings as [exp|t]; simpl.
  2:{ exists []. rewrite app_nil_r. reflexivity. }
  unfold parseTimeExpression.
  assert (F : forall dur del eas, exists extra,
             snd (mkTimings dur del eas,
                  if negb allow then check_negative exp dur del errs else errs)
             = errs ++ extra).
  { intros dur del eas. destruct allow; simpl.
    - exists []. rewrite app_nil_r. reflexivity.
    - eexists. rewrite check_negative_spec. reflexivity. }
  destruct exp as [n|s]; [apply F|].
  destruct (timing_regex s); [apply F|].
  eexists [_]. reflexivity.
Qed.

Ltac keeps_id :=
  intros ?b;
  unfold sameBuilder, delayNextStep, forwardFrame, forwardTime,
    snapshotCurrentStyles, _loadKeyframe, kf_write;
  repeat match goal with
         | |- context [match ?x with _ => _ end] => destruct x
         end;
  repeat split.

Ltac sound_prim :=
  lazymatch goal with
  | |- sound (ret _) => apply sound_ret
  | |- sound throw => apply sound_throw
  | |- sound (bind _ _) => apply sound_bind; [|intros ?]
  | |- sound (when _ _) => apply sound_when
  | |- sound (getCtx _) => apply sound_getCtx
  | |- sound (getTL _) => apply sound_getTL
  | |- sound (gets _) => apply sound_gets
  | |- sound (modTL _ _) => apply sound_modTL; keeps_id
  | |- sound (modCtx _ _) => apply sound_modCtx; keeps_ctx
  | |- sound (pushError _) => apply sound_pushError
  | |- sound (forEach _ _) => apply sound_forEach; intros ? _
  | |- sound (Visitor.foldM _ _ _) => apply sound_foldM; intros ? ? _
  | |- sound (Context.createSubContext _ _ _ _) => apply sound_createSubContext
  | |- sound (Context.transformIntoNewTimeline _ _) =>
      apply sound_transformIntoNewTimeline
  | |- sound (TimelineBuilderMethods.construct _ _ _ _) => apply sound_construct
  | |- sound (match ?x with _ => _ end) => destruct x
  end.

Section SoundMethods.
Import TimelineBuilderMethods.

Lemma sound_updateStyle (t : nat) (prop : string) (v : value) :
  sound (_updateStyle t prop v).
Proof. unfold _updateStyle. repeat sound_prim. Qed.

Lemma sound_emptyStepProp (t : nat) (prop : string) :
  sound (emptyStepProp t prop).
Proof. unfold emptyStepProp. cbv zeta. repeat sound_prim. Qed.

Lemma sound_setStyleProp (t : nat) (styles : StyleData)
    (locals : option Locals) (prop : string) :
  sound (setStyleProp t styles locals prop).
Proof.
  unfold setStyleProp. cbv zeta.
  destruct (get prop styles) as [v0|]; [|apply sound_ret].
  apply sound_bind.
  { destruct locals as [l|]; [|apply sound_ret].
    apply sound_withErrors. intros errs.
    destruct (interpolateLocals_appends v0 l) as [v' [x Hx]].
    exists x. rewrite Hx. reflexivity. }
  intros val. repeat first [apply sound_updateStyle | sound_prim].
Qed.

Lemma sound_fillFromLocal (t : nat) (prop : string) :
  sound (fillFromLocal t prop).
Proof. unfold fillFromLocal. repeat sound_prim. Qed.

Lemma sound_setStyles (t : nat) (input : list StyleToken)
    (easing : option string) (empty : bool) (locals : option Locals) :
  sound (setStyles t input easing empty locals).
Proof.
  unfold setStyles. cbv zeta.
  repeat first [apply sound_emptyStepProp | apply sound_setStyleProp
               | apply sound_fillFromLocal | sound_prim].
Qed.

Lemma sound_mergeTimelineCollectedStyles (t other : nat) :
  sound (mergeTimelineCollectedStyles t other).
Proof.
  unfold mergeTimelineCollectedStyles, mergeProp. cbv zeta.
  repeat first [apply sound_updateStyle | sound_prim].
Qed.
End SoundMethods.

Lemma sound_asNumber (v : value) : sound (Context.asNumber v).
Proof. unfold Context.asNumber. repeat sound_prim. Qed.

Lemma sound_asString (v : value) : sound (Context.asString v).
Proof. unfold Context.asString. repeat sound_prim. Qed.

Lemma sound_appendInstructionToTimeline (this : nat)
    (instruction : AnimationTimelineInstruction)
    (d l e : option value) :
  sound (Context.appendInstructionToTimeline this instruction d l e).
Proof.
  unfold Context.appendInstructionToTimeline. cbv zeta.
  repeat first [apply sound_asNumber | apply sound_asString | sound_prim].
Qed.

Lemma sound_incrementTime (this : nat) (t : number) :
  sound (Context.incrementTime this t).
Proof. unfold Context.incrementTime. repeat sound_prim. Qed.

Lemma sound_ctx_delayNextStep (this : nat) (d : number) :
  sound (Context.delayNextStep this d).
Proof. unfold Context.delayNextStep. repeat sound_prim. Qed.

Ltac sound_method :=
  first
    [ apply sound_setStyles
    | apply sound_mergeTimelineCollectedStyles
    | apply sound_appendInstructionToTimeline
    | apply sound_incrementTime
    | apply sound_ctx_delayNextStep
    | sound_prim ].

Lemma sound_timelineTime (context : nat) : sound (timelineTime context).
Proof. unfold timelineTime. repeat sound_method. Qed.

Lemma sound_delayByLocals (context : nat) : sound (delayByLocals context).
Proof. unfold delayByLocals. repeat sound_method. Qed.

Lemma sound_applyStyles (styles : list StyleToken) (easing : option string)
    (empty : bool) (context : nat) :
  sound (_applyStyles styles easing empty context).
Proof. unfold _applyStyles. repeat sound_method. Qed.

Lemma sound_visitTiming (ast : TimingAst) (context : nat) :
  sound (visitTiming ast context).
Proof.
  unfold visitTiming. destruct ast as [t|v]; [apply sound_ret|].
  apply sound_bind; [apply sound_getCtx|]. intros c.
  apply sound_bind.
  - apply sound_withErrors. intros errs.
    destruct (interpolateLocals_appends (VStr v) (ctx_locals c)) as [v' [x Hx]].
    exists x. rewrite Hx. reflexivity.
  - intros sv. apply sound_withErrors. intros errs.
    apply resolveTiming_appends.
Qed.

Lemma sound_visitStyle (ast : Ast) (st : StyleStep) (context : nat) :
  sound (visitStyle ast st context).
Proof.
  unfold visitStyle. cbv zeta.
  repeat first [apply sound_applyStyles | sound_method].
Qed.

Lemma sound_visitKeyframes (ast : Ast) (steps : list StyleStep)
    (context : nat) :
  sound (visitKeyframes ast steps context).
Proof.
  unfold visitKeyframes. cbv zeta.
  repeat first [apply sound_applyStyles | sound_method].
Qed.

Lemma sound_visitAnimate (ast : Ast) (timings : TimingAst) (style : Ast)
    (context : nat) :
  sound (visitAnimate ast timings style context).
Proof.
  unfold visitAnimate.
  repeat first [apply sound_visitTiming | apply sound_visitKeyframes
               | apply sound_visitStyle | sound_method].
Qed.

Lemma sound_visitSubInstructions
    (instructions : list AnimationTimelineInstruction) (context : nat) :
  sound (_visitSubInstructions instructions context).
Proof.
  unfold _visitSubInstructions. cbv zeta.
  repeat first [apply sound_timelineTime | sound_method].
Qed.

Lemma sound_beginStagger (timings : AnimateTimings) (context : nat) :
  sound (beginStagger timings context).
Proof. unfold beginStagger. cbv zeta. repeat sound_method. Qed.

Lemma sound_endStagger (ast : Ast) (tl : nat) (startingTime : number)
    (context : nat) :
  sound (endStagger ast tl startingTime context).
Proof. unfold endStagger. repeat sound_method. Qed.

Lemma sound_invokeQuery (q : element -> string -> list element)
    (rootElement : element) (selector originalSelector : string)
    (multi includeSelf optional : bool) :
  sound (invokeQuery q rootElement selector originalSelector multi includeSelf
           optional).
Proof. unfold invokeQuery. cbv zeta. repeat sound_method. Qed.

Ltac sound_visitor :=
  first
    [ apply sound_visitStyle
    | apply sound_visitAnimate
    | apply sound_visitKeyframes
    | apply sound_visitSubInstructions
    | apply sound_timelineTime
    | apply sound_delayByLocals
    | apply sound_beginStagger
    | apply sound_endStagger
    | apply sound_invokeQuery
    | apply sound_foldIndexedM; intros [? ?] ? ?
    | sound_method ].

Lemma sound_consume (el : element) :
  sound (fun s =>
           let '(ins, m) := consume el (subInstructions s) in
           Some (ins, with_subInstructions m s)).
Proof.
  intros s a s' W E. destruct (consume el (subInstructions s)) as [ins m].
  injection E as _ <-. split; [exact W|].
  unfold extends. cbn [timelines contexts errors with_subInstructions].
  split; [lia|]. split; [lia|].
  split; [exists []; rewrite app_nil_r; reflexivity|]. split.
  - intros i b Hb. exists b. split; [exact Hb|apply sameBuilder_refl].
  - intros j c Hc. exists c. auto.
Qed.

Lemma sound_visit (q : element -> string -> list element) :
  forall (ast : Ast) (context : nat), sound (visit q ast context).
Proof.
  fix IH 1. intros ast context.
  destruct ast as [st|timings style|steps|steps locals|steps locals
                  |sel osel multi self animation locals|timings animation
                  |animation locals|locals|animation locals| | |];
    cbn [visit]; cbv zeta.
  - apply sound_visitStyle.
  - apply sound_visitAnimate.
  - apply sound_visitKeyframes.
  - assert (F : Forall (fun x => forall c, sound (visit q x c)) steps).
    { induction steps as [|x r IHr]; constructor; [apply IH|exact IHr]. }
    clear IH. rewrite Forall_forall in F.
    repeat first [ apply sound_forEach; intros x Hx; apply (F x Hx)
                 | sound_visitor ].
  - assert (F : Forall (fun x => forall c, sound (visit q x c)) steps).
    { induction steps as [|x r IHr]; constructor; [apply IH|exact IHr]. }
    clear IH. rewrite Forall_forall in F.
    repeat first [ apply sound_foldM; intros [? ?] x Hx
                 | match goal with
                   | H : In ?x steps |- sound (visit q ?x _) => apply (F x H)
                   end
                 | sound_visitor ].
  - repeat first [ apply IH | sound_visitor ].
  - repeat first [ apply IH | sound_visitor ].
  - repeat first [ apply IH | sound_visitor ].
  - repeat first [ apply sound_consume | sound_visitor ].
  - repeat first [ apply IH | sound_visitor ].
  - apply sound_ret.
  - apply sound_ret.
  - apply sound_ret.
Qed.

(** X22.  Visiting a node keeps the store well-formed, whatever the node
    and the context are: when the visit returns, the global styles of every
    builder still belong to a builder of the store on the same element, the
    lookup map still sends elements to builders on them, and the current
    timeline of every context is a builder of the store.  The visit only
    extends the store: no builder or context is removed, every builder keeps
    its element, its global styles and its class, every context its element
    and its parent, and errors are only appended. *)
Theorem visit_keeps_the_store_well_formed :
  forall (querySelectorAll : element -> string -> list element)
         (ast : Ast) (context : nat) (s s' : Store),
    wellFormed s ->
    visit querySelectorAll ast context s = Some (tt, s') ->
    wellFormed s' /\ extends s s'.
Proof.
  intros q ast context s s' W E. apply (sound_visit q ast context s tt s' W E).
Qed.

Lemma wellFormed_rootContextStore : wellFormed rootContextStore.
Proof.
  unfold wellFormed, rootContextStore.
  cbn [timelines contexts _elementTimelineStylesLookup]. split; [|split].
  - intros [|[|i]] b H; simpl in H; try discriminate.
    injection H as <-. eexists. split; reflexivity.
  - intros el o [H|[]]. injection H as <- <-. eexists. split; reflexivity.
  - intros [|[|j]] c H; simpl in H; try discriminate.
    injection H as <-. simpl. lia.
Qed.

Lemma visit_keeps_the_store_well_formed_witness :
  exists s',
    visit noDom holdThenGroup 0 rootContextStore = Some (tt, s')
    /\ wellFormed s' /\ extends rootContextStore s'.
Proof.
  assert (E : exists s',
             visit noDom holdThenGroup 0 rootContextStore = Some (tt, s'))
    by (vm_compute; eexists; reflexivity).
  destruct E as [s' E]. exists s'. split; [exact E|].
  apply (visit_keeps_the_store_well_formed noDom holdThenGroup 0
           rootContextStore s' wellFormed_rootContextStore E).
Defined.

(** ** The whole compilation *)

Lemma wellFormed_emptyStore (sub : ElementInstructionMap) :
  wellFormed (emptyStore sub).
Proof.
  unfold wellFormed, emptyStore.
  cbn [timelines contexts _elementTimelineStylesLookup]. split; [|split].
  - intros [|i] b H; discriminate H.
  - intros el o [].
  - intros [|i] b H; discriminate H.
Qed.

Lemma ctx_construct_sound (el : element) (t : nat) (s s' : Store) (id : nat) :
  wellFormed s ->
  (t < length (timelines s))%nat ->
  Context.construct el t s = Some (id, s') ->
  wellFormed s' /\ extends s s'.
Proof.
  intros [Wa [Wb Wc]] Ht E. injection E as <- <-. split.
  - unfold wellFormed. cbn [timelines contexts _elementTimelineStylesLookup
                              with_contexts].
    split; [exact Wa|]. split; [exact Wb|].
    intros j c Hc.
    destruct (Nat.lt_ge_cases j (length (contexts s))) as [L|G].
    + rewrite (nth_error_app1 _ _ L) in Hc. apply (Wc j c Hc).
    + rewrite (nth_error_app2 _ _ G) in Hc.
      destruct (j - length (contexts s))%nat as [|d]; simpl in Hc.
      * injection Hc as <-. exact Ht.
      * destruct d; discriminate.
  - unfold extends. cbn [timelines contexts errors with_contexts].
    rewrite length_app. split; [lia|]. split; [lia|].
    split; [exists []; rewrite app_nil_r; reflexivity|]. split.
    + intros i b Hb. exists b. split; [exact Hb|apply sameBuilder_refl].
    + intros j c Hc. exists c. split; [apply nth_error_app_old; exact Hc|auto].
Qed.

Lemma subBuildKeyframes_element (el : element) (sb : SubTimeline)
    (i : AnimationTimelineInstruction) :
  SubTimelineBuilder.buildKeyframes el sb = Some i -> i_element i = el.
Proof.
  unfold SubTimelineBuilder.buildKeyframes. cbv zeta.
  destruct (_stretchStartingKeyframe sb && truthy (delay (sub_timings sb))).
  - destruct (sub_keyframes sb) as [|first rest]; [discriminate|].
    destruct (SubTimelineBuilder.warpAll _ _ _ rest); [|discriminate].
    intros H. injection H as <-. reflexivity.
  - intros H. injection H as <-. reflexivity.
Qed.

Lemma buildKeyframesOf_element (b : TimelineBuilder)
    (i : AnimationTimelineInstruction) :
  buildKeyframesOf b = Some i -> i_element i = tl_element b.
Proof.
  unfold buildKeyframesOf. destruct (tl_sub b) as [sb|].
  - apply subBuildKeyframes_element.
  - intros H. injection H as <-. unfold buildKeyframes.
    destruct (fold_left (finalizeKeyframe b) (_keyframes b) ([], [], []))
      as [[p q] k]. reflexivity.
Qed.

(** The loop that builds the instructions: one for each builder. *)
Lemma build_loop (l : list nat) :
  forall (acc r : list AnimationTimelineInstruction) (s s' : Store),
    Visitor.foldM
      (fun acc tl =>
         b <- getTL tl ;;
         match buildKeyframesOf b with
         | Some i => ret (acc ++ [i])
         | None => throw
         end) l acc s = Some (r, s') ->
    s' = s
    /\ exists built,
        r = acc ++ built
        /\ length built = length l
        /\ Forall (fun i => exists t b, nth_error (timelines s) t = Some b
                                        /\ i_element i = tl_element b) built.
Proof.
  induction l as [|tl l IH]; intros acc r s s' E; cbn [Visitor.foldM] in E.
  - injection E as <- <-. split; [reflexivity|]. exists [].
    rewrite app_nil_r. repeat split. constructor.
  - destruct (bind_inv _ _ _ _ _ E) as [acc' [s1 [E1 E2]]].
    destruct (bind_inv _ _ _ _ _ E1) as [b [s0 [E3 E4]]].
    unfold getTL in E3.
    destruct (nth_error (timelines s) tl) as [b0|] eqn:N; [|discriminate].
    injection E3 as <- <-.
    destruct (buildKeyframesOf b0) as [i|] eqn:B; [|discriminate].
    injection E4 as <- <-.
    destruct (IH _ _ _ _ E2) as [-> [built [-> [L F]]]].
    split; [reflexivity|]. exists (i :: built). rewrite <- app_assoc.
    split; [reflexivity|]. split; [simpl; rewrite L; reflexivity|].
    constructor; [|exact F]. exists tl, b0. split; [exact N|].
    apply buildKeyframesOf_element. exact B.
Qed.

(** What the visitor's [buildKeyframes] returns. *)
Lemma visitorBuildKeyframes_result :
  forall (querySelectorAll : element -> string -> list element)
         (rootElement : element) (ast : Ast)
         (startingStyles finalStyles : StyleData) (locals : option Locals)
         (sub : ElementInstructionMap)
         (instructions : list AnimationTimelineInstruction) (s' : Store),
    visitorBuildKeyframes querySelectorAll rootElement ast startingStyles
      finalStyles locals (emptyStore sub) = Some (instructions, s') ->
    instructions <> []
    /\ wellFormed s'
    /\ (exists b0, nth_error (timelines s') 0 = Some b0
                   /\ tl_element b0 = rootElement)
    /\ Forall (fun i => exists t b, nth_error (timelines s') t = Some b
                                    /\ i_element i = tl_element b)
         instructions.
Proof.
  intros q root ast st fin locals sub ins s' E.
  unfold visitorBuildKeyframes in E.
  destruct (bind_inv _ _ _ _ _ E) as [t0 [s1 [E1 K1]]]. clear E.
  destruct (construct_sound _ _ _ _ _ _ _ (wellFormed_emptyStore sub) E1)
    as [W1 [_ [Ht _]]].
  assert (B1 : exists b0, nth_error (timelines s1) 0 = Some b0
                          /\ tl_element b0 = root).
  { injection E1 as _ <-. eexists. split; reflexivity. }
  destruct (bind_inv _ _ _ _ _ K1) as [context [s2 [E2 K2]]]. clear K1.
  destruct (ctx_construct_sound _ _ _ _ _ W1 Ht E2) as [W2 X2].
  destruct (bind_inv _ _ _ _ _ K2) as [[] [s3 [E3 K3]]]. clear K2.
  assert (C3 : keepsCtx (with_locals match locals with
                                     | Some l => l
                                     | None => []
                                     end)) by keeps_ctx.
  destruct (sound_modCtx _ _ C3 _ _ _ W2 E3) as [W3 X3].
  destruct (bind_inv _ _ _ _ _ K3) as [[] [s4 [E4 K4]]]. clear K3.
  destruct (sound_setStyles _ _ _ _ _ _ _ _ W3 E4) as [W4 X4].
  destruct (bind_inv _ _ _ _ _ K4) as [[] [s5 [E5 K5]]]. clear K4.
  destruct (sound_visit _ _ _ _ _ _ W4 E5) as [W5 X5].
  destruct (bind_inv _ _ _ _ _ K5) as [all [s6 [E6 K6]]]. clear K5.
  injection E6 as <- <-.
  destruct (bind_inv _ _ _ _ _ K6) as [[] [s7 [E7 K7]]]. clear K6.
  assert (S7 : sound
                 (when
                    (negb (length
                             (map fst
                                (filter (fun p => containsAnimation (snd p))
                                   (combine (seq 0 (length (timelines s5)))
                                      (timelines s5)))) =? 0)%nat
                     && negb (length (keys fin) =? 0)%nat)
                    match
                      last
                        (map Some
                           (map fst
                              (filter (fun p => containsAnimation (snd p))
                                 (combine (seq 0 (length (timelines s5)))
                                    (timelines s5))))) None
                    with
                    | Some tl =>
                        b <- getTL tl ;;
                        when (negb (allowOnlyTimelineStyles b))
                          (TimelineBuilderMethods.setStyles tl [TokStyles fin]
                             None false locals)
                    | None => ret tt
                    end)).
  { repeat sound_method. }
  destruct (S7 _ _ _ W5 E7) as [W7 X7].
  assert (X17 : extends s1 s7).
  { apply (extends_trans _ _ _ X2). apply (extends_trans _ _ _ X3).
    apply (extends_trans _ _ _ X4). apply (extends_trans _ _ _ X5). exact X7. }
  assert (B7 : exists b0, nth_error (timelines s7) 0 = Some b0
                          /\ tl_element b0 = root).
  { destruct B1 as [b0 [H0 H1]].
    destruct X17 as [_ [_ [_ [Hb _]]]].
    destruct (Hb 0%nat b0 H0) as [b' [Hb' [Sb _]]].
    exists b'. split; [exact Hb'|congruence]. }
  destruct (negb (length
                    (map fst
                       (filter (fun p => containsAnimation (snd p))
                          (combine (seq 0 (length (timelines s5)))
                             (timelines s5)))) =? 0)%nat) eqn:An.
  - destruct (build_loop _ _ _ _ _ K7) as [-> [built [-> [L F]]]].
    split; [|split; [exact W7|split; [exact B7|exact F]]].
    intros Hnil. simpl in Hnil. rewrite Hnil in L. simpl in L.
    rewrite <- L in An. discriminate An.
  - injection K7 as <- <-.
    split; [discriminate|]. split; [exact W7|]. split; [exact B7|].
    constructor; [|constructor]. destruct B7 as [b0 [H0 H1]].
    exists 0%nat, b0. split; [exact H0|]. symmetry. exact H1.
Qed.

(** X23.  When the compilation returns, it returns at least one
    instruction, each for the element of a builder of the store, and the
    store it leaves is well-formed, with the root builder first. *)
Theorem compilation_returns_instructions :
  forall (querySelectorAll : element -> string -> list element)
         (rootElement : element) (ast : Ast)
         (startingStyles finalStyles : StyleData) (locals : option Locals)
         (sub : ElementInstructionMap)
         (instructions : list AnimationTimelineInstruction) (s' : Store),
    visitorBuildKeyframes querySelectorAll rootElement ast startingStyles
      finalStyles locals (emptyStore sub) = Some (instructions, s') ->
    instructions <> []
    /\ wellFormed s'
    /\ (exists b0, nth_error (timelines s') 0 = Some b0
                   /\ tl_element b0 = rootElement)
    /\ Forall (fun i => exists t b, nth_error (timelines s') t = Some b
                                    /\ i_element i = tl_element b)
         instructions.
Proof.
  intros q root ast st fin locals sub ins s' E.
  apply (visitorBuildKeyframes_result q root ast st fin locals sub ins s' E).
Qed.

Lemma compilation_returns_instructions_witness :
  exists instructions s',
    visitorBuildKeyframes noDom root holdThenGroup [] [("b", num 9)] None
      (emptyStore []) = Some (instructions, s')
    /\ instructions <> []
    /\ wellFormed s'.
Proof.
  assert (E : exists instructions s',
             visitorBuildKeyframes noDom root holdThenGroup [] [("b", num 9)]
               None (emptyStore []) = Some (instructions, s'))
    by (vm_compute; eexists _, _; reflexivity).
  destruct E as [ins [s' E]]. exists ins, s'. split; [exact E|].
  destruct (compilation_returns_instructions noDom root holdThenGroup []
              [("b", num 9)] None [] ins s' E) as [N [W _]].
  split; assumption.
Defined.

(** ** The delay of a stagger, applied *)







(** ** Only builders that contain an animation are finalized *)

Lemma sameFrame_keeps_animation (b0 b : TimelineBuilder) :
  sameFrame b0 b -> containsAnimation b = containsAnimation b0.
Proof.
  intros (_ & _ & _ & _ & _ & _ & K & _ & C).
  unfold containsAnimation. rewrite C.
  destruct (tl_sub b0); [reflexivity|].
  rewrite <- (length_map fst (_keyframes b)), K, length_map. reflexivity.
Qed.

Lemma in_combine_seq {A : Type} (l : list A) :
  forall (a i : nat) (x : A),
    In (i, x) (combine (seq a (length l)) l) <->
    (a <= i)%nat /\ nth_error l (i - a) = Some x.
Proof.
  induction l as [|y l IH]; intros a i x; simpl.
  - split; [contradiction|]. intros [_ H].
    destruct (i - a)%nat; discriminate H.
  - rewrite IH. split.
    + intros [H|[L N]].
      * injection H as <- <-. split; [lia|]. rewrite Nat.sub_diag. reflexivity.
      * split; [lia|]. replace (i - a)%nat with (S (i - S a)) by lia. exact N.
    + intros [L N]. destruct (Nat.eq_dec a i) as [<-|D].
      * left. rewrite Nat.sub_diag in N. simpl in N. congruence.
      * right. split; [lia|].
        replace (i - a)%nat with (S (i - S a)) in N by lia. exact N.
Qed.

Lemma Forall2_impl_In_l {A B : Type} (P R : A -> B -> Prop) (Q : A -> Prop)
    (l : list A) (r : list B) :
  Forall2 P l r -> (forall x, In x l -> Q x) ->
  (forall x y, P x y -> Q x -> R x y) -> Forall2 R l r.
Proof.
  intros F. induction F as [|x y l r Pxy F IH]; intros Hl Hi; constructor.
  - apply Hi; [exact Pxy|]. apply Hl. left. reflexivity.
  - apply IH; [|exact Hi]. intros z Hz. apply Hl. right. exact Hz.
Qed.

(** The builders the visitor keeps: those that contain an animation. *)
Lemma animated_In (all : list TimelineBuilder) (tl : nat) :
  In tl (map fst (filter (fun p => containsAnimation (snd p))
                    (combine (seq 0 (length all)) all))) <->
  exists b, nth_error all tl = Some b /\ containsAnimation b = true.
Proof.
  rewrite in_map_iff. split.
  - intros [[i b] [E H]]. simpl in E. subst i.
    apply filter_In in H. destruct H as [H C].
    apply in_combine_seq in H. destruct H as [_ H].
    rewrite Nat.sub_0_r in H. exists b. auto.
  - intros [b [N C]]. exists (tl, b). split; [reflexivity|].
    apply filter_In. split; [|exact C].
    apply in_combine_seq. rewrite Nat.sub_0_r. split; [lia|exact N].
Qed.

(** The loop that builds the instructions leaves the store as it is and
    returns, for each index, what [buildKeyframes()] of its builder gives. *)
Lemma build_loop_builders (l : list nat) :
  forall (acc r : list AnimationTimelineInstruction) (s s' : Store),
    Visitor.foldM
      (fun acc tl =>
         b <- getTL tl ;;
         match buildKeyframesOf b with
         | Some i => ret (acc ++ [i])
         | None => throw
         end) l acc s = Some (r, s') ->
    s' = s
    /\ exists built,
        r = acc ++ built
        /\ Forall2 (fun tl i => exists b, nth_error (timelines s) tl = Some b
                                          /\ buildKeyframesOf b = Some i)
             l built.
Proof.
  induction l as [|tl l IH]; intros acc r s s' E; cbn [Visitor.foldM] in E.
  - injection E as <- <-. split; [reflexivity|]. exists [].
    rewrite app_nil_r. split; [reflexivity|constructor].
  - destruct (bind_inv _ _ _ _ _ E) as [acc' [s1 [E1 E2]]].
    destruct (bind_inv _ _ _ _ _ E1) as [b [s0 [E3 E4]]].
    unfold getTL in E3.
    destruct (nth_error (timelines s) tl) as [b0|] eqn:N; [|discriminate].
    injection E3 as <- <-.
    destruct (buildKeyframesOf b0) as [i|] eqn:B; [|discriminate].
    injection E4 as <- <-.
    destruct (IH _ _ _ _ E2) as [-> [built [-> F]]].
    split; [reflexivity|]. exists (i :: built). rewrite <- app_assoc.
    split; [reflexivity|]. constructor; [|exact F].
    exists b0. split; [exact N|exact B].
Qed.

(** What the visitor's [buildKeyframes] finalizes: when no builder of the
    store contains an animation, nothing, and the result is the one empty
    instruction; otherwise the builders that contain an animation, each
    once and in the order of the store. *)
Lemma visitorBuildKeyframes_animated :
  forall (querySelectorAll : element -> string -> list element)
         (rootElement : element) (ast : Ast)
         (startingStyles finalStyles : StyleData) (locals : option Locals)
         (s : Store) (instructions : list AnimationTimelineInstruction)
         (s' : Store),
    visitorBuildKeyframes querySelectorAll rootElement ast startingStyles
      finalStyles locals s = Some (instructions, s') ->
    let animated :=
      map fst (filter (fun p => containsAnimation (snd p))
                 (combine (seq 0 (length (timelines s'))) (timelines s'))) in
    (animated = []
     /\ instructions
        = [createTimelineInstruction rootElement [] [] [] zero zero
             (Some EmptyString) false])
    \/ (animated <> []
        /\ Forall2
             (fun tl i =>
                exists b, nth_error (timelines s') tl = Some b
                          /\ containsAnimation b = true
                          /\ buildKeyframesOf b = Some i)
             animated instructions).
Proof.
  intros q root ast st fin locals s ins s' E.
  unfold visitorBuildKeyframes in E.
  destruct (bind_inv _ _ _ _ _ E) as [t0 [s1 [_ K1]]]. clear E.
  destruct (bind_inv _ _ _ _ _ K1) as [context [s2 [_ K2]]]. clear K1.
  destruct (bind_inv _ _ _ _ _ K2) as [[] [s3 [_ K3]]]. clear K2.
  destruct (bind_inv _ _ _ _ _ K3) as [[] [s4 [_ K4]]]. clear K3.
  destruct (bind_inv _ _ _ _ _ K4) as [[] [s5 [_ K5]]]. clear K4.
  destruct (bind_inv _ _ _ _ _ K5) as [all [s6 [E6 K6]]]. clear K5.
  injection E6 as <- <-.
  destruct (bind_inv _ _ _ _ _ K6) as [[] [s7 [E7 K7]]]. clear K6.
  set (animated5 := map fst (filter (fun p => containsAnimation (snd p))
                               (combine (seq 0 (length (timelines s5)))
                                  (timelines s5)))) in *.
  assert (F7 : sameFrames s5 s7).
  { revert E7. apply kf_when.
    destruct (last (map Some animated5) None) as [tl|]; [|apply kf_ret].
    apply kf_bind; [apply kf_getTL|]. intros b.
    apply kf_when. apply kf_setStyles. }
  destruct F7 as (_ & _ & L7 & F7).
  assert (Same : map fst (filter (fun p => containsAnimation (snd p))
                            (combine (seq 0 (length (timelines s7)))
                               (timelines s7))) = animated5).
  { unfold animated5. rewrite L7.
    assert (G : forall (l5 l7 : list TimelineBuilder) (a : nat),
               length l7 = length l5 ->
               (forall u x, nth_error l5 u = Some x ->
                  exists x', nth_error l7 u = Some x'
                             /\ containsAnimation x' = containsAnimation x) ->
               map fst (filter (fun p => containsAnimation (snd p))
                          (combine (seq a (length l5)) l7))
               = map fst (filter (fun p => containsAnimation (snd p))
                            (combine (seq a (length l5)) l5))).
    { induction l5 as [|x l5 IH]; intros l7 a Hl Hf.
      - destruct l7; [reflexivity|discriminate].
      - destruct l7 as [|y l7]; [discriminate|].
        destruct (Hf 0%nat x eq_refl) as [y' [Hy Cy]].
        injection Hy as <-.
        assert (R : map fst (filter (fun p => containsAnimation (snd p))
                               (combine (seq (S a) (length l5)) l7))
                    = map fst (filter (fun p => containsAnimation (snd p))
                                 (combine (seq (S a) (length l5)) l5))).
        { apply IH; [simpl in Hl; lia|].
          intros u z Hz. apply (Hf (S u) z Hz). }
        cbn [length seq combine filter snd]. rewrite Cy.
        destruct (containsAnimation x); cbn [map fst]; rewrite R; reflexivity. }
    apply G; [exact L7|].
    intros u x Hx. destruct (F7 u x Hx) as [x' [Hx' Sx]].
    exists x'. split; [exact Hx'|].
    apply sameFrame_keeps_animation. exact Sx. }
  destruct (negb (length animated5 =? 0)%nat) eqn:An.
  - destruct (build_loop_builders _ _ _ _ _ K7) as [-> [built [-> F]]].
    cbv zeta. rewrite Same. right. split.
    + intros Hnil. rewrite Hnil in An. discriminate An.
    + cbn [app].
      assert (Hl : forall tl, In tl animated5 ->
                   exists b', nth_error (timelines s7) tl = Some b'
                              /\ containsAnimation b' = true).
      { intros tl Ht. rewrite <- Same in Ht. apply animated_In. exact Ht. }
      apply (Forall2_impl_In_l _ _ _ _ _ F Hl).
      intros tl i [b [N B]] [b' [N' C']]. exists b.
      split; [exact N|]. split; [congruence|exact B].
  - injection K7 as <- <-. cbv zeta. rewrite Same. left.
    split; [|reflexivity].
    destruct animated5; [reflexivity|discriminate An].
Qed.

(** C7, amended.  Every keyframe a builder emits is the keyframe recorded at
    a relative time, completed from the backfill, with that time divided by
    the builder's duration as offset.  A builder that has only its initial
    keyframe, at relative time 0 and with duration 0, emits that single
    keyframe with offset 0 / 0, which is [NaN]; such a builder does not
    contain an animation.  The visitor's [buildKeyframes] finalizes exactly
    the builders of the store for which [containsAnimation()] holds, each
    once and in the order of the store, which for a builder that is not a
    sub-timeline means more than one keyframe; when there is none it
    finalizes no builder and returns one instruction without keyframes. *)
Theorem buildKeyframes_offsets :
  (forall b : TimelineBuilder,
      keyframes (buildKeyframes b)
      = map (fun entry =>
               set "offset" (VNum (fst entry / tl_duration b)%num)
                 (copyStyles (snd entry) (_backFill b) true []))
          (_keyframes b))
  /\ (forall el start owner,
         tl_duration (initialBuilder el start owner None) = ofZ 0
         /\ keyframes (buildKeyframes (initialBuilder el start owner None))
            = [[("offset", VNum NaN)]]
         /\ containsAnimation (initialBuilder el start owner None) = false)
  /\ (forall (querySelectorAll : element -> string -> list element)
             (rootElement : element) (ast : Ast)
             (startingStyles finalStyles : StyleData) (locals : option Locals)
             (s : Store) (instructions : list AnimationTimelineInstruction)
             (s' : Store),
         visitorBuildKeyframes querySelectorAll rootElement ast startingStyles
           finalStyles locals s = Some (instructions, s') ->
         let animated :=
           map fst (filter (fun p => containsAnimation (snd p))
                      (combine (seq 0 (length (timelines s'))) (timelines s'))) in
         (animated = []
          /\ instructions
             = [createTimelineInstruction rootElement [] [] [] zero zero
                  (Some EmptyString) false])
         \/ (animated <> []
             /\ Forall2
                  (fun tl i =>
                     exists b,
                       nth_error (timelines s') tl = Some b
                       /\ containsAnimation b = true
                       /\ buildKeyframesOf b = Some i
                       /\ (tl_sub b = None ->
                           (1 < length (_keyframes b))%nat
                           /\ i = buildKeyframes b))
                  animated instructions)).
Proof.
  split; [intros b; apply buildKeyframes_keyframes|].
  split; [intros el start owner; repeat split|].
  intros q root ast st fin locals s ins s' E.
  destruct (visitorBuildKeyframes_animated q root ast st fin locals s ins s' E)
    as [H|[N F]]; [left; exact H|].
  right. split; [exact N|].
  apply (Forall2_impl_In_l _ _ (fun _ => True) _ _ F); [auto|].
  intros tl i [b [Hb [C B]]] _. exists b.
  split; [exact Hb|]. split; [exact C|]. split; [exact B|].
  intros Sub. unfold containsAnimation in C. unfold buildKeyframesOf in B.
  rewrite Sub in C, B. apply Nat.ltb_lt in C.
  split; [exact C|congruence].
Qed.

Lemma buildKeyframes_offsets_witness :
  exists instructions s',
    visitorBuildKeyframes noDom root holdThenGroup [] [("b", num 9)] None
      (emptyStore []) = Some (instructions, s')
    /\ Forall2
         (fun tl i =>
            exists b,
              nth_error (timelines s') tl = Some b
              /\ containsAnimation b = true
              /\ buildKeyframesOf b = Some i
              /\ (tl_sub b = None ->
                  (1 < length (_keyframes b))%nat /\ i = buildKeyframes b))
         (map fst (filter (fun p => containsAnimation (snd p))
                     (combine (seq 0 (length (timelines s'))) (timelines s'))))
         instructions.
Proof.
  assert (E : exists instructions s',
             visitorBuildKeyframes noDom root holdThenGroup [] [("b", num 9)]
               None (emptyStore []) = Some (instructions, s'))
    by (vm_compute; eexists _, _; reflexivity).
  destruct E as [ins [s' E]]. exists ins, s'. split; [exact E|].
  destruct buildKeyframes_offsets as [_ [_ H]].
  destruct (H noDom root holdThenGroup [] [("b", num 9)] None (emptyStore [])
              ins s' E) as [[_ I]|[_ F]]; [|exact F].
  exfalso. rewrite I in E. vm_compute in E. discriminate E.
Defined.

(** ** The transition factory *)

Section Factory.
Import TransitionFactory.


Lemma iteratorToArray_items {A : Type} (l : list A) : iteratorToArray l = l.
Proof.
  unfold iteratorToArray.
  assert (G : forall acc, fold_left (fun arr item => arr ++ [item]) l acc
                          = acc ++ l).
  { induction l as [|x r IH]; intros acc; simpl.
    - rewrite app_nil_r. reflexivity.
    - rewrite IH, <- app_assoc. reflexivity. }
  apply G.
Qed.

Lemma elements_add_In (x y : element) (l : list element) :
  In x (elements_add y l) <-> x = y \/ In x l.
Proof.
  unfold elements_add. destruct (existsb (Nat.eqb y) l) eqn:E.
  - split; [auto|]. intros [->|H]; [|exact H].
    apply existsb_exists in E as [z [Hz Q]]. apply Nat.eqb_eq in Q.
    subst z. exact Hz.
  - rewrite in_app_iff. simpl. split.
    + intros [H|[H|[]]]; auto.
    + intros [H|H]; auto.
Qed.

Lemma elements_add_NoDup (y : element) (l : list element) :
  NoDup l -> NoDup (elements_add y l).
Proof.
  intros H. unfold elements_add.
  destruct (existsb (Nat.eqb y) l) eqn:E; [exact H|].
  apply NoDup_rev in H. rewrite <- (rev_involutive (l ++ [y])).
  apply NoDup_rev. rewrite rev_app_distr. simpl. constructor; [|exact H].
  rewrite <- in_rev. intros Hin.
  assert (C : existsb (Nat.eqb y) l = true).
  { apply existsb_exists. exists y. split; [exact Hin|apply Nat.eqb_refl]. }
  rewrite C in E. discriminate.
Qed.

Lemma queried_fold (el : element) (l : list AnimationTimelineInstruction) :
  forall acc,
    NoDup acc -> ~ In el acc ->
    let r := fold_left
               (fun queriedElements tl =>
                  if negb (Nat.eqb (i_element tl) el)
                  then elements_add (i_element tl) queriedElements
                  else queriedElements) l acc in
    NoDup r /\ ~ In el r
    /\ forall x, In x r <->
                 In x acc \/ (x <> el /\ exists tl, In tl l /\ i_element tl = x).
Proof.
  induction l as [|tl l IH]; intros acc ND NI; cbn [fold_left].
  - split; [exact ND|]. split; [exact NI|]. intros x. split; [auto|].
    intros [H|[_ [tl [[] _]]]]. exact H.
  - destruct (Nat.eqb (i_element tl) el) eqn:Q; cbn [negb].
    + apply Nat.eqb_eq in Q. destruct (IH acc ND NI) as [A [B C]].
      split; [exact A|]. split; [exact B|]. intros x. rewrite C. split.
      * intros [H|[N [t' [H1 H2]]]]; [auto|]. right. split; [exact N|].
        exists t'. split; [right; exact H1|exact H2].
      * intros [H|[N [t' [[<-|H1] H2]]]]; [auto| |].
        -- exfalso. apply N. rewrite <- H2. exact Q.
        -- right. split; [exact N|]. exists t'. auto.
    + apply Nat.eqb_neq in Q.
      assert (NI' : ~ In el (elements_add (i_element tl) acc)).
      { rewrite elements_add_In. intros [H|H]; [apply Q; auto|contradiction]. }
      destruct (IH _ (elements_add_NoDup _ _ ND) NI') as [A [B C]].
      split; [exact A|]. split; [exact B|]. intros x. rewrite C.
      rewrite elements_add_In. split.
      * intros [[->|H]|[N [t' [H1 H2]]]]; [|auto|].
        -- right. split; [exact Q|]. exists tl. split; [left|]; reflexivity.
        -- right. split; [exact N|]. exists t'. split; [right; exact H1|exact H2].
      * intros [H|[N [t' [[<-|H1] H2]]]]; [auto| |].
        -- left. left. symmetry. exact H2.
        -- right. split; [exact N|]. exists t'. auto.
Qed.
End Factory.


(** X25.  The styles [build] takes for a state are the styles registered
    under the state; without them, and when the state is not the name of a
    member of [Object.prototype], the styles registered under [*], and none
    when there are none.  For a state without styles that carries the name
    of a member of [Object.prototype], such as [constructor], the styles of
    [*] are not taken: the inherited member is what the instruction gets,
    and the compiler, which copies the enumerable properties, finds no
    style in it.

    When [build] produces a transition instruction, the compilation of the
    animation returned its timelines, at least one, and no error, from
    these styles; the instruction holds what was taken for the two states.
    The queried elements are the elements of the timelines other than the
    element of the transition, each once; the transition is a removal
    exactly when the next state is [void].  When the compilation collected
    errors, [build] fails with one message made of all of them. *)
Theorem build_transition_instruction :
  (forall (stateStyles : obj StyleData) (state : string),
      (forall st, get state stateStyles = Some st ->
                  TransitionFactory.stylesOfState stateStyles state
                  = TransitionFactory.Styles st)
      /\ (get state stateStyles = None -> ~ In state objectPrototype ->
          TransitionFactory.stylesOfState stateStyles state
          = TransitionFactory.Styles
              (match get "*" stateStyles with Some st => st | None => [] end))
      /\ (get state stateStyles = None -> In state objectPrototype ->
          TransitionFactory.stylesOfState stateStyles state
          = TransitionFactory.Inherited state
          /\ TransitionFactory.ownStyles
               (TransitionFactory.stylesOfState stateStyles state) = []))
  /\ TransitionFactory.stylesOfState
       [("*", [("opacity", num 1)])] "constructor"
     = TransitionFactory.Inherited "constructor"
  /\ forall (querySelectorAll : element -> string -> list element)
       (f : TransitionFactory.AnimationTransitionFactory) (el : element)
       (currentState nextState : string) (locals : option Locals)
       (sub : ElementInstructionMap),
    let currentStateStyles :=
      TransitionFactory.stylesOfState (TransitionFactory._stateStyles f)
        currentState in
    let nextStateStyles :=
      TransitionFactory.stylesOfState (TransitionFactory._stateStyles f)
        nextState in
    match TransitionFactory.build querySelectorAll f el currentState nextState
            locals sub with
    | TransitionFactory.Instruction i =>
        buildAnimationTimelines querySelectorAll el
          (TransitionFactory.ast_animation f)
          (TransitionFactory.ownStyles currentStateStyles)
          (TransitionFactory.ownStyles nextStateStyles)
          (Some (TransitionFactory.animationLocals
                   (TransitionFactory.ast_locals f) locals)) sub
        = Some (TransitionFactory.b_timelines i, [])
        /\ TransitionFactory.b_timelines i <> []
        /\ TransitionFactory.fromStyles i = currentStateStyles
        /\ TransitionFactory.toStyles i = nextStateStyles
        /\ TransitionFactory.fromState i = currentState
        /\ TransitionFactory.toState i = nextState
        /\ NoDup (TransitionFactory.queriedElements i)
        /\ (forall x,
               In x (TransitionFactory.queriedElements i) <->
               x <> el
               /\ exists tl, In tl (TransitionFactory.b_timelines i)
                             /\ i_element tl = x)
        /\ TransitionFactory.isRemovalTransition i = String.eqb nextState "void"
    | TransitionFactory.BuildError message =>
        exists timelines errors,
          buildAnimationTimelines querySelectorAll el
            (TransitionFactory.ast_animation f)
            (TransitionFactory.ownStyles currentStateStyles)
            (TransitionFactory.ownStyles nextStateStyles)
            (Some (TransitionFactory.animationLocals
                     (TransitionFactory.ast_locals f) locals)) sub
          = Some (timelines, errors)
          /\ errors <> []
          /\ message
             = ("animation building failed:" ++ String (ascii_of_nat 10)
                  (TransitionFactory.join_lines errors))%string
    | TransitionFactory.TypeError =>
        buildAnimationTimelines querySelectorAll el
          (TransitionFactory.ast_animation f)
          (TransitionFactory.ownStyles currentStateStyles)
          (TransitionFactory.ownStyles nextStateStyles)
          (Some (TransitionFactory.animationLocals
                   (TransitionFactory.ast_locals f) locals)) sub
        = None
    end.
Proof.
  split.
  { intros stateStyles state.
    assert (I : inherited state = true <-> In state objectPrototype).
    { unfold inherited. rewrite existsb_exists. split.
      - intros [x [Hx Q]]. apply String.eqb_eq in Q. subst x. exact Hx.
      - intros H. exists state. split; [exact H|apply String.eqb_refl]. }
    unfold TransitionFactory.stylesOfState. split; [|split].
    - intros st ->. reflexivity.
    - intros -> N. destruct (inherited state) eqn:Q; [|reflexivity].
      exfalso. apply N, I. reflexivity.
    - intros -> H. apply I in H. rewrite H. split; reflexivity. }
  split; [reflexivity|].
  intros q f el cur next locals sub. unfold TransitionFactory.build. cbv zeta.
  destruct (buildAnimationTimelines q el _ _ _ _ sub)
    as [[timelines errors]|] eqn:B; [|reflexivity].
  destruct errors as [|e errors]; cbn [length Nat.eqb negb].
  - cbn [TransitionFactory.b_timelines TransitionFactory.queriedElements
           TransitionFactory.isRemovalTransition TransitionFactory.fromStyles
           TransitionFactory.toStyles TransitionFactory.fromState
           TransitionFactory.toState].
    split; [reflexivity|]. split.
    + unfold buildAnimationTimelines in B.
      destruct (visitorBuildKeyframes q el _ _ _ _ (emptyStore sub))
        as [[ins s']|] eqn:V; [|discriminate].
      injection B as <- _.
      apply (visitorBuildKeyframes_result _ _ _ _ _ _ _ _ _ V).
    + do 4 (split; [reflexivity|]).
      rewrite iteratorToArray_items.
      destruct (queried_fold el timelines [] (NoDup_nil _) (fun H => H))
        as [A [_ C]].
      split; [exact A|]. split; [|reflexivity].
      intros x. rewrite C. split.
      * intros [[]|H]. exact H.
      * intros H. right. exact H.
  - exists timelines, (e :: errors). split; [reflexivity|].
    split; [discriminate|reflexivity].
Qed.

(** ** Programs that compile: the compilation returns *)












Lemma total_conseq {A : Type} (F F' : Store -> Prop) (m : M A)
    (Q Q' : A -> Store -> Prop) :
  total F' m Q' ->
  (forall s, F s -> F' s) ->
  (forall a s, Q' a s -> Q a s) ->
  total F m Q.
Proof.
  intros H HF HQ s R Fs.
  destruct (H s R (HF s Fs)) as [a [s' [E [R' [X Q1]]]]].
  exists a, s'. split; [exact E|]. split; [exact R'|]. split; [exact X|].
  apply HQ. exact Q1.
Qed.

Lemma total_any {A : Type} (F : Store -> Prop) (m : M A)
    (Q : A -> Store -> Prop) :
  total F m Q -> total F m (fun _ _ => True).
Proof. intros H. apply (total_conseq F F m _ Q H); auto. Qed.





(** *** The primitive steps *)




















Section TotalMethods.
Import TimelineBuilderMethods.





End TotalMethods.












Section TotalMerge.
Import TimelineBuilderMethods.



End TotalMerge.




















(** ** A sequence adds the durations *)

Section Sequence.
Variable querySelectorAll : element -> string -> list element.


End Sequence.



(** ** The empty step *)

Section EmptyStep.
Import TimelineBuilderMethods.
Variables (t g : nat) (k : number) (Lg : StyleData).

(** One turn of the loop, on the builder itself. *)
Let turn (p : string) (v : value) (b : TimelineBuilder) : TimelineBuilder :=
  kf_write (AtTime k) p AUTO_STYLE
    (with_backFill (set p (orAuto v) (_backFill b)) b).

Let inv (s : Store) (b : TimelineBuilder) : Prop :=
  nth_error (timelines s) t = Some b
  /\ cursorAt k g b
  /\ exists gc, nth_error (timelines s) g = Some gc
                /\ _localTimelineStyles gc = Lg.

Lemma emptyStepProp_run (s : Store) (b : TimelineBuilder) (p : string)
    (v : value) :
  inv s b -> get p Lg = Some v ->
  exists s', emptyStepProp t p s = Some (tt, s') /\ inv s' (turn p v b).
Proof.
  intros [Hb [[C [D G]] [gc [Hg Hl]]]] Hv. unfold emptyStepProp.
  rewrite (bind_some _ _ _ _ _ (run_getTL _ _ _ Hb)). rewrite G.
  rewrite (bind_some _ _ _ _ _ (run_getTL _ _ _ Hg)). cbv zeta.
  unfold getP. rewrite Hl, Hv. fold (orAuto v).
  rewrite (bind_some _ _ _ _ tt eq_refl).
  eexists. split; [reflexivity|].
  unfold inv. cbn [timelines with_timelines].
  rewrite !nth_error_update_nth_same, Hb. cbn [option_map].
  cbn [_currentKeyframe with_backFill]. rewrite C.
  split; [reflexivity|]. split.
  - apply cursorAt_kf_write. repeat split; assumption.
  - destruct (Nat.eq_dec t g) as [E|N].
    + rewrite <- E, !nth_error_update_nth_same, Hb. cbn [option_map].
      cbn [_currentKeyframe with_backFill]. rewrite C.
      eexists. split; [reflexivity|].
      rewrite <- E, Hb in Hg. injection Hg as <-. exact Hl.
    + rewrite !(nth_error_update_nth_other _ _ _ _ N).
      exists gc. split; [exact Hg|exact Hl].
Qed.

Lemma turn_effect (p : string) (v : value) (b : TimelineBuilder) (q : string) :
  kf_get k (_keyframes b) <> None ->
  get q (kf_own (AtTime k) (turn p v b))
  = (if String.eqb q p then Some AUTO_STYLE else get q (kf_own (AtTime k) b))
  /\ get q (_backFill (turn p v b))
     = (if String.eqb q p then Some (orAuto v) else get q (_backFill b))
  /\ _localTimelineStyles (turn p v b) = _localTimelineStyles b
  /\ _styleSummary (turn p v b) = _styleSummary b.
Proof.
  intros D. unfold turn. split; [|split; [|split; reflexivity]].
  - simpl. rewrite kf_get_update_same.
    destruct (kf_get k (_keyframes b)) as [kf|]; [|contradiction]. simpl.
    destruct (String.eqb q p) eqn:Q.
    + apply String.eqb_eq in Q. subst q. apply get_set_same.
    + apply String.eqb_neq in Q. apply get_set_other. exact Q.
  - simpl. destruct (String.eqb q p) eqn:Q.
    + apply String.eqb_eq in Q. subst q. apply get_set_same.
    + apply String.eqb_neq in Q. apply get_set_other. exact Q.
Qed.

Lemma emptyStep_loop (l : list string) :
  (forall p, In p l -> get p Lg <> None) ->
  forall s b,
    inv s b ->
    exists s' b',
      forEach (emptyStepProp t) l s = Some (tt, s')
      /\ inv s' b'
      /\ _localTimelineStyles b' = _localTimelineStyles b
      /\ _styleSummary b' = _styleSummary b
      /\ forall q,
          get q (kf_own (AtTime k) b')
          = (if existsb (String.eqb q) l then Some AUTO_STYLE
             else get q (kf_own (AtTime k) b))
          /\ get q (_backFill b')
             = match (if existsb (String.eqb q) l then get q Lg else None) with
               | Some v => Some (orAuto v)
               | None => get q (_backFill b)
               end.
Proof.
  induction l as [|p r IH]; intros Hl s b I0.
  - exists s, b. split; [reflexivity|]. split; [exact I0|].
    split; [reflexivity|]. split; [reflexivity|]. intros q. split; reflexivity.
  - destruct (get p Lg) as [v|] eqn:Hv;
      [|exfalso; apply (Hl p (or_introl eq_refl)); exact Hv].
    destruct (emptyStepProp_run s b p v I0 Hv) as [s1 [E1 I1]].
    destruct (IH (fun x Hx => Hl x (or_intror Hx)) s1 _ I1)
      as [s2 [b2 [E2 [I2 [L2 [Y2 K2]]]]]].
    assert (D : kf_get k (_keyframes b) <> None) by apply I0.
    exists s2, b2. split.
    { cbn [forEach]. rewrite (bind_some _ _ _ _ _ E1). exact E2. }
    split; [exact I2|].
    destruct (turn_effect p v b p D) as [_ [_ [TL TY]]].
    split; [congruence|]. split; [congruence|].
    intros q. destruct (K2 q) as [A B].
    destruct (turn_effect p v b q D) as [TA [TB _]].
    rewrite A, B, TA, TB. cbn [existsb].
    destruct (String.eqb q p) eqn:Q.
    + apply String.eqb_eq in Q. subst q. cbn [orb]. rewrite Hv.
      split; [destruct (existsb (String.eqb p) r); reflexivity|].
      destruct (existsb (String.eqb p) r); reflexivity.
    + cbn [orb]. split; reflexivity.
Qed.
End EmptyStep.

Lemma emptyStep_run (s : Store) (t : nat) (b gb : TimelineBuilder) (k : number)
    (input : list StyleToken) (easing : option string)
    (locals : option Locals) :
  nth_error (timelines s) t = Some b ->
  _currentKeyframe b = AtTime k ->
  kf_get k (_keyframes b) <> None ->
  nth_error (timelines s) (_globalTimelineStyles b) = Some gb ->
  exists s' b',
    TimelineBuilderMethods.setStyles t input easing true locals s
    = Some (tt, s')
    /\ nth_error (timelines s') t = Some b'
    /\ _currentKeyframe b' = AtTime k
    /\ _currentEmptyStepKeyframe b' = Some (AtTime k)
    /\ allowOnlyTimelineStyles b' = false
    /\ _localTimelineStyles b' = _localTimelineStyles b
    /\ _styleSummary b' = _styleSummary b
    /\ (forall prop,
           get prop (_backFill b')
           = match get prop (_localTimelineStyles gb) with
             | Some v => Some (orAuto v)
             | None => get prop (_backFill b)
             end)
    /\ (forall prop,
           prop <> "easing" ->
           get prop (kf_own (AtTime k) b')
           = if existsb (String.eqb prop) (keys (_localTimelineStyles gb))
             then Some AUTO_STYLE
             else get prop (kf_own (AtTime k) b)).
Proof.
  intros Hb C D Hg.
  destruct (easing_run s t b gb k easing Hb C D Hg)
    as [s1 [b1 [g1 [E1 [Hn [Hb1 [Hg1 [Lg [Lb [C1 [Kq [Yb Bb]]]]]]]]]]]].
  unfold TimelineBuilderMethods.setStyles.
  rewrite (bind_some _ _ _ _ _ E1).
  rewrite (bind_some _ _ _ _ _ (run_getTL _ _ _ Hb1)).
  pose proof C1 as [C1a [D1 G1]]. rewrite G1.
  rewrite (bind_some _ _ _ _ _ (run_getTL _ _ _ Hg1)). rewrite Lg.
  assert (Hl : forall p, In p (keys (_localTimelineStyles gb)) ->
                 get p (_localTimelineStyles gb) <> None).
  { intros p Hp. destruct (in_keys_get _ _ Hp) as [v Hv]. rewrite Hv.
    discriminate. }
  destruct (emptyStep_loop t (_globalTimelineStyles b) k
              (_localTimelineStyles gb) (keys (_localTimelineStyles gb)) Hl
              s1 b1) as [s2 [b2 [E2 [[Hb2 [[C2 [D2 G2]] _]] [L2 [Y2 K2]]]]]].
  { split; [exact Hb1|]. split; [exact C1|]. exists g1. auto. }
  rewrite (bind_some _ _ _ _ _ E2).
  eexists _, _. split; [reflexivity|].
  cbn [timelines with_timelines]. rewrite nth_error_update_nth_same, Hb2.
  cbn [option_map]. split; [reflexivity|].
  cbn [_currentKeyframe _currentEmptyStepKeyframe _localTimelineStyles
       _styleSummary _backFill with_currentEmptyStepKeyframe].
  split; [exact C2|]. split; [rewrite C2; reflexivity|]. split.
  { unfold allowOnlyTimelineStyles.
    cbn [_currentKeyframe _currentEmptyStepKeyframe
         with_currentEmptyStepKeyframe].
    rewrite C2. cbn [ref_eqb]. rewrite sameValueZero_refl. reflexivity. }
  split; [congruence|]. split; [congruence|]. split.
  - intros prop. destruct (K2 prop) as [_ B]. 
    change (_backFill (with_currentEmptyStepKeyframe (Some (_currentKeyframe b2)) b2))
      with (_backFill b2).
    rewrite B, Bb.
    destruct (existsb (String.eqb prop) (keys (_localTimelineStyles gb))) eqn:X.
    + reflexivity.
    + rewrite (get_not_in_keys _ _ X). reflexivity.
  - intros prop N. destruct (K2 prop) as [A _].
    change (kf_own (AtTime k)
              (with_currentEmptyStepKeyframe (Some (_currentKeyframe b2)) b2))
      with (kf_own (AtTime k) b2).
    rewrite A, (Kq prop N). reflexivity.
Qed.

(** X28.  An empty step, on a builder whose cursor is on a keyframe and
    whose global style object belongs to a builder of the store, always
    returns, whatever styles and bindings it is given, which it does not
    read.  The keyframe under the cursor becomes the empty-step keyframe, so
    that [allowOnlyTimelineStyles()] is false; every own property of the
    global styles is [AUTO] in that keyframe and has the global value, or
    [AUTO] if that value is falsy, in the backfill; the other properties of
    the keyframe and of the backfill, the local styles and the summary stay
    as they were. *)
Theorem empty_step_marks_known_styles :
  forall (s : Store) (t : nat) (b gb : TimelineBuilder) (k : number)
         (input : list StyleToken) (easing : option string)
         (locals : option Locals),
    nth_error (timelines s) t = Some b ->
    _currentKeyframe b = AtTime k ->
    kf_get k (_keyframes b) <> None ->
    nth_error (timelines s) (_globalTimelineStyles b) = Some gb ->
    exists s' b',
      TimelineBuilderMethods.setStyles t input easing true locals s
      = Some (tt, s')
      /\ nth_error (timelines s') t = Some b'
      /\ _currentKeyframe b' = AtTime k
      /\ _currentEmptyStepKeyframe b' = Some (AtTime k)
      /\ allowOnlyTimelineStyles b' = false
      /\ _localTimelineStyles b' = _localTimelineStyles b
      /\ _styleSummary b' = _styleSummary b
      /\ (forall prop,
             get prop (_backFill b')
             = match get prop (_localTimelineStyles gb) with
               | Some v => Some (orAuto v)
               | None => get prop (_backFill b)
               end)
      /\ (forall prop,
             prop <> "easing" ->
             get prop (kf_own (AtTime k) b')
             = if existsb (String.eqb prop) (keys (_localTimelineStyles gb))
               then Some AUTO_STYLE
               else get prop (kf_own (AtTime k) b)).
Proof.
  intros s t b gb k input easing locals Hb C D Hg.
  apply (emptyStep_run s t b gb k input easing locals Hb C D Hg).
Qed.

Lemma empty_step_marks_known_styles_witness :
  exists s' b',
    TimelineBuilderMethods.setStyles 0 [] (Some "ease-in") true None
      parentAndChild = Some (tt, s')
    /\ nth_error (timelines s') 0 = Some b'
    /\ _currentEmptyStepKeyframe b' = Some (AtTime zero)
    /\ allowOnlyTimelineStyles b' = false.
Proof.
  destruct (empty_step_marks_known_styles parentAndChild 0 parentBuilder
              parentBuilder zero [] (Some "ease-in") None eq_refl eq_refl)
    as [s' [b' [E [Hb [_ [He [Ha _]]]]]]].
  - discriminate.
  - reflexivity.
  - exists s', b'. repeat split; assumption.
Defined.

(** ** An [animate] step on keyframes *)

Section KeyframesLoop.
Import TimelineBuilderMethods.




End KeyframesLoop.

Section KeyframesStep.
Import TimelineBuilderMethods.
Variable querySelectorAll : element -> string -> list element.






End KeyframesStep.



(** ** A group of [animate] steps *)

Section GroupStep.
Import TimelineBuilderMethods.
Variable querySelectorAll : element -> string -> list element.



End GroupStep.


